(** * component_vis.model_evaluation: evaluation of a fitted CP model

    A shallow embedding of [src/component_vis/model_evaluation.py].

    Numbers.  The arrays hold exact rationals ([Qc], canonical fractions, with
    Leibniz equality): the embedding follows the arithmetic of the code on
    finite values and leaves rounding and overflow out.  The one operation of
    the module that produces a non-finite value from finite operands is the
    division, so a quotient is an [npfloat]: a finite rational, an infinity or
    NaN, as numpy's float64 division gives them (a warning, never an
    exception).

    Element types.  The arithmetic of the module is the same on integer and
    on floating-point arrays, with one exception: the in-place product
    [A *= weights.reshape(1, -1)] of [core_consistency], which numpy refuses
    when the product is floating-point and [A] holds integers.  A
    [typed_array] is an array with its element type, and
    [core_consistency_typed] is the function on such arrays;
    [core_consistency] is the same computation on the values, once that
    product is accepted.

    Arrays.  An [ndarray] is a shape and its entries in row-major (C) order,
    the layout of a freshly built numpy array.  The numpy primitives the module
    calls are given by their documented index semantics and materialised with
    [tabulate]; [np.fill_diagonal] is given as numpy implements it, by a strided
    write into the flattened array.

    Libraries.  [scipy.linalg.svd] is a parameter [svd] of the definitions, and
    so is [construct_cp_tensor], which the module imports from [factor_tools]. *)

From Stdlib Require Import String Ascii QArith Qcanon Bool Arith Lia List.
From Stdlib Require Finite.
Import ListNotations.

Close Scope Qc_scope.
Close Scope Q_scope.
Open Scope nat_scope.
Open Scope list_scope.

Set Implicit Arguments.

(** * Part I: the model *)

(** ** Exceptions and results *)

Inductive exn : Type :=
| ValueError (msg : string)
| TypeError (msg : string)
| NameError (msg : string)
| IndexError (msg : string)
| AttributeError (msg : string)
| LinAlgError (msg : string).

Inductive result (A : Type) : Type :=
| Ok (a : A)
| Raise (e : exn).

Arguments Ok {A} a.
Arguments Raise {A} e.

Definition bind {A B : Type} (c : result A) (k : A -> result B) : result B :=
  match c with
  | Ok a => k a
  | Raise e => Raise e
  end.

Notation "x <- c ;; k" := (bind c (fun x => k))
  (at level 61, c at next level, right associativity).
Notation "' p <- c ;; k" := (bind c (fun x => let 'p := x in k))
  (at level 61, p pattern, c at next level, right associativity).

Definition is_ok {A : Type} (c : result A) : bool :=
  match c with Ok _ => true | Raise _ => false end.

(** A loop [for x in xs: acc = body(acc, x)] whose body may raise. *)
Fixpoint for_each {A B : Type} (xs : list A) (body : B -> A -> result B)
  (acc : B) : result B :=
  match xs with
  | [] => Ok acc
  | x :: xs' => acc' <- body acc x ;; for_each xs' body acc'
  end.

(** A list comprehension whose element expression may raise. *)
Fixpoint map_result {A B : Type} (f : A -> result B) (l : list A) : result (list B) :=
  match l with
  | [] => Ok []
  | x :: l' => y <- f x ;; ys <- map_result f l' ;; Ok (y :: ys)
  end.

(** ** Scalars *)

Definition Qc_eqb (x y : Qc) : bool := Qeq_bool x y.
Definition Qc_ltb (x y : Qc) : bool := negb (Qle_bool y x).
Definition Qc_abs (x : Qc) : Qc := if Qc_ltb x 0 then (- x)%Qc else x.
Definition Qc_of_nat (n : nat) : Qc := Q2Qc (inject_Z (Z.of_nat n)).

Definition sumQc (l : list Qc) : Qc := fold_right Qcplus 0%Qc l.

(** [sum_range K f] is the sum of [f k] for [k < K]. *)
Definition sum_range (K : nat) (f : nat -> Qc) : Qc := sumQc (map f (seq 0 K)).

(** The value of a float64 quotient. *)
Inductive npfloat : Type :=
| Fin (q : Qc)
| PInf
| NInf
| NaN.

Definition is_finite (v : npfloat) : bool :=
  match v with Fin _ => true | _ => false end.

(** [x / y] on float64 scalars.  Every denominator of the module is a sum of
    squares, an absolute value or a count, so a zero denominator is [+0.0]. *)
Definition np_div (x y : Qc) : npfloat :=
  if Qc_eqb y 0 then
    if Qc_eqb x 0 then NaN else if Qc_ltb 0 x then PInf else NInf
  else Fin (x / y)%Qc.

(** [c - v] for a finite [c]. *)
Definition np_rsub (c : Qc) (v : npfloat) : npfloat :=
  match v with
  | Fin q => Fin (c - q)%Qc
  | PInf => NInf
  | NInf => PInf
  | NaN => NaN
  end.

(** ** Arrays *)

Record ndarray : Type := mk_ndarray { shape : list nat; data : list Qc }.

Definition ndim (a : ndarray) : nat := length (shape a).

Definition size_of (sh : list nat) : nat := fold_right Nat.mul 1 sh.

(** The entries fill the shape: the array is densely materialised, row-major. *)
Definition dense (a : ndarray) : Prop := length (data a) = size_of (shape a).

(** Row-major offset of an index. *)
Fixpoint ravel (sh idx : list nat) : nat :=
  match sh, idx with
  | _ :: sh', i :: idx' => i * size_of sh' + ravel sh' idx'
  | _, _ => 0
  end.

(** All indices of a shape, in row-major order. *)
Fixpoint indices (sh : list nat) : list (list nat) :=
  match sh with
  | [] => [[]]
  | d :: sh' => flat_map (fun i => map (cons i) (indices sh')) (seq 0 d)
  end.

Definition get (a : ndarray) (idx : list nat) : Qc :=
  nth (ravel (shape a) idx) (data a) 0%Qc.

Definition tabulate (sh : list nat) (f : list nat -> Qc) : ndarray :=
  mk_ndarray sh (map f (indices sh)).

Definition in_bounds (sh idx : list nat) : Prop := Forall2 lt idx sh.

(** The list [l] with [v] at position [n]. *)
Fixpoint replace_at {A : Type} (n : nat) (v : A) (l : list A) : list A :=
  match l, n with
  | [], _ => []
  | _ :: l', 0 => v :: l'
  | x :: l', S n' => x :: replace_at n' v l'
  end.

Definition nrows (A : ndarray) : nat := nth 0 (shape A) 0.

Definition ncols (A : ndarray) : nat := nth 1 (shape A) 0.

(** ** The numpy primitives of the module *)

(** [a.shape[k]]. *)
Definition shape_at (a : ndarray) (k : nat) : result nat :=
  match nth_error (shape a) k with
  | Some d => Ok d
  | None => Raise (IndexError "tuple index out of range")
  end.

(** [a.T]: the axes reversed. *)
Definition transpose (a : ndarray) : ndarray :=
  tabulate (rev (shape a)) (fun idx => get a (rev idx)).

(** [np.tensordot(a, b, (1, b.ndim - 1))] for a matrix [a]: axis 1 of [a] is
    summed against the last axis of [b]; the remaining axis of [a] comes
    first in the result, followed by the remaining axes of [b].  Throughout
    the module the first operand is a matrix. *)
Definition tensordot_last (a b : ndarray) : result ndarray :=
  match shape a, rev (shape b) with
  | [R; K], K' :: rsh =>
      if K =? K' then
        Ok (tabulate (R :: rev rsh)
              (fun idx =>
                 match idx with
                 | r :: rest =>
                     sum_range K (fun k => get a [r; k] * get b (rest ++ [k]))%Qc
                 | [] => 0%Qc
                 end))
      else Raise (ValueError "shape-mismatch for sum")
  | _, [] => Raise (IndexError "tuple index out of range")
  | _, _ => Raise (ValueError "shape-mismatch for sum")
  end.

(** [np.diag(v)]: a vector becomes the diagonal of a square matrix, a matrix
    gives up its diagonal. *)
Definition np_diag (v : ndarray) : result ndarray :=
  match shape v with
  | [K] =>
      Ok (tabulate [K; K]
            (fun idx =>
               match idx with
               | [i; j] => if i =? j then get v [i] else 0%Qc
               | _ => 0%Qc
               end))
  | [m; n] =>
      Ok (tabulate [Nat.min m n]
            (fun idx => match idx with [i] => get v [i; i] | _ => 0%Qc end))
  | _ => Raise (ValueError "Input must be 1- or 2-d.")
  end.

(** [a != 0], entry by entry. *)
Definition ne_zero_mask (a : ndarray) : list bool :=
  map (fun x => negb (Qc_eqb x 0)) (data a).

(** [a[mask]] for a boolean mask of the shape of [a]: the selected entries. *)
Fixpoint boolean_index (l : list Qc) (mask : list bool) : list Qc :=
  match l, mask with
  | x :: l', m :: mask' =>
      if m then x :: boolean_index l' mask' else boolean_index l' mask'
  | _, _ => []
  end.

(** [1 / v], entry by entry. *)
Definition reciprocal (l : list Qc) : list Qc := map (fun x => (1 / x)%Qc) l.

(** [a[mask] = vals], with as many values as selected entries: the selected
    entries are overwritten, in order. *)
Fixpoint masked_assign (l : list Qc) (mask : list bool) (vals : list Qc) : list Qc :=
  match l, mask with
  | x :: l', m :: mask' =>
      if m then
        match vals with
        | v :: vals' => v :: masked_assign l' mask' vals'
        | [] => x :: masked_assign l' mask' []
        end
      else x :: masked_assign l' mask' vals
  | _, _ => l
  end.

(** Lines 35-37 of the source: the copy of [s] with its non-zero entries
    inverted in place. *)
Definition s_pinv_of (s : ndarray) : ndarray :=
  let s_pinv := s in
  let mask := ne_zero_mask s_pinv in
  mk_ndarray (shape s_pinv)
    (masked_assign (data s_pinv) mask (reciprocal (boolean_index (data s_pinv) mask))).

(** [np.ascontiguousarray(a)]: the entries in C order, with at least one axis. *)
Definition ascontiguousarray (a : ndarray) : ndarray :=
  match shape a with
  | [] => mk_ndarray [1] (data a)
  | _ => a
  end.

(** ** Elementwise arithmetic with broadcasting *)

(** Shapes are aligned at their last axes; two lengths are compatible when
    they are equal or one of them is 1. *)
Fixpoint broadcast_rev (s1 s2 : list nat) : option (list nat) :=
  match s1, s2 with
  | [], s => Some s
  | s, [] => Some s
  | d1 :: t1, d2 :: t2 =>
      match broadcast_rev t1 t2 with
      | Some t =>
          if d1 =? d2 then Some (d1 :: t)
          else if d1 =? 1 then Some (d2 :: t)
          else if d2 =? 1 then Some (d1 :: t)
          else None
      | None => None
      end
  end.

Definition broadcast_shapes (s1 s2 : list nat) : option (list nat) :=
  option_map (@rev nat) (broadcast_rev (rev s1) (rev s2)).

(** The index of an operand of shape [sa] that an index of the broadcast
    result reads: the trailing axes, an axis of length 1 read at 0. *)
Definition broadcast_index (sa idx : list nat) : list nat :=
  map (fun di => if fst di =? 1 then 0 else snd di)
    (combine sa (skipn (length idx - length sa) idx)).

Definition broadcast_get (a : ndarray) (idx : list nat) : Qc :=
  get a (broadcast_index (shape a) idx).

(** [a op b] for an elementwise binary operator. *)
Definition np_binop (f : Qc -> Qc -> Qc) (a b : ndarray) : result ndarray :=
  match broadcast_shapes (shape a) (shape b) with
  | Some sh =>
      Ok (tabulate sh (fun idx => f (broadcast_get a idx) (broadcast_get b idx)))
  | None => Raise (ValueError "operands could not be broadcast together")
  end.

Definition list_eqb (l1 l2 : list nat) : bool :=
  if list_eq_dec Nat.eq_dec l1 l2 then true else false.

(** [a op= b] on the values: the result is written into [a], so it must have
    the shape of [a].  The element types are looked at before, by [np_imul]. *)
Definition np_inplace (f : Qc -> Qc -> Qc) (a b : ndarray) : result ndarray :=
  match broadcast_shapes (shape a) (shape b) with
  | Some sh =>
      if list_eqb sh (shape a) then
        Ok (tabulate sh (fun idx => f (broadcast_get a idx) (broadcast_get b idx)))
      else Raise (ValueError "non-broadcastable output operand")
  | None => Raise (ValueError "operands could not be broadcast together")
  end.

(** [a ** 2]. *)
Definition np_square (a : ndarray) : ndarray :=
  mk_ndarray (shape a) (map (fun x => (x * x)%Qc) (data a)).

(** [np.sum(a)]. *)
Definition np_sum (a : ndarray) : Qc := sumQc (data a).

(** [np.abs(a)]. *)
Definition np_abs (a : ndarray) : ndarray :=
  mk_ndarray (shape a) (map Qc_abs (data a)).

(** [w.reshape(1, -1)]: one row holding all the entries. *)
Definition reshape_row (w : ndarray) : ndarray :=
  mk_ndarray [1; length (data w)] (data w).

(** [np.zeros(shape)]. *)
Definition np_zeros (sh : list nat) : ndarray := tabulate sh (fun _ => 0%Qc).

(** ** [np.fill_diagonal] *)

(** [np.cumprod]. *)
Fixpoint cumprod (l : list nat) : list nat :=
  match l with
  | [] => []
  | d :: l' => d :: map (Nat.mul d) (cumprod l')
  end.

Definition all_same (l : list nat) : bool :=
  match l with
  | [] => true
  | d :: l' => forallb (Nat.eqb d) l'
  end.

(** [a.flat[:stop:step] = val]. *)
Definition flat_assign_stride (l : list Qc) (stop step : nat) (val : Qc) : list Qc :=
  map (fun px => if (fst px <? stop) && (fst px mod step =? 0) then val else snd px)
    (combine (seq 0 (length l)) l).

(** [np.fill_diagonal(a, val)], as numpy writes it: a strided write into the
    flattened array; a matrix may be rectangular, an array of more axes must
    have them all of one length. *)
Definition fill_diagonal (a : ndarray) (val : Qc) : result ndarray :=
  match shape a with
  | [] | [_] => Raise (ValueError "array must be at least 2-d")
  | [_; n] =>
      let step := n + 1 in
      let stop := n * n in
      Ok (mk_ndarray (shape a) (flat_assign_stride (data a) stop step val))
  | sh =>
      if all_same sh then
        let step := 1 + list_sum (cumprod (removelast sh)) in
        Ok (mk_ndarray (shape a) (flat_assign_stride (data a) (length (data a)) step val))
      else Raise (ValueError "All dimensions of input must be of equal length")
  end.

(** [a.reshape(sh)]. *)
Definition np_reshape (a : ndarray) (sh : list nat) : result ndarray :=
  if length (data a) =? size_of sh then Ok (mk_ndarray sh (data a))
  else Raise (ValueError "cannot reshape array")%string.

(** A name that is bound neither in the function nor in the module. *)
Definition unbound_name (name : string) : result ndarray :=
  Raise (NameError ("name '" ++ name ++ "' is not defined")%string).

(** The second positional argument of [np.ones] is the dtype. *)
Inductive dtype_arg : Type :=
| dtype_default
| dtype_int (n : nat).

Definition not_a_dtype : string := "Cannot interpret the integer as a data type".

Definition np_ones (sh : list nat) (dtype : dtype_arg) : result ndarray :=
  match dtype with
  | dtype_default => Ok (tabulate sh (fun _ => 1%Qc))
  | dtype_int _ => Raise (TypeError not_a_dtype)
  end.

(** [a @ b] for matrices. *)
Definition matmul (a b : ndarray) : result ndarray :=
  match shape a, shape b with
  | [m; k], [k'; n] =>
      if k =? k' then
        Ok (tabulate [m; n]
              (fun idx =>
                 match idx with
                 | [i; j] => sum_range k (fun l => get a [i; l] * get b [l; j])%Qc
                 | _ => 0%Qc
                 end))
      else Raise (ValueError "matmul: mismatch in its core dimension")
  | _, _ => Raise (ValueError "matmul: operands are not matrices")
  end.

(** [np.diagonal(a)] for a matrix. *)
Definition np_diagonal (a : ndarray) : result ndarray :=
  match shape a with
  | [m; n] =>
      Ok (tabulate [Nat.min m n]
            (fun idx => match idx with [i] => get a [i; i] | _ => 0%Qc end))
  | _ => Raise (ValueError "diag requires an array of at least two dimensions")
  end.

(** [v / d] for a vector [v] and a scalar [d]. *)
Definition np_div_scalar (v : ndarray) (d : Qc) : list npfloat :=
  map (fun x => np_div x d) (data v).

(** ** The functions of the module *)

Definition svd_triple : Type := (ndarray * ndarray * ndarray)%type.

Definition svd_U (t : svd_triple) : ndarray := fst (fst t).
Definition svd_s (t : svd_triple) : ndarray := snd (fst t).
Definition svd_Vh (t : svd_triple) : ndarray := snd t.

Section EstimateCore.

(** [scipy.linalg.svd(a, full_matrices=False)]: the factors [(U, s, Vh)], or
    an exception when the decomposition fails. *)
Variable svd : ndarray -> result svd_triple.

Definition estimate_core_tensor (factors : list ndarray) (X : ndarray)
  : result ndarray :=
  svds <- map_result svd factors ;;
  X <- for_each (rev svds)
         (fun X '(U, s, Vh) => tensordot_last (transpose U) X) X ;;
  X <- for_each (rev svds)
         (fun X '(U, s, Vh) =>
            let s_pinv := s_pinv_of s in
            D <- np_diag s_pinv ;;
            tensordot_last D X) X ;;
  X <- for_each (rev svds)
         (fun X '(U, s, Vh) => tensordot_last (transpose Vh) X) X ;;
  Ok (ascontiguousarray X).

End EstimateCore.

(** A CP tensor: optional weights and the factor matrices. *)
Definition cp_tensor : Type := (option ndarray * list ndarray)%type.

Section CoreConsistency.

Variable svd : ndarray -> result svd_triple.

Definition core_consistency (cp : cp_tensor) (X : ndarray) (normalised : bool)
  : result npfloat :=
  let '(weights, factors) := cp in
  factor0 <- match factors with
             | f :: _ => Ok f
             | [] => Raise (IndexError "tuple index out of range")
             end ;;
  rank <- shape_at factor0 1 ;;
  let A := factor0 in
  A <- match weights with
       | Some w => np_inplace Qcmult A (reshape_row w)
       | None => Ok A
       end ;;
  let factors := A :: tl factors in
  G <- estimate_core_tensor svd factors X ;;
  let T := np_zeros (repeat rank (ndim X)) in
  T <- fill_diagonal T 1%Qc ;;
  let denom := if normalised then np_sum (np_square G) else Qc_of_nat rank in
  D <- np_binop Qcminus G T ;;
  Ok (np_rsub (Q2Qc 100) (np_div (Q2Qc 100 * np_sum (np_square D))%Qc denom)).

End CoreConsistency.

(** *** Element types

    The one statement of the module whose outcome depends on the element types
    of its operands is [A *= weights.reshape(1, -1)]: numpy computes the
    product in the common type of the two arrays and must cast it back to the
    type of [A], which it refuses for a floating-point product and an integer
    [A].  [core_consistency_typed] is [core_consistency] on arrays that carry
    their element type. *)

(** The element type of an array: numpy's default types for integers and for
    floating-point numbers. *)
Inductive dtype : Type :=
| int64
| float64.

(** An array with its element type. *)
Record typed_array : Type := mk_typed { dtype_of : dtype; array_of : ndarray }.

Definition typed_cp_tensor : Type := (option typed_array * list typed_array)%type.

Definition as_float (a : ndarray) : typed_array := mk_typed float64 a.
Definition as_int (a : ndarray) : typed_array := mk_typed int64 a.

(** [np.result_type] of two arrays. *)
Definition result_type (a b : dtype) : dtype :=
  match a, b with
  | int64, int64 => int64
  | _, _ => float64
  end.

(** [np.can_cast(from, to, casting="same_kind")]. *)
Definition can_cast_same_kind (from to : dtype) : bool :=
  match from, to with
  | float64, int64 => false
  | _, _ => true
  end.

Definition cannot_cast : string :=
  "Cannot cast ufunc 'multiply' output from dtype('float64') to dtype('int64') with casting rule 'same_kind'".

(** [a *= b] on typed arrays: the types are resolved, and the cast of the
    result to the type of [a] is checked, before the operands are broadcast;
    the result is written into [a], which keeps its type. *)
Definition np_imul (a b : typed_array) : result typed_array :=
  if can_cast_same_kind (result_type (dtype_of a) (dtype_of b)) (dtype_of a) then
    v <- np_inplace Qcmult (array_of a) (array_of b) ;;
    Ok (mk_typed (dtype_of a) v)
  else Raise (TypeError cannot_cast).

(** [w.reshape(1, -1)] on a typed array. *)
Definition typed_reshape_row (w : typed_array) : typed_array :=
  mk_typed (dtype_of w) (reshape_row (array_of w)).

Section CoreConsistencyTyped.

Variable svd : ndarray -> result svd_triple.

Definition core_consistency_typed (cp : typed_cp_tensor) (X : ndarray)
  (normalised : bool) : result npfloat :=
  let '(weights, factors) := cp in
  factor0 <- match factors with
             | f :: _ => Ok f
             | [] => Raise (IndexError "tuple index out of range")
             end ;;
  rank <- shape_at (array_of factor0) 1 ;;
  let A := factor0 in
  A <- match weights with
       | Some w => np_imul A (typed_reshape_row w)
       | None => Ok A
       end ;;
  let factors := A :: tl factors in
  G <- estimate_core_tensor svd (map array_of factors) X ;;
  let T := np_zeros (repeat rank (ndim X)) in
  T <- fill_diagonal T 1%Qc ;;
  let denom := if normalised then np_sum (np_square G) else Qc_of_nat rank in
  D <- np_binop Qcminus G T ;;
  Ok (np_rsub (Q2Qc 100) (np_div (Q2Qc 100 * np_sum (np_square D))%Qc denom)).

End CoreConsistencyTyped.

(** The arrays of a typed CP tensor, without their types. *)
Definition values_of (cp : typed_cp_tensor) : cp_tensor :=
  (option_map array_of (fst cp), map array_of (snd cp)).

(** *** Reconstruction error *)

Section Reconstruction.

(** [factor_tools.construct_cp_tensor]. *)
Variable construct_cp_tensor : cp_tensor -> result ndarray.

Definition sse (cp : cp_tensor) (X : ndarray) : result Qc :=
  X_hat <- construct_cp_tensor cp ;;
  D <- np_binop Qcminus X X_hat ;;
  Ok (np_sum (np_square D)).

Definition relative_sse (cp : cp_tensor) (X : ndarray) (sum_squared_X : option Qc)
  : result npfloat :=
  let sum_squared_x := np_sum (np_square X) in
  e <- sse cp X ;;
  Ok (np_div e sum_squared_x).

Definition fit (cp : cp_tensor) (X : ndarray) (sum_squared_X : option Qc)
  : result npfloat :=
  r <- relative_sse cp X sum_squared_X ;;
  Ok (np_rsub 1%Qc r).

End Reconstruction.

(** *** Classification accuracy *)

(** A classifier object: its state [S], and the three methods the function
    calls, each of which may raise and may change the object. *)
Class Classifier (S L : Type) : Type := {
  clf_fit : S -> ndarray -> L -> result S;
  clf_score : S -> ndarray -> L -> result (Qc * S);
  clf_predict : S -> ndarray -> result (L * S)
}.

Definition classification_accuracy {S L : Type} `{Classifier S L}
  (factor_matrix : ndarray) (labels : L) (classifier : S)
  (metric : option (L -> L -> result Qc)) : result (Qc * S) :=
  classifier <- clf_fit classifier factor_matrix labels ;;
  match metric with
  | None => clf_score classifier factor_matrix labels
  | Some metric =>
      '(predicted, classifier) <- clf_predict classifier factor_matrix ;;
      v <- metric labels predicted ;;
      Ok (v, classifier)
  end.

(** *** Percentage variation *)

(** [bool(weights)], the test of [if weights:]: [None] is false, an array of
    one entry is true when the entry is not zero, and the truth value of a
    longer array is refused.  So is the truth value of an empty array, by numpy
    2.2 and later; earlier releases gave false with a deprecation warning. *)
Definition truth_value (weights : option ndarray) : result bool :=
  match weights with
  | None => Ok false
  | Some w =>
      match data w with
      | [] => Raise (ValueError "The truth value of an empty array is ambiguous")
      | [x] => Ok (negb (Qc_eqb x 0))
      | _ => Raise (ValueError
               "The truth value of an array with more than one element is ambiguous. Use a.any() or a.all()")
      end
  end.

Inductive variation : Type :=
| Fractions (v : list npfloat)
| Both (by_data by_model : list npfloat).

Definition dataset_required : string :=
  "The dataset must be provided if ``method='data'``".
Definition method_invalid : string :=
  "Method must be either 'data', 'model' or 'both".

Definition percentage_variation (cp : cp_tensor) (X : option ndarray) (method : string)
  : result variation :=
  let '(weights, factor_matrices) := cp in
  factor0 <- match factor_matrices with
             | f :: _ => Ok f
             | [] => Raise (IndexError "tuple index out of range")
             end ;;
  rank <- shape_at factor0 1 ;;
  truth <- truth_value weights ;;
  temp <- (if truth then
             match weights with
             | Some w =>
                 column <- np_reshape w [rank; 1] ;;
                 row <- unbound_name "weight" ;;
                 matmul column row
             | None => Raise (AttributeError "'NoneType' object has no attribute 'reshape'")
             end
           else np_ones [rank] (dtype_int rank)) ;;
  temp <- for_each factor_matrices
            (fun temp factor_matrix =>
               gram <- matmul (transpose factor_matrix) factor_matrix ;;
               np_inplace Qcmult temp gram) temp ;;
  diagonal <- np_diagonal temp ;;
  let ssc := np_abs diagonal in
  if String.eqb method "data" then
    match X with
    | None => Raise (TypeError dataset_required)
    | Some X => Ok (Fractions (np_div_scalar ssc (np_sum (np_square X))))
    end
  else if String.eqb method "model" then
    Ok (Fractions (np_div_scalar ssc (Qc_abs (np_sum temp))))
  else if String.eqb method "both" then
    match X with
    | None =>
        Raise (TypeError "unsupported operand type(s) for ** or pow(): 'NoneType' and 'int'")
    | Some X =>
        Ok (Both (np_div_scalar ssc (np_sum (np_square X)))
              (np_div_scalar ssc (Qc_abs (np_sum temp))))
    end
  else Raise (ValueError method_invalid).

(** ** What the specification says, in its words *)

(** Contraction of [X] along mode [n] with the matrix [M] (R rows, K columns):
    entry [(.., r, ..)] is the sum over [k] of [M[r, k] * X[.., k, ..]]. *)
Definition mode_product (n : nat) (M X : ndarray) : ndarray :=
  let R := nth 0 (shape M) 0 in
  let K := nth 1 (shape M) 0 in
  tabulate (replace_at n R (shape X))
    (fun idx =>
       sum_range K (fun k => get M [nth n idx 0%nat; k] * get X (replace_at n k idx))%Qc).

(** Scaling of [X] along mode [n] by the vector [v]. *)
Definition mode_scale (n : nat) (v X : ndarray) : ndarray :=
  tabulate (shape X) (fun idx => (get v [nth n idx 0%nat] * get X idx)%Qc).

(** The elementwise pseudo-inverse: zero stays zero, every other entry is
    inverted. *)
Definition pinv (s : ndarray) : ndarray :=
  mk_ndarray (shape s) (map (fun x => if Qc_eqb x 0 then 0%Qc else (/ x)%Qc) (data s)).

(** One operation per mode, the matrix or vector of mode [n] applied along
    mode [n]. *)
Definition apply_modes (op : nat -> ndarray -> ndarray -> ndarray)
  (Ms : list ndarray) (X : ndarray) : ndarray :=
  fold_right (fun nM Y => op (fst nM) (snd nM) Y) X (combine (seq 0 (length Ms)) Ms).

Definition apply_mode (op : nat -> ndarray -> ndarray -> ndarray)
  (nM : nat * ndarray) (Y : ndarray) : ndarray :=
  op (fst nM) (snd nM) Y.

(** The same, the modes taken in increasing order. *)
Definition apply_modes_up (op : nat -> ndarray -> ndarray -> ndarray)
  (Ms : list ndarray) (X : ndarray) : ndarray :=
  fold_left (fun Y nM => op (fst nM) (snd nM) Y) (combine (seq 0 (length Ms)) Ms) X.

(** The core as section 4.1 describes it: contract every mode with [U^T], scale
    every mode by the pseudo-inverse of [s], contract every mode with [Vh^T];
    the modes from the last to the first. *)
Definition core_by_modes (svds : list svd_triple) (X : ndarray) : ndarray :=
  let X1 := apply_modes mode_product (map (fun t => transpose (svd_U t)) svds) X in
  let X2 := apply_modes mode_scale (map (fun t => pinv (svd_s t)) svds) X1 in
  apply_modes mode_product (map (fun t => transpose (svd_Vh t)) svds) X2.

(** The same, the modes from the first to the last. *)
Definition core_by_modes_up (svds : list svd_triple) (X : ndarray) : ndarray :=
  let X1 := apply_modes_up mode_product (map (fun t => transpose (svd_U t)) svds) X in
  let X2 := apply_modes_up mode_scale (map (fun t => pinv (svd_s t)) svds) X1 in
  apply_modes_up mode_product (map (fun t => transpose (svd_Vh t)) svds) X2.

(** The shapes of a reduced decomposition of an [m] by [R] matrix: [U] is [m]
    by [K], [s] has [K] entries and [Vh] is [K] by [R], for [K = min m R]. *)
Definition reduced_svd (A : ndarray) (t : svd_triple) : Prop :=
  let K := Nat.min (nrows A) (ncols A) in
  shape A = [nrows A; ncols A] /\
  shape (svd_U t) = [nrows A; K] /\
  shape (svd_s t) = [K] /\
  shape (svd_Vh t) = [K; ncols A].

(** Column [r] of the first factor matrix multiplied by weight [r]; the matrix
    as it is when there are no weights. *)
Definition scale_columns (weights : option ndarray) (A : ndarray) : ndarray :=
  match weights with
  | Some w =>
      tabulate (shape A)
        (fun idx => (get A idx * nth (nth 1 idx 0%nat) (data w) 0)%Qc)
  | None => A
  end.

(** The ideal core: ones where all indices are equal, zeros elsewhere. *)
Definition superdiagonal (R N : nat) : ndarray :=
  tabulate (repeat R N) (fun idx => if all_same idx then 1%Qc else 0%Qc).

(** The sum of the squares of the entries. *)
Definition sum_sq (G : ndarray) : Qc := sumQc (map (fun x => (x ^ 2)%Qc) (data G)).

(** The sum over all indices of [(G - I)^2]. *)
Definition sum_sq_diff (G I : ndarray) : Qc :=
  sumQc (map (fun idx => ((get G idx - get I idx) ^ 2)%Qc) (indices (shape G))).

(** [100 - 100 * sum((G - I)^2) / denom], with [I] superdiagonal. *)
Definition core_consistency_value (G : ndarray) (R N : nat) (normalised : bool)
  : npfloat :=
  let denom := if normalised then sum_sq G else Qc_of_nat R in
  np_rsub (Q2Qc 100) (np_div (Q2Qc 100 * sum_sq_diff G (superdiagonal R N))%Qc denom).

(** Modelled from the spec: [construct_cp_tensor] of [factor_tools], which the
    module imports and whose source is not at hand.  Section 4.3: the dense
    tensor reconstructed from the CP factors and weights, the sum over the
    components of the weighted outer products of the factor columns. *)
Definition dense_from_cp (cp : cp_tensor) : result ndarray :=
  let '(weights, factors) := cp in
  let R := match factors with A :: _ => ncols A | [] => 0 end in
  Ok (tabulate (map nrows factors)
        (fun idx =>
           sum_range R
             (fun r =>
                fold_right Qcmult
                  (match weights with Some w => nth r (data w) 0%Qc | None => 1%Qc end)
                  (map (fun Ai => get (fst Ai) [snd Ai; r]) (combine factors idx))))).

(** ** Object identity: which arrays a call writes

    numpy arrays are mutable objects, and the module updates three of them in
    place: [A *= ...], [s_pinv[mask] = ...] and [np.fill_diagonal(T, 1)].  In
    this section an array is a reference into a store, a call that builds an
    array allocates a new reference, and an update in place writes to the
    reference it is applied to. *)

Module Store.

Definition ref : Type := nat.
Definition store : Type := list ndarray.

Definition no_array : ndarray := mk_ndarray [] [].

(** A computation on the store: its outcome and the store it leaves. *)
Definition M (A : Type) : Type := store -> result A * store.

Definition ret {A : Type} (a : A) : M A := fun st => (Ok a, st).

Definition mbind {A B : Type} (c : M A) (k : A -> M B) : M B :=
  fun st =>
    match c st with
    | (Ok a, st') => k a st'
    | (Raise e, st') => (Raise e, st')
    end.

(** A computation that touches no array. *)
Definition lift {A : Type} (c : result A) : M A := fun st => (c, st).

(** A new array object. *)
Definition alloc (v : ndarray) : M ref := fun st => (Ok (length st), st ++ [v]).

(** The present value of an array object. *)
Definition read (r : ref) : M ndarray := fun st => (Ok (nth r st no_array), st).

(** An update of an array object in place. *)
Definition write (r : ref) (v : ndarray) : M unit :=
  fun st => (Ok tt, replace_at r v st).

Notation "x <~ c ;; k" := (mbind c (fun x => k))
  (at level 61, c at next level, right associativity).

Fixpoint st_map {A B : Type} (f : A -> M B) (l : list A) : M (list B) :=
  match l with
  | [] => ret []
  | x :: l' => y <~ f x ;; ys <~ st_map f l' ;; ret (y :: ys)
  end.

Fixpoint st_for_each {A B : Type} (xs : list A) (body : B -> A -> M B) (acc : B)
  : M B :=
  match xs with
  | [] => ret acc
  | x :: xs' => acc' <~ body acc x ;; st_for_each xs' body acc'
  end.

Section Program.

Variable svd : ndarray -> result svd_triple.

(** [sla.svd(factor, full_matrices=False)]: reads its argument (it is not
    asked to overwrite it) and returns three new arrays. *)
Definition svd_call (factor : ref) : M (ref * ref * ref) :=
  a <~ read factor ;;
  t <~ lift (svd a) ;;
  U <~ alloc (svd_U t) ;;
  s <~ alloc (svd_s t) ;;
  Vh <~ alloc (svd_Vh t) ;;
  ret (U, s, Vh).

(** [np.tensordot(a, X, (1, X.ndim - 1))]: a new array. *)
Definition tensordot_call (a : ndarray) (X : ref) : M ref :=
  x <~ read X ;;
  r <~ lift (tensordot_last a x) ;;
  alloc r.

Definition call_estimate_core_tensor (factors : list ref) (X : ref) : M ref :=
  svds <~ st_map svd_call factors ;;
  X <~ st_for_each (rev svds)
         (fun X t =>
            u <~ read (fst (fst t)) ;;
            tensordot_call (transpose u) X) X ;;
  X <~ st_for_each (rev svds)
         (fun X t =>
            s <~ read (snd (fst t)) ;;
            s_pinv <~ alloc s ;;
            v <~ read s_pinv ;;
            let mask := ne_zero_mask v in
            let selected := boolean_index (data v) mask in
            let inverted := reciprocal selected in
            v <~ read s_pinv ;;
            _ <~ write s_pinv
                   (mk_ndarray (shape v) (masked_assign (data v) mask inverted)) ;;
            v <~ read s_pinv ;;
            d <~ lift (np_diag v) ;;
            D <~ alloc d ;;
            d <~ read D ;;
            tensordot_call d X) X ;;
  X <~ st_for_each (rev svds)
         (fun X t =>
            vh <~ read (snd t) ;;
            tensordot_call (transpose vh) X) X ;;
  x <~ read X ;;
  match shape x with
  | [] => alloc (ascontiguousarray x)
  | _ => ret X
  end.

Definition call_core_consistency (cp : option ref * list ref) (X : ref)
  (normalised : bool) : M npfloat :=
  let '(weights, factors) := cp in
  factor0 <~ lift (match factors with
                   | f :: _ => Ok f
                   | [] => Raise (IndexError "tuple index out of range")
                   end) ;;
  a <~ read factor0 ;;
  rank <~ lift (shape_at a 1) ;;
  A <~ alloc a ;;
  _ <~ match weights with
       | Some w =>
           wv <~ read w ;;
           a <~ read A ;;
           scaled <~ lift (np_inplace Qcmult a (reshape_row wv)) ;;
           write A scaled
       | None => ret tt
       end ;;
  let factors := A :: tl factors in
  G <~ call_estimate_core_tensor factors X ;;
  x <~ read X ;;
  T <~ alloc (np_zeros (repeat rank (ndim x))) ;;
  t <~ read T ;;
  filled <~ lift (fill_diagonal t 1%Qc) ;;
  _ <~ write T filled ;;
  g <~ read G ;;
  t <~ read T ;;
  let denom := if normalised then np_sum (np_square g) else Qc_of_nat rank in
  D <~ lift (np_binop Qcminus g t) ;;
  ret (np_rsub (Q2Qc 100) (np_div (Q2Qc 100 * np_sum (np_square D))%Qc denom)).

End Program.

(** [points st r v]: the array object [r] of the store holds [v]. *)
Definition points (st : store) (r : ref) (v : ndarray) : Prop :=
  nth_error st r = Some v.

(** [sim_from base out p R]: the outcome [out] of a computation started from
    a store that extends [base] leaves [base] as it was, raises exactly when
    the value-level computation [p] raises, with the same exception, and
    otherwise returns a result related to that of [p] by [R]. *)
Definition sim_from {A B : Type} (base : store) (out : result A * store)
  (p : result B) (R : A -> B -> store -> Prop) : Prop :=
  exists locals,
    snd out = base ++ locals /\
    match fst out, p with
    | Ok a, Ok b => R a b (snd out)
    | Raise e, Raise e' => e = e'
    | _, _ => False
    end.

Definition triple_points (t : ref * ref * ref) (tv : svd_triple) (st : store)
  : Prop :=
  points st (fst (fst t)) (svd_U tv) /\
  points st (snd (fst t)) (svd_s tv) /\
  points st (snd t) (svd_Vh tv).

Definition points_rel (r : ref) (v : ndarray) (st : store) : Prop := points st r v.

Definition same_value {A : Type} (a b : A) (st : store) : Prop := a = b.

Definition weights_at (st : store) (weights : option ref) (wv : option ndarray)
  : Prop :=
  match weights, wv with
  | Some w, Some v => points st w v
  | None, None => True
  | _, _ => False
  end.

(** What the copy of the first factor matrix holds once the weights are
    distributed. *)
Definition copy_value (wv : option ndarray) (a0 : ndarray) : ndarray :=
  match wv with
  | Some w =>
      match np_inplace Qcmult a0 (reshape_row w) with
      | Ok scaled => scaled
      | Raise _ => a0
      end
  | None => a0
  end.

End Store.

(** ** Auxiliary definitions of the proofs *)

(** The operation of mode [fst nM] with operand [snd nM] is well-formed on
    [Y]: the mode exists and the operand fits the length of its axis. *)
Definition well_formed (fits : ndarray -> nat -> Prop) (nM : nat * ndarray)
  (Y : ndarray) : Prop :=
  fst nM < ndim Y /\ fits (snd nM) (nth (fst nM) (shape Y) 0).

Definition all_well_formed (fits : ndarray -> nat -> Prop)
  (l : list (nat * ndarray)) (Y : ndarray) : Prop :=
  NoDup (map fst l) /\ Forall (fun nM => well_formed fits nM Y) l.

(** [M] contracts an axis of length [K]. *)
Definition contracts (M : ndarray) (K : nat) : Prop := exists R, shape M = [R; K].

(** Each pass of a contraction loop contracts the last axis of [X] and puts
    the new axis first, so after [j] passes the axes are turned by [j] places:
    [X] has the processed axes [Rs] in front of the remaining ones [Is], where
    the mode-wise result [Y] has them behind. *)
Definition rotated (Rs Is : list nat) (X Y : ndarray) : Prop :=
  shape X = Rs ++ Is /\ shape Y = Is ++ Rs /\ dense X /\ dense Y /\
  forall a b, in_bounds Is a -> in_bounds Rs b -> get X (b ++ a) = get Y (a ++ b).

(** [M] contracts an axis of length [K] into one of length [R], for
    [KR = (K, R)]. *)
Definition matrix_of_dims (M : ndarray) (KR : nat * nat) : Prop :=
  shape M = [snd KR; fst KR].

(** The matrix [np.diag] builds from a vector of [K] entries. *)
Definition diag_matrix (K : nat) (v : ndarray) : ndarray :=
  tabulate [K; K]
    (fun idx =>
       match idx with
       | [i; j] => if i =? j then get v [i] else 0%Qc
       | _ => 0%Qc
       end).

Definition vector_length (v : ndarray) : nat := nth 0 (shape v) 0.

(** [geom R n] is [1 + R + ... + R^(n-1)]. *)
Fixpoint geom (R n : nat) : nat :=
  match n with
  | 0 => 0
  | S n' => 1 + R * geom R n'
  end.

(** Every path through the construction of the initial cross-product matrix
    raises: the factors are missing or not matrices, the truth value of the
    weights is ambiguous, the weights cannot be reshaped, the name [weight] is
    unbound, or [np.ones] is given the rank as its dtype. *)
Inductive construction_error : exn -> Prop :=
| no_factor : construction_error (IndexError "tuple index out of range")
| ambiguous_weights :
    construction_error
      (ValueError "The truth value of an array with more than one element is ambiguous. Use a.any() or a.all()")
| empty_weights :
    construction_error (ValueError "The truth value of an empty array is ambiguous")
| weights_not_rank : construction_error (ValueError "cannot reshape array")
| weight_unbound : construction_error (NameError "name 'weight' is not defined")
| rank_as_dtype : construction_error (TypeError not_a_dtype).

(** *** Notions for the further properties *)

(** [a * X + b * Y] for two arrays of one shape. *)
Definition lincomb (a : Qc) (X : ndarray) (b : Qc) (Y : ndarray) : ndarray :=
  tabulate (shape X) (fun idx => (a * get X idx + b * get Y idx)%Qc).

(** [v] is not greater than [c]: a finite value at most [c], minus infinity,
    or NaN. *)
Definition not_above (c : Qc) (v : npfloat) : Prop :=
  match v with
  | Fin q => (q <= c)%Qc
  | PInf => False
  | NInf | NaN => True
  end.



(** The Kronecker delta. *)
Definition delta (i j : nat) : Qc := if i =? j then 1%Qc else 0%Qc.

(** One matrix per mode, each as a function of a row and a column. *)
Definition mode_family : Type := nat -> nat -> nat -> Qc.

(** The family [Cs] with the matrix of mode [n] replaced by [C]. *)
Definition upd (Cs : mode_family) (n : nat) (C : nat -> nat -> Qc) : mode_family :=
  fun n' => if n' =? n then C else Cs n'.

(** The product over the modes [n < N] of the entries [(idx[n], r)]. *)
Definition prod_modes (N : nat) (Cs : mode_family) (idx : list nat) (r : nat) : Qc :=
  fold_right Qcmult 1%Qc (map (fun n => Cs n (nth n idx 0) r) (seq 0 N)).

(** [Y] is the sum over [r < R] of the outer products of the columns [r] of
    the matrices [Cs]. *)
Definition cp_form (R : nat) (Cs : mode_family) (Y : ndarray) : Prop :=
  dense Y /\
  forall idx, in_bounds (shape Y) idx ->
              get Y idx = sum_range R (fun r => prod_modes (ndim Y) Cs idx r).

(** The matrix product of [M] with a matrix given as a function. *)
Definition apply_matrix (M : ndarray) (C : nat -> nat -> Qc) : nat -> nat -> Qc :=
  fun i r => sum_range (ncols M) (fun k => (get M [i; k] * C k r)%Qc).

(** The matrices of a list, as a family. *)
Definition family_of (Ms : list ndarray) : mode_family :=
  fun n i r => get (nth n Ms (mk_ndarray [] [])) [i; r].

(** [t] is a singular value decomposition of [A], and [A] has full column
    rank: [A = U diag(s) Vh] with orthonormal columns in [U] and in [Vh], and
    no singular value is zero. *)
Definition full_rank_svd (A : ndarray) (t : svd_triple) : Prop :=
  let m := nrows A in
  let R := ncols A in
  let K := Nat.min m R in
  reduced_svd A t /\
  (forall i r, i < m -> r < R ->
     get A [i; r]
     = sum_range K (fun k => (get (svd_U t) [i; k] * get (svd_s t) [k]
                              * get (svd_Vh t) [k; r])%Qc)) /\
  (forall k k', k < K -> k' < K ->
     sum_range m (fun i => (get (svd_U t) [i; k] * get (svd_U t) [i; k'])%Qc)
     = delta k k') /\
  (forall r r', r < R -> r' < R ->
     sum_range K (fun k => (get (svd_Vh t) [k; r] * get (svd_Vh t) [k; r'])%Qc)
     = delta r r') /\
  (forall k, k < K -> get (svd_s t) [k] <> 0%Qc).

(** The family after every mode [n] below the length of [Ms] is contracted
    with the matrix [n] of [Ms]. *)
Definition swept (Ms : list ndarray) (Cs : mode_family) : mode_family :=
  fun n =>
    if n <? length Ms then apply_matrix (nth n Ms (mk_ndarray [] [])) (Cs n)
    else Cs n.

(** The product of the matrices [C] and [B]. *)
Definition mat_compose (C B : ndarray) : ndarray :=
  tabulate [nrows C; ncols B]
    (fun idx =>
       match idx with
       | [r; i] => sum_range (ncols C) (fun k => (get C [r; k] * get B [k; i])%Qc)
       | _ => 0%Qc
       end).

(** The pseudo-inverse a decomposition [(U, s, Vh)] gives:
    [Vh^T diag(s^+) U^T], where [s^+] inverts the non-zero entries of [s]. *)
Definition pinv_matrix (t : svd_triple) : ndarray :=
  tabulate [ncols (svd_Vh t); nrows (svd_U t)]
    (fun idx =>
       match idx with
       | [r; i] =>
           sum_range (vector_length (svd_s t))
             (fun k => (get (svd_Vh t) [k; r] * get (pinv (svd_s t)) [k]
                        * get (svd_U t) [i; k])%Qc)
       | _ => 0%Qc
       end).

(** [C] after [B] along an axis of length [I]: [B] is [K] by [I] and [C] is
    [R] by [K], for [IKR = (I, K, R)]. *)
Definition composable (CB : ndarray * ndarray) (IKR : nat * nat * nat) : Prop :=
  shape (snd CB) = [snd (fst IKR); fst (fst IKR)] /\
  shape (fst CB) = [snd IKR; snd (fst IKR)].

(** Two axis lengths that cannot be broadcast against each other. *)
Definition incompatible (p : nat * nat) : Prop :=
  fst p <> snd p /\ fst p <> 1 /\ snd p <> 1.

(** ** A decomposition procedure to run the definitions on

    [svd_of_diagonal] returns, for an [m] by [R] matrix, the identity-like
    [U] and [Vh] and the diagonal of the matrix as [s]: the reduced singular
    value decomposition of every rectangular diagonal matrix whose diagonal
    is non-negative and non-increasing. *)

Definition eye (m n : nat) : ndarray :=
  tabulate [m; n]
    (fun idx => match idx with [i; j] => if i =? j then 1%Qc else 0%Qc | _ => 0%Qc end).

Definition svd_of_diagonal (A : ndarray) : result svd_triple :=
  match shape A with
  | [m; R] =>
      let K := Nat.min m R in
      Ok (eye m K,
          tabulate [K] (fun idx => match idx with [i] => get A [i; i] | _ => 0%Qc end),
          eye K R)
  | _ => Raise (ValueError "expected matrix")
  end.

Definition qz (z : Z) : Qc := Q2Qc (inject_Z z).
Definition matrix (m n : nat) (l : list Z) : ndarray := mk_ndarray [m; n] (map qz l).

Definition vector (l : list Z) : ndarray := mk_ndarray [length l] (map qz l).
Definition tensor (sh : list nat) (l : list Z) : ndarray := mk_ndarray sh (map qz l).

(** A classifier that learns the most frequent label and predicts it for
    every row; its score is the fraction of rows it labels correctly. *)
Definition count_label (x : nat) (l : list nat) : nat := count_occ Nat.eq_dec l x.

Definition most_frequent (l : list nat) : nat :=
  fold_right (fun x best => if count_label best l <? count_label x l then x else best)
    (hd 0 l) l.

Definition not_fitted : exn := ValueError "This classifier instance is not fitted yet".

#[export] Instance majority_classifier : Classifier (option nat) (list nat) := {
  clf_fit := fun _ X y =>
    if length y =? nrows X then Ok (Some (most_frequent y))
    else Raise (ValueError "Found input variables with inconsistent numbers of samples");
  clf_score := fun st X y =>
    match st with
    | Some c =>
        Ok (Q2Qc (Z.of_nat (count_label c y) # Pos.of_nat (length y)), st)
    | None => Raise not_fitted
    end;
  clf_predict := fun st X =>
    match st with
    | Some c => Ok (repeat c (nrows X), st)
    | None => Raise not_fitted
    end
}.

(** The fraction of positions at which two label vectors agree. *)
Definition accuracy_metric (y_true y_pred : list nat) : result Qc :=
  if length y_true =? length y_pred then
    Ok (Q2Qc (Z.of_nat (length (filter (fun p => fst p =? snd p) (combine y_true y_pred)))
              # Pos.of_nat (length y_true)))
  else Raise (ValueError "Found input variables with inconsistent numbers of samples").

(** A rank-one model of two modes, the tensor it reconstructs and one it
    does not. *)
Definition cp_rank1 : cp_tensor := (None, [matrix 2 1 [1; 0]%Z; matrix 2 1 [1; 0]%Z]).
Definition X_exact : ndarray := tensor [2; 2] [1; 0; 0; 0]%Z.
Definition X_off : ndarray := tensor [2; 2] [1; 1; 0; 0]%Z.

Definition A_diag : ndarray := matrix 2 2 [2; 0; 0; 1]%Z.
Definition A_sing : ndarray := matrix 2 2 [2; 0; 0; 0]%Z.
Definition X_cube : ndarray := tensor [2; 2; 2] [8; 0; 0; 0; 0; 0; 0; 1]%Z.
Definition X_null : ndarray := tensor [2; 2] [0; 0; 0; 0]%Z.
Definition w_ex : ndarray := vector [2; 3]%Z.

Definition svds_of (factors : list ndarray) : list svd_triple :=
  match map_result svd_of_diagonal factors with
  | Ok svds => svds
  | Raise _ => []
  end.

Definition caller_store : Store.store := [w_ex; A_diag; A_diag; A_sing; X_cube].

(** Weights that are not integers. *)
Definition w_half : ndarray := mk_ndarray [2] [Q2Qc (1 # 2); Q2Qc (3 # 2)].

(** A data tensor whose second axis is longer than [A_diag] has rows. *)
Definition X_wide : ndarray := tensor [2; 3] [1; 0; 2; 0; 1; 0]%Z.

(** A model whose first factor matrix has a single row, and the tensor it
    describes. *)
Definition cp_row : cp_tensor := (None, [matrix 1 1 [1]%Z; matrix 2 1 [1; 0]%Z]).
Definition X_hat_row : ndarray := tensor [1; 2] [1; 0]%Z.

(** The tensor of the model with the weights [w_ex] and three factors
    [A_diag]. *)
Definition X_weighted : ndarray := tensor [2; 2; 2] [16; 0; 0; 0; 0; 0; 0; 3]%Z.

(** A factor matrix of three columns. *)
Definition A_three : ndarray := matrix 2 3 [1; 0; 0; 0; 1; 0]%Z.

(** * Part II: lemmas and theorems *)

(** ** Indices and offsets *)

Lemma in_bounds_length sh idx : in_bounds sh idx -> length idx = length sh.
Proof. apply Forall2_length. Qed.

Lemma in_bounds_app sh1 sh2 i1 i2 :
  in_bounds sh1 i1 -> in_bounds sh2 i2 -> in_bounds (sh1 ++ sh2) (i1 ++ i2).
Proof. apply Forall2_app. Qed.

Lemma size_of_app sh1 sh2 : size_of (sh1 ++ sh2) = size_of sh1 * size_of sh2.
Proof.
  induction sh1 as [|d sh1 IH]; simpl; [lia|]. rewrite IH; lia.
Qed.

Lemma indices_length sh : length (indices sh) = size_of sh.
Proof.
  induction sh as [|d sh IH]; simpl; [reflexivity|].
  generalize 0 as s. induction d as [|d IHd]; intros s; simpl; [reflexivity|].
  rewrite length_app, length_map, IH, IHd. reflexivity.
Qed.

Lemma ravel_lt sh idx : in_bounds sh idx -> ravel sh idx < size_of sh.
Proof.
  revert idx; induction sh as [|d sh IH]; intros idx H;
    inversion H as [|i d' idx' sh' Hi Hb]; subst; simpl.
  - lia.
  - specialize (IH _ Hb). nia.
Qed.

Lemma nth_flat_map_uniform {A B : Type} (f : nat -> list B) (n : nat) (dflt : B) :
  (forall k, length (f k) = n) ->
  forall d s i j, i < d -> j < n ->
    nth (i * n + j) (flat_map f (seq s d)) dflt = nth j (f (s + i)) dflt.
Proof.
  intros Hlen. induction d as [|d IH]; intros s i j Hi Hj; [lia|].
  simpl. destruct i as [|i].
  - rewrite app_nth1 by (rewrite Hlen; simpl; lia).
    simpl. rewrite Nat.add_0_r. reflexivity.
  - rewrite app_nth2 by (rewrite Hlen; simpl; lia).
    rewrite Hlen. replace (S i * n + j - n) with (i * n + j) by (simpl; lia).
    rewrite IH by lia. f_equal. f_equal. lia.
Qed.

Lemma nth_indices_ravel sh idx dflt :
  in_bounds sh idx -> nth (ravel sh idx) (indices sh) dflt = idx.
Proof.
  revert idx; induction sh as [|d sh IH]; intros idx H;
    inversion H as [|i d' idx' sh' Hi Hb]; subst; simpl.
  - reflexivity.
  - pose proof (ravel_lt Hb) as Hlt. specialize (IH _ Hb).
    rewrite (@nth_flat_map_uniform nat _ _ (size_of sh)); try assumption.
    + simpl. rewrite nth_indep with (d' := cons i dflt)
        by (rewrite length_map, indices_length; assumption).
      rewrite map_nth. rewrite IH. reflexivity.
    + intros k. rewrite length_map. apply indices_length.
Qed.

Lemma indices_in_bounds sh idx : In idx (indices sh) <-> in_bounds sh idx.
Proof.
  revert idx; induction sh as [|d sh IH]; intros idx; simpl.
  - split.
    + intros [<-|[]]. constructor.
    + inversion 1. left; reflexivity.
  - rewrite in_flat_map. split.
    + intros (i & Hi & Hin). apply in_map_iff in Hin as (idx' & <- & Hin').
      apply in_seq in Hi. constructor; [lia | apply IH; assumption].
    + inversion 1 as [|i d' idx' sh' Hi Hb]; subst. exists i.
      split; [apply in_seq; lia|]. apply in_map, IH. assumption.
Qed.

(** Every offset below the size is the offset of an in-bounds index. *)
Lemma unravel sh p :
  p < size_of sh ->
  in_bounds sh (nth p (indices sh) []) /\ ravel sh (nth p (indices sh) []) = p.
Proof.
  intros Hp.
  assert (Hin : In (nth p (indices sh) []) (indices sh))
    by (apply nth_In; rewrite indices_length; assumption).
  apply indices_in_bounds in Hin. split; [assumption|].
  pose proof (nth_indices_ravel [] Hin) as Hnth.
  pose proof (ravel_lt Hin) as Hlt.
  assert (Hnd : NoDup (indices sh)).
  { clear. induction sh as [|d sh IH]; simpl.
    - repeat constructor. intros [].
    - generalize 0 as s. induction d as [|d IHd]; intros s; simpl; [constructor|].
      apply NoDup_app.
      + apply Finite.Injective_map_NoDup; [|assumption].
        intros a b Hab; inversion Hab; reflexivity.
      + apply IHd.
      + intros idx Hin1 Hin2. apply in_map_iff in Hin1 as (t & <- & _).
        apply in_flat_map in Hin2 as (i & Hi & Hin2).
        apply in_map_iff in Hin2 as (t' & Heq & _). inversion Heq; subst.
        apply in_seq in Hi. lia. }
  rewrite NoDup_nth in Hnd.
  apply Hnd; [rewrite indices_length; assumption .. | exact Hnth].
Qed.

Lemma get_tabulate sh f idx :
  in_bounds sh idx -> get (tabulate sh f) idx = f idx.
Proof.
  intros H. unfold get, tabulate; simpl.
  rewrite nth_indep with (d' := f [])
    by (rewrite length_map, indices_length; apply ravel_lt; assumption).
  rewrite map_nth, nth_indices_ravel by assumption. reflexivity.
Qed.

Lemma dense_tabulate sh f : dense (tabulate sh f).
Proof. unfold dense, tabulate; simpl. rewrite length_map. apply indices_length. Qed.

Lemma shape_tabulate sh f : shape (tabulate sh f) = sh.
Proof. reflexivity. Qed.

(** Two dense arrays of one shape with the same entries are the same array. *)
Lemma ndarray_ext (a b : ndarray) :
  dense a -> dense b -> shape a = shape b ->
  (forall idx, in_bounds (shape a) idx -> get a idx = get b idx) ->
  a = b.
Proof.
  destruct a as [sa da], b as [sb db]; unfold dense, get; simpl.
  intros Ha Hb <- Hget. f_equal.
  apply nth_ext with (d := 0%Qc) (d' := 0%Qc); [congruence|].
  intros p Hp. rewrite Ha in Hp. destruct (unravel _ Hp) as [Hin Hr].
  specialize (Hget _ Hin). rewrite Hr in Hget. exact Hget.
Qed.

Lemma tabulate_ext sh f g :
  (forall idx, in_bounds sh idx -> f idx = g idx) -> tabulate sh f = tabulate sh g.
Proof.
  intros H. unfold tabulate. f_equal. apply map_ext_in.
  intros idx Hin. apply H, indices_in_bounds, Hin.
Qed.


(** ** Sums *)

Lemma sum_range_ext K f g :
  (forall k, k < K -> f k = g k) -> sum_range K f = sum_range K g.
Proof.
  intros H. unfold sum_range. f_equal. apply map_ext_in.
  intros k Hk. apply in_seq in Hk. apply H. lia.
Qed.

Lemma sumQc_app l1 l2 : sumQc (l1 ++ l2) = (sumQc l1 + sumQc l2)%Qc.
Proof.
  induction l1 as [|x l1 IH]; simpl; [ring|]. rewrite IH. ring.
Qed.

Lemma sumQc_zero l : Forall (fun x => x = 0%Qc) l -> sumQc l = 0%Qc.
Proof.
  induction 1 as [|x l Hx _ IH]; simpl; [reflexivity|]. rewrite Hx, IH. ring.
Qed.

(** A sum whose only non-zero term is the one at [r]. *)
Lemma sum_range_single K r f :
  r < K -> (forall k, k < K -> k <> r -> f k = 0%Qc) -> sum_range K f = f r.
Proof.
  intros Hr Hz. unfold sum_range.
  replace (seq 0 K) with (seq 0 r ++ r :: seq (S r) (K - S r)).
  - rewrite map_app, sumQc_app. simpl.
    rewrite !sumQc_zero; [ring | |].
    + apply Forall_forall. intros x Hx. apply in_map_iff in Hx as (k & <- & Hk).
      apply in_seq in Hk. apply Hz; lia.
    + apply Forall_forall. intros x Hx. apply in_map_iff in Hx as (k & <- & Hk).
      apply in_seq in Hk. apply Hz; lia.
  - change (r :: seq (S r) (K - S r)) with (seq r (S (K - S r))).
    replace (seq 0 r ++ seq r (S (K - S r))) with (seq 0 (r + S (K - S r)))
      by apply seq_app.
    f_equal. lia.
Qed.

(** ** Lemmas on the primitives *)

Lemma Qc_eqb_eq x y : Qc_eqb x y = true <-> x = y.
Proof.
  unfold Qc_eqb. rewrite Qeq_bool_iff. split.
  - apply Qc_is_canon.
  - intros ->. reflexivity.
Qed.

Lemma Qc_eqb_refl x : Qc_eqb x x = true.
Proof. apply Qc_eqb_eq. reflexivity. Qed.

Lemma Qc_eqb_neq x y : Qc_eqb x y = false <-> x <> y.
Proof.
  rewrite <- Qc_eqb_eq. destruct (Qc_eqb x y); split; congruence.
Qed.

Lemma replace_at_middle {A : Type} (a b : list A) (x v : A) :
  replace_at (length a) v (a ++ x :: b) = a ++ v :: b.
Proof. induction a as [|y a IH]; simpl; [reflexivity|]. rewrite IH. reflexivity. Qed.

Lemma replace_at_nth {A : Type} n (l : list A) d :
  replace_at n (nth n l d) l = l.
Proof.
  revert n; induction l as [|x l IH]; intros [|n]; simpl; try reflexivity.
  rewrite IH. reflexivity.
Qed.

Lemma replace_at_length {A : Type} n (v : A) l : length (replace_at n v l) = length l.
Proof.
  revert n; induction l as [|x l IH]; intros [|n]; simpl; try reflexivity.
  rewrite IH. reflexivity.
Qed.

Lemma in_bounds_nth sh idx n :
  in_bounds sh idx -> n < length sh -> nth n idx 0 < nth n sh 0.
Proof.
  intros H. revert n. induction H as [|i d idx sh Hi _ IH]; intros [|n] Hn;
    simpl in *; try lia. apply IH. lia.
Qed.

Lemma in_bounds_replace_at sh idx n d i :
  in_bounds sh idx -> i < d -> in_bounds (replace_at n d sh) (replace_at n i idx).
Proof.
  intros H Hi. revert n. induction H as [|j e idx sh Hj Ht IH]; intros [|n]; simpl.
  - constructor.
  - constructor.
  - constructor; assumption.
  - constructor; [assumption | apply IH].
Qed.

Lemma in_bounds_rev sh idx : in_bounds sh idx -> in_bounds (rev sh) (rev idx).
Proof.
  induction 1 as [|i d idx sh Hi _ IH]; simpl; [constructor|].
  apply in_bounds_app; [assumption | repeat constructor; assumption].
Qed.

Lemma shape_transpose2 a m n : shape a = [m; n] -> shape (transpose a) = [n; m].
Proof. intros H. unfold transpose. simpl. rewrite H. reflexivity. Qed.

Lemma tensordot_last_ok a b R K sh :
  shape a = [R; K] -> shape b = sh ++ [K] ->
  tensordot_last a b =
    Ok (tabulate (R :: sh)
          (fun idx =>
             match idx with
             | r :: rest => sum_range K (fun k => get a [r; k] * get b (rest ++ [k]))%Qc
             | [] => 0%Qc
             end)).
Proof.
  intros Ha Hb. unfold tensordot_last. rewrite Ha, Hb, rev_unit, Nat.eqb_refl.
  rewrite rev_involutive. reflexivity.
Qed.

Lemma mode_product_shape n M X R K :
  shape M = [R; K] -> shape (mode_product n M X) = replace_at n R (shape X).
Proof. intros H. unfold mode_product. rewrite H. reflexivity. Qed.

Lemma get_mode_product n M X R K idx :
  shape M = [R; K] -> in_bounds (replace_at n R (shape X)) idx ->
  get (mode_product n M X) idx =
    sum_range K (fun k => get M [nth n idx 0%nat; k] * get X (replace_at n k idx))%Qc.
Proof.
  intros H Hin. unfold mode_product. rewrite H. simpl nth.
  rewrite get_tabulate by assumption. reflexivity.
Qed.

Lemma combine_app_same {A B : Type} (l1 l2 : list A) (m1 m2 : list B) :
  length l1 = length m1 ->
  combine (l1 ++ l2) (m1 ++ m2) = combine l1 m1 ++ combine l2 m2.
Proof.
  revert m1; induction l1 as [|x l1 IH]; intros [|y m1] H; simpl in *;
    try discriminate; [reflexivity|].
  rewrite IH by lia. reflexivity.
Qed.

Lemma apply_modes_snoc op Ms M Y :
  apply_modes op (Ms ++ [M]) Y = apply_modes op Ms (op (length Ms) M Y).
Proof.
  unfold apply_modes. rewrite length_app. simpl length.
  rewrite seq_app. simpl seq.
  rewrite combine_app_same by (rewrite length_seq; reflexivity).
  rewrite fold_right_app. reflexivity.
Qed.

Lemma for_each_map {A B C : Type} (g : A -> B) (body : C -> B -> result C) xs acc :
  for_each (map g xs) body acc = for_each xs (fun acc x => body acc (g x)) acc.
Proof.
  revert acc; induction xs as [|x xs IH]; intros acc; simpl; [reflexivity|].
  destruct (body acc (g x)); simpl; [apply IH | reflexivity].
Qed.

Lemma bind_ok_right {A : Type} (c : result A) : bind c Ok = c.
Proof. destruct c; reflexivity. Qed.

Lemma for_each_ext_in {A B : Type} (f g : B -> A -> result B) xs acc :
  (forall x acc, In x xs -> f acc x = g acc x) ->
  for_each xs f acc = for_each xs g acc.
Proof.
  revert acc; induction xs as [|x xs IH]; intros acc H; simpl; [reflexivity|].
  rewrite H by (left; reflexivity).
  destruct (g acc x); simpl; [|reflexivity].
  apply IH. intros y acc' Hy. apply H. right; assumption.
Qed.

(** ** The contraction loops *)

Lemma rotated_refl X : dense X -> rotated [] (shape X) X X.
Proof.
  intros HX. repeat split; try assumption.
  - rewrite app_nil_r. reflexivity.
  - intros a b _ Hb. inversion Hb. simpl. rewrite app_nil_r. reflexivity.
Qed.

Lemma rotated_step Rs Is K R M X Y X' :
  shape M = [R; K] ->
  rotated Rs (Is ++ [K]) X Y ->
  tensordot_last M X = Ok X' ->
  rotated (R :: Rs) Is X' (mode_product (length Is) M Y).
Proof.
  intros HM (HsX & HsY & HdX & HdY & Hget) Htd.
  rewrite (@tensordot_last_ok M X R K (Rs ++ Is)) in Htd
    by (try assumption; rewrite HsX, app_assoc; reflexivity).
  injection Htd as <-.
  assert (HsY' : shape (mode_product (length Is) M Y) = Is ++ R :: Rs).
  { erewrite mode_product_shape by eassumption. rewrite HsY, <- app_assoc. simpl.
    apply replace_at_middle. }
  repeat split.
  - assumption.
  - apply dense_tabulate.
  - apply dense_tabulate.
  - intros a b Ha Hb. inversion Hb as [|r R' b' Rs' Hr Hb']; subst.
    simpl app. rewrite get_tabulate
      by (constructor; [assumption | apply in_bounds_app; assumption]).
    erewrite get_mode_product; [|eassumption|].
    + replace (length Is) with (length a) by (apply in_bounds_length; assumption).
      rewrite nth_middle. apply sum_range_ext. intros k Hk.
      rewrite replace_at_middle. f_equal.
      rewrite <- app_assoc. rewrite Hget; try assumption.
      * rewrite <- app_assoc. reflexivity.
      * apply in_bounds_app; [assumption | repeat constructor; assumption].
    + rewrite HsY, <- app_assoc. simpl.
      rewrite replace_at_middle.
      apply in_bounds_app; [assumption | constructor; assumption].
Qed.

Lemma rotated_full Rs X Y : rotated Rs [] X Y -> X = Y.
Proof.
  intros (HsX & HsY & HdX & HdY & Hget). rewrite app_nil_r in HsX. simpl in HsY.
  apply ndarray_ext; try assumption; [congruence|].
  intros idx Hin. rewrite HsX in Hin.
  specialize (Hget [] idx (Forall2_nil _) Hin).
  rewrite app_nil_r in Hget. exact Hget.
Qed.

Lemma loop_rotation Ms : forall KRs Rs X Y,
  Forall2 matrix_of_dims Ms KRs ->
  rotated Rs (map fst KRs) X Y ->
  for_each (rev Ms) (fun X M => tensordot_last M X) X
  = Ok (apply_modes mode_product Ms Y) /\
  shape (apply_modes mode_product Ms Y) = map snd KRs ++ Rs /\
  dense (apply_modes mode_product Ms Y).
Proof.
  induction Ms as [|M Ms IH] using rev_ind; intros KRs Rs X Y HF Hrot.
  - inversion HF; subst. simpl in *. rewrite (rotated_full Hrot).
    destruct Hrot as (_ & HsY & _ & HdY & _). auto.
  - apply Forall2_app_inv_l in HF as (KRs1 & KRs2 & HF1 & HF2 & ->).
    inversion HF2 as [|M' [K R] l1 l2 HM Hnil]; subst. inversion Hnil; subst.
    unfold matrix_of_dims in HM; simpl in HM.
    rewrite map_app in Hrot. simpl in Hrot.
    rewrite rev_unit. simpl for_each.
    pose proof (proj1 Hrot) as HsX.
    assert (Htd := @tensordot_last_ok M X R K (Rs ++ map fst KRs1) HM).
    rewrite HsX, app_assoc in Htd. specialize (Htd eq_refl).
    rewrite Htd. simpl bind. rewrite apply_modes_snoc.
    pose proof (@rotated_step Rs (map fst KRs1) K R M X Y _ HM Hrot Htd) as Hstep.
    rewrite length_map, <- (Forall2_length HF1) in Hstep.
    destruct (IH KRs1 (R :: Rs) _ _ HF1 Hstep) as (H1 & H2 & H3).
    repeat split; try assumption.
    rewrite H2, map_app, <- app_assoc. reflexivity.
Qed.

(** ** The pseudo-inverse of the singular values *)

Lemma masked_reciprocal l :
  let mask := map (fun x => negb (Qc_eqb x 0)) l in
  masked_assign l mask (reciprocal (boolean_index l mask))
  = map (fun x => if Qc_eqb x 0 then 0%Qc else (/ x)%Qc) l.
Proof.
  induction l as [|x l IH]; simpl; [reflexivity|].
  destruct (Qc_eqb x 0) eqn:Hx; simpl.
  - apply Qc_eqb_eq in Hx. rewrite IH, Hx. reflexivity.
  - rewrite IH. f_equal. unfold Qcdiv. ring.
Qed.

Lemma s_pinv_of_pinv s : s_pinv_of s = pinv s.
Proof.
  unfold s_pinv_of, pinv, ne_zero_mask. f_equal. apply masked_reciprocal.
Qed.

(** The operands of the division [1 / s_pinv[mask]] are all non-zero. *)
Lemma boolean_index_ne_zero s :
  Forall (fun x => x <> 0%Qc) (boolean_index (data s) (ne_zero_mask s)).
Proof.
  unfold ne_zero_mask. induction (data s) as [|x l IH]; simpl; [constructor|].
  destruct (Qc_eqb x 0) eqn:Hx; simpl; [assumption|].
  constructor; [apply Qc_eqb_neq; assumption | assumption].
Qed.

Lemma nth_map_in_range {A B : Type} (f : A -> B) l i da db :
  i < length l -> nth i (map f l) db = f (nth i l da).
Proof.
  revert i; induction l as [|x l IH]; intros [|i] Hi; simpl in *; try lia.
  - reflexivity.
  - apply IH. lia.
Qed.

Lemma pinv_entry s i :
  nth i (data (pinv s)) 0%Qc =
    if Qc_eqb (nth i (data s) 0%Qc) 0 then 0%Qc else (/ nth i (data s) 0%Qc)%Qc.
Proof.
  unfold pinv; simpl. destruct (Nat.lt_ge_cases i (length (data s))) as [Hi|Hi].
  - rewrite nth_map_in_range with (da := 0%Qc) by assumption. reflexivity.
  - rewrite !nth_overflow by (try rewrite length_map; assumption).
    rewrite Qc_eqb_refl. reflexivity.
Qed.

Lemma np_diag_vector v K : shape v = [K] -> np_diag v = Ok (diag_matrix K v).
Proof. intros H. unfold np_diag. rewrite H. reflexivity. Qed.

(** Contracting a mode with a diagonal matrix scales that mode. *)
Lemma mode_product_diag n v X K :
  n < ndim X -> nth n (shape X) 0 = K ->
  mode_product n (diag_matrix K v) X = mode_scale n v X.
Proof.
  intros Hn HK. unfold mode_product, mode_scale. simpl nth.
  rewrite <- HK at 1. rewrite replace_at_nth.
  apply tabulate_ext. intros idx Hin.
  pose proof (in_bounds_nth Hin Hn) as Hi. rewrite HK in Hi.
  rewrite (@sum_range_single K (nth n idx 0)); try assumption.
  - unfold diag_matrix.
    rewrite get_tabulate by (repeat constructor; assumption).
    rewrite Nat.eqb_refl, replace_at_nth. reflexivity.
  - intros k Hk Hne. unfold diag_matrix.
    rewrite get_tabulate by (repeat constructor; assumption).
    destruct (Nat.eqb_spec (nth n idx 0) k) as [Heq|_]; [congruence|]. ring.
Qed.

Lemma mode_scale_shape n v X : shape (mode_scale n v X) = shape X.
Proof. reflexivity. Qed.

Lemma apply_modes_diag vs : forall rest X,
  shape X = map vector_length vs ++ rest ->
  apply_modes mode_product (map (fun v => diag_matrix (vector_length v) v) vs) X
  = apply_modes mode_scale vs X /\
  shape (apply_modes mode_scale vs X) = shape X.
Proof.
  induction vs as [|v vs IH] using rev_ind; intros rest X HX.
  - split; reflexivity.
  - rewrite map_app in *. simpl map in *. rewrite !apply_modes_snoc.
    rewrite length_map.
    assert (Hnth : nth (length vs) (shape X) 0 = vector_length v).
    { rewrite HX, <- app_assoc.
      rewrite <- (length_map vector_length vs) at 1. apply nth_middle. }
    rewrite mode_product_diag; try assumption.
    + rewrite <- app_assoc in HX.
      destruct (IH _ (mode_scale (length vs) v X) HX) as [H1 H2].
      split; assumption.
    + unfold ndim. rewrite HX, !length_app, length_map. simpl. lia.
Qed.

Lemma Forall2_map_swap {A B C D : Type} (P : A -> B -> Prop) (Q : C -> D -> Prop)
  (f : B -> C) (g : A -> D) l1 l2 :
  Forall2 P l1 l2 -> (forall a b, P a b -> Q (f b) (g a)) ->
  Forall2 Q (map f l2) (map g l1).
Proof.
  intros H HPQ. induction H; simpl; constructor; auto.
Qed.

(** ** The order of the modes does not matter *)

Lemma replace_at_comm {A : Type} n m (a b : A) l :
  n <> m -> replace_at n a (replace_at m b l) = replace_at m b (replace_at n a l).
Proof.
  revert n m; induction l as [|x l IH]; intros [|n] [|m] H; simpl;
    try reflexivity; try lia.
  rewrite IH by lia. reflexivity.
Qed.

Lemma replace_at_twice {A : Type} n (a b : A) l :
  replace_at n a (replace_at n b l) = replace_at n a l.
Proof.
  revert n; induction l as [|x l IH]; intros [|n]; simpl; try reflexivity.
  rewrite IH. reflexivity.
Qed.

Lemma nth_replace_at_other {A : Type} n m (a d : A) l :
  n <> m -> nth n (replace_at m a l) d = nth n l d.
Proof.
  revert n m; induction l as [|x l IH]; intros [|n] [|m] H; simpl;
    try reflexivity; try lia.
  apply IH. lia.
Qed.

Lemma sumQc_map_zero {A : Type} (l : list A) : sumQc (map (fun _ => 0%Qc) l) = 0%Qc.
Proof. induction l as [|x l IH]; simpl; [reflexivity|]. rewrite IH. ring. Qed.

Lemma sumQc_map_plus {A : Type} (f g : A -> Qc) l :
  sumQc (map (fun x => (f x + g x)%Qc) l) = (sumQc (map f l) + sumQc (map g l))%Qc.
Proof. induction l as [|x l IH]; simpl; [ring|]. rewrite IH. ring. Qed.

Lemma sumQc_map_scale {A : Type} c (f : A -> Qc) l :
  (c * sumQc (map f l))%Qc = sumQc (map (fun x => (c * f x)%Qc) l).
Proof. induction l as [|x l IH]; simpl; [ring|]. rewrite <- IH. ring. Qed.

Lemma sum_range_swap K L (f : nat -> nat -> Qc) :
  sum_range K (fun k => sum_range L (fun l => f k l))
  = sum_range L (fun l => sum_range K (fun k => f k l)).
Proof.
  unfold sum_range. induction (seq 0 K) as [|k ks IH]; simpl.
  - rewrite sumQc_map_zero. reflexivity.
  - rewrite IH, <- sumQc_map_plus. reflexivity.
Qed.

(** Contractions along two different modes commute. *)
Lemma mode_product_comm n m M M' Y R R' :
  n <> m -> n < ndim Y -> m < ndim Y ->
  shape M = [R; nth n (shape Y) 0] -> shape M' = [R'; nth m (shape Y) 0] ->
  mode_product n M (mode_product m M' Y) = mode_product m M' (mode_product n M Y).
Proof.
  intros Hnm Hn Hm HM HM'.
  assert (Hside : forall n m M M' R R',
             n <> m -> n < ndim Y -> m < ndim Y ->
             shape M = [R; nth n (shape Y) 0] -> shape M' = [R'; nth m (shape Y) 0] ->
             mode_product n M (mode_product m M' Y)
             = tabulate (replace_at n R (replace_at m R' (shape Y)))
                 (fun idx =>
                    sum_range (nth n (shape Y) 0)
                      (fun k =>
                         sum_range (nth m (shape Y) 0)
                           (fun l =>
                              get M [nth n idx 0%nat; k]
                              * (get M' [nth m idx 0%nat; l]
                                 * get Y (replace_at m l (replace_at n k idx))))%Qc))).
  { clear. intros n m M M' R R' Hnm Hn Hm HM HM'.
    unfold mode_product at 1. rewrite HM. simpl nth.
    erewrite mode_product_shape by eassumption.
    apply tabulate_ext. intros idx Hin. apply sum_range_ext. intros k Hk.
    erewrite get_mode_product; [|eassumption|].
    - rewrite (nth_replace_at_other _ _ _ (not_eq_sym Hnm)).
      unfold sum_range. rewrite sumQc_map_scale. reflexivity.
    - pose proof (@in_bounds_replace_at _ _ n (nth n (shape Y) 0) k Hin Hk) as Hb.
      rewrite replace_at_twice in Hb.
      rewrite replace_at_comm in Hb by assumption.
      rewrite replace_at_nth in Hb. exact Hb. }
  rewrite (Hside n m M M' R R') by assumption.
  rewrite (Hside m n M' M R' R) by (try assumption; auto).
  rewrite (replace_at_comm R R' (shape Y) Hnm).
  apply tabulate_ext. intros idx _. rewrite sum_range_swap.
  apply sum_range_ext. intros l _. apply sum_range_ext. intros k _.
  rewrite (replace_at_comm l k idx (not_eq_sym Hnm)). ring.
Qed.

(** Scalings along modes commute. *)
Lemma mode_scale_comm n m v v' Y :
  mode_scale n v (mode_scale m v' Y) = mode_scale m v' (mode_scale n v Y).
Proof.
  unfold mode_scale at 1 3. rewrite !mode_scale_shape.
  apply tabulate_ext. intros idx Hin.
  unfold mode_scale. rewrite !get_tabulate by assumption. ring.
Qed.

Section Reorder.

(** An operation per mode that leaves the other axes as they are and commutes
    with itself along another mode, where both applications are well-formed. *)
Variable op : nat -> ndarray -> ndarray -> ndarray.
Variable fits : ndarray -> nat -> Prop.

Hypothesis op_ndim : forall n M Y, ndim (op n M Y) = ndim Y.
Hypothesis op_other :
  forall n m M Y, m <> n -> nth m (shape (op n M Y)) 0 = nth m (shape Y) 0.
Hypothesis op_comm :
  forall a b Y, fst a <> fst b -> well_formed fits a Y -> well_formed fits b Y ->
                apply_mode op a (apply_mode op b Y) = apply_mode op b (apply_mode op a Y).

Lemma well_formed_after a b Y :
  fst a <> fst b -> well_formed fits a Y -> well_formed fits a (apply_mode op b Y).
Proof.
  intros Hab [H1 H2]. unfold well_formed, apply_mode.
  rewrite op_ndim, op_other by assumption. auto.
Qed.

Lemma all_well_formed_tail a l Y :
  all_well_formed fits (a :: l) Y -> all_well_formed fits l Y.
Proof.
  intros [Hnd HF]. inversion Hnd; inversion HF; subst. split; assumption.
Qed.

Lemma all_well_formed_after a l Y :
  all_well_formed fits (a :: l) Y -> all_well_formed fits l (apply_mode op a Y).
Proof.
  intros [Hnd HF]. inversion Hnd as [|x xs Hnotin Hnd']; subst.
  inversion HF as [|y ys Ha HF']; subst. split; [assumption|].
  apply Forall_forall. intros b Hb. rewrite Forall_forall in HF'.
  apply well_formed_after; [|auto].
  intros Heq. apply Hnotin. rewrite <- Heq. apply in_map. assumption.
Qed.

Lemma all_well_formed_skip a b l Y :
  all_well_formed fits (a :: b :: l) Y -> all_well_formed fits (a :: l) Y.
Proof.
  intros [Hnd HF]. inversion Hnd as [|x xs Hnotin Hnd']; subst.
  inversion Hnd'; subst. inversion HF as [|y ys Ha HF']; subst.
  inversion HF'; subst. split.
  - constructor; [|assumption]. intros Hin. apply Hnotin. right. assumption.
  - constructor; assumption.
Qed.

Lemma well_formed_fold a l Y :
  all_well_formed fits (a :: l) Y ->
  well_formed fits a (fold_right (apply_mode op) Y l).
Proof.
  induction l as [|b l IH]; intros H.
  - destruct H as [_ HF]. inversion HF; assumption.
  - simpl. apply well_formed_after.
    + destruct H as [Hnd _]. inversion Hnd as [|x xs Hnotin _]; subst.
      intros Heq. apply Hnotin. left. symmetry. assumption.
    + apply IH. apply (all_well_formed_skip H).
Qed.

(** An operation applied last can be applied first. *)
Lemma fold_push a l Y :
  all_well_formed fits (a :: l) Y ->
  apply_mode op a (fold_right (apply_mode op) Y l)
  = fold_right (apply_mode op) (apply_mode op a Y) l.
Proof.
  induction l as [|b l IH]; intros H; [reflexivity|].
  simpl. rewrite op_comm.
  - rewrite IH by (apply (all_well_formed_skip H)). reflexivity.
  - destruct H as [Hnd _]. inversion Hnd as [|x xs Hnotin _]; subst.
    intros Heq. apply Hnotin. left. symmetry. assumption.
  - apply well_formed_fold. apply (all_well_formed_skip H).
  - apply well_formed_fold. apply (all_well_formed_tail H).
Qed.

Lemma fold_right_rev_order l : forall Y,
  all_well_formed fits l Y ->
  fold_right (apply_mode op) Y (rev l) = fold_right (apply_mode op) Y l.
Proof.
  induction l as [|a l IH]; intros Y H; [reflexivity|].
  simpl rev. rewrite fold_right_app. simpl fold_right at 2.
  rewrite IH by (apply all_well_formed_after; assumption).
  symmetry. apply fold_push. assumption.
Qed.

Lemma apply_modes_up_down Ms Y :
  all_well_formed fits (combine (seq 0 (length Ms)) Ms) Y ->
  apply_modes_up op Ms Y = apply_modes op Ms Y.
Proof.
  intros H. unfold apply_modes_up, apply_modes.
  rewrite <- fold_left_rev_right. apply (fold_right_rev_order H).
Qed.

End Reorder.

Lemma all_well_formed_modes (fits : ndarray -> nat -> Prop) Ms : forall Ks s pre Y,
  Forall2 fits Ms Ks ->
  shape Y = pre ++ Ks -> length pre = s ->
  all_well_formed fits (combine (seq s (length Ms)) Ms) Y.
Proof.
  induction Ms as [|M Ms IH]; intros Ks s pre Y HF HY Hs;
    inversion HF as [|M0 K l1 Ks' HM HF']; subst; simpl.
  - split; constructor.
  - assert (HY' : shape Y = (pre ++ [K]) ++ Ks') by (rewrite <- app_assoc; exact HY).
    destruct (IH Ks' (S (length pre)) (pre ++ [K]) Y HF' HY') as [Hnd Hall].
    { rewrite length_app. simpl. lia. }
    split.
    + simpl. constructor; [|assumption].
      intros Hin. apply in_map_iff in Hin as ([n M'] & Hn & Hin). simpl in Hn. subst n.
      apply in_combine_l in Hin. apply in_seq in Hin. lia.
    + constructor; [|assumption]. unfold well_formed. simpl. split.
      * unfold ndim. rewrite HY, length_app. simpl. lia.
      * rewrite HY, nth_middle. assumption.
Qed.

Lemma apply_modes_up_product Ms Ks Y :
  Forall2 contracts Ms Ks -> shape Y = Ks ->
  apply_modes_up mode_product Ms Y = apply_modes mode_product Ms Y.
Proof.
  intros HF HY. apply apply_modes_up_down with (fits := contracts).
  - intros n M Z. unfold ndim, mode_product. simpl. apply replace_at_length.
  - intros n m M Z Hmn. unfold mode_product. simpl.
    apply nth_replace_at_other. assumption.
  - intros [n M] [m M'] Z Hnm [Hn [R HM]] [Hm [R' HM']]. simpl in *.
    unfold apply_mode. simpl. eapply mode_product_comm; eassumption.
  - apply all_well_formed_modes with (Ks := Ks) (pre := []); auto.
Qed.

Lemma apply_modes_up_scale vs Y :
  length vs = ndim Y ->
  apply_modes_up mode_scale vs Y = apply_modes mode_scale vs Y.
Proof.
  intros Hlen. apply apply_modes_up_down with (fits := fun _ _ => True).
  - reflexivity.
  - reflexivity.
  - intros a b Z _ _ _. apply mode_scale_comm.
  - apply all_well_formed_modes with (Ks := shape Y) (pre := []); auto.
    clear - Hlen. unfold ndim in Hlen. revert Hlen. generalize (shape Y) as sh.
    induction vs as [|v vs IH]; intros [|d sh] H; simpl in *; try discriminate;
      constructor; auto.
Qed.

(** ** Core tensor estimation *)

Lemma contraction_loop (proj : svd_triple -> ndarray) svds KRs X :
  Forall2 matrix_of_dims (map proj svds) KRs ->
  dense X -> shape X = map fst KRs ->
  for_each (rev svds) (fun X t => tensordot_last (proj t) X) X
  = Ok (apply_modes mode_product (map proj svds) X) /\
  shape (apply_modes mode_product (map proj svds) X) = map snd KRs /\
  dense (apply_modes mode_product (map proj svds) X).
Proof.
  intros HF HdX HsX.
  rewrite <- (for_each_map proj (fun X M => tensordot_last M X)), map_rev.
  pose proof (rotated_refl HdX) as Hrot. rewrite HsX in Hrot.
  destruct (loop_rotation HF Hrot) as (H1 & H2 & H3).
  rewrite app_nil_r in H2. auto.
Qed.

Lemma ascontiguousarray_dense a : dense a -> dense (ascontiguousarray a).
Proof.
  unfold ascontiguousarray, dense. destruct (shape a) eqn:Hs; simpl; [|rewrite Hs]; auto.
Qed.

Lemma ascontiguousarray_data a : data (ascontiguousarray a) = data a.
Proof. unfold ascontiguousarray. destruct (shape a); reflexivity. Qed.

Lemma ascontiguousarray_id a : shape a <> [] -> ascontiguousarray a = a.
Proof. unfold ascontiguousarray. destruct (shape a); congruence. Qed.

(** The three loops of [estimate_core_tensor], against the mode-wise
    operations, with the shapes of the arrays between the loops. *)
Lemma estimate_core_tensor_modes
  (svd : ndarray -> result svd_triple) (factors : list ndarray)
  (svds : list svd_triple) (X : ndarray) :
  map_result svd factors = Ok svds ->
  Forall2 reduced_svd factors svds ->
  dense X ->
  shape X = map nrows factors ->
  let Ks := map (fun A => Nat.min (nrows A) (ncols A)) factors in
  let X1 := apply_modes mode_product (map (fun t => transpose (svd_U t)) svds) X in
  let X2 := apply_modes mode_scale (map (fun t => pinv (svd_s t)) svds) X1 in
  let G := core_by_modes svds X in
  estimate_core_tensor svd factors X = Ok (ascontiguousarray G) /\
  dense G /\
  shape X1 = Ks /\
  shape X2 = Ks /\
  shape G = map ncols factors.
Proof.
  intros Hsvd HF HdX HsX Ks X1' X2' G.
  (* first loop: U^T along every mode *)
  assert (HF1 : Forall2 matrix_of_dims (map (fun t => transpose (svd_U t)) svds)
                  (map (fun A => (nrows A, Nat.min (nrows A) (ncols A))) factors)).
  { eapply Forall2_map_swap; [exact HF|]. intros A t (_ & HU & _).
    unfold matrix_of_dims; simpl. apply shape_transpose2. assumption. }
  destruct (@contraction_loop _ _ _ _ HF1 HdX) as (L1 & S1 & D1);
    [rewrite map_map; simpl; assumption|].
  rewrite map_map in S1; simpl in S1.
  set (X1 := apply_modes mode_product (map (fun t => transpose (svd_U t)) svds) X) in *.
  (* second loop: the diagonal matrices of the pseudo-inverses *)
  assert (HF2 : Forall2 matrix_of_dims
                  (map (fun t => diag_matrix (vector_length (pinv (svd_s t)))
                                   (pinv (svd_s t))) svds)
                  (map (fun A => (Nat.min (nrows A) (ncols A),
                                  Nat.min (nrows A) (ncols A))) factors)).
  { eapply Forall2_map_swap; [exact HF|]. intros A t (_ & _ & Hs & _).
    unfold matrix_of_dims, vector_length; simpl. rewrite Hs. reflexivity. }
  destruct (@contraction_loop _ _ _ _ HF2 D1) as (L2 & S2 & D2);
    [rewrite map_map; simpl; assumption|].
  rewrite map_map in S2; simpl in S2.
  assert (Hdiag := @apply_modes_diag (map (fun t => pinv (svd_s t)) svds) [] X1).
  rewrite map_map in Hdiag.
  assert (HsX1 : shape X1 = map (fun t => vector_length (pinv (svd_s t))) svds ++ []).
  { rewrite app_nil_r, S1. clear - HF. induction HF as [|A t fs ts (_ & _ & Hs & _) _ IH];
      simpl; [reflexivity|]. rewrite IH. unfold vector_length; simpl. rewrite Hs.
    reflexivity. }
  destruct (Hdiag HsX1) as [E2 _]. rewrite map_map in E2.
  rewrite E2 in L2, S2, D2.
  set (X2 := apply_modes mode_scale (map (fun t => pinv (svd_s t)) svds) X1) in *.
  (* third loop: Vh^T along every mode *)
  assert (HF3 : Forall2 matrix_of_dims (map (fun t => transpose (svd_Vh t)) svds)
                  (map (fun A => (Nat.min (nrows A) (ncols A), ncols A)) factors)).
  { eapply Forall2_map_swap; [exact HF|]. intros A t (_ & _ & _ & HVh).
    unfold matrix_of_dims; simpl. apply shape_transpose2. assumption. }
  destruct (@contraction_loop _ _ _ _ HF3 D2) as (L3 & S3 & D3);
    [rewrite map_map; simpl; assumption|].
  rewrite map_map in S3; simpl in S3.
  fold (core_by_modes svds X) in L3, S3, D3. fold G in L3, S3, D3.
  (* the body of the source, loop by loop *)
  assert (Hcode : estimate_core_tensor svd factors X = Ok (ascontiguousarray G)).
  { unfold estimate_core_tensor. rewrite Hsvd. simpl bind.
    rewrite for_each_ext_in
      with (g := fun X t => tensordot_last (transpose (svd_U t)) X)
      by (intros [[U s] Vh] acc _; reflexivity).
    rewrite L1. simpl bind.
    rewrite for_each_ext_in
      with (g := fun X t => tensordot_last
                   (diag_matrix (vector_length (pinv (svd_s t))) (pinv (svd_s t))) X).
    - rewrite L2. simpl bind.
      rewrite for_each_ext_in
        with (g := fun X t => tensordot_last (transpose (svd_Vh t)) X)
        by (intros [[U s] Vh] acc _; reflexivity).
      rewrite L3. reflexivity.
    - intros [[U s] Vh] acc Hin. apply in_rev in Hin.
      assert (Hs : exists K, shape s = [K]).
      { clear - HF Hin. induction HF as [|A t fs ts (_ & _ & Hs & _) _ IH];
          [contradiction|]. destruct Hin as [->|Hin]; [eexists; exact Hs | auto]. }
      destruct Hs as [K Hs]. rewrite s_pinv_of_pinv.
      rewrite (@np_diag_vector _ K) by (simpl; exact Hs).
      simpl bind. unfold vector_length, svd_s; simpl. rewrite Hs. reflexivity. }
  repeat split.
  - exact Hcode.
  - exact D3.
  - exact S1.
  - exact S2.
  - exact S3.
Qed.

Ltac reduced_svds := repeat (constructor; [repeat split|]); constructor.

(** C2.  When every factor matrix has a reduced decomposition [(U, s, Vh)] and
    the data tensor [X] is dense with one axis per factor, of the length of
    that factor's rows, [estimate_core_tensor] returns the array obtained by
    contracting every mode of [X] with [U^T], scaling every mode by the
    elementwise pseudo-inverse of [s], and contracting every mode with [Vh^T].
    The array the code inverts in place is that pseudo-inverse (zero stays
    zero, every other entry is inverted) and no operand of its division is
    zero.  The result is dense in row-major order, with the entries of the
    mode-wise result and, as soon as there is a mode, its shape: one axis per
    factor, of the length of that factor's columns.  The modes may be taken
    from the last to the first, as the code takes them, or from the first to
    the last: the array is the same. *)
Theorem estimate_core_tensor_by_modes
  (svd : ndarray -> result svd_triple) (factors : list ndarray)
  (svds : list svd_triple) (X : ndarray) :
  map_result svd factors = Ok svds ->
  Forall2 reduced_svd factors svds ->
  dense X ->
  shape X = map nrows factors ->
  let G := core_by_modes svds X in
  estimate_core_tensor svd factors X = Ok (ascontiguousarray G) /\
  dense (ascontiguousarray G) /\
  data (ascontiguousarray G) = data G /\
  shape G = map ncols factors /\
  (factors <> [] -> ascontiguousarray G = G) /\
  core_by_modes_up svds X = G /\
  Forall (fun t => s_pinv_of (svd_s t) = pinv (svd_s t) /\
                   Forall (fun x => x <> 0%Qc)
                     (boolean_index (data (svd_s t)) (ne_zero_mask (svd_s t)))) svds.
Proof.
  intros Hsvd HF HdX HsX G.
  destruct (@estimate_core_tensor_modes svd factors svds X Hsvd HF HdX HsX)
    as (Hrun & HdG & S1 & S2 & S3).
  fold G in Hrun, HdG, S3.
  (* the modes in increasing order *)
  assert (Hup : core_by_modes_up svds X = G).
  { unfold core_by_modes_up.
    rewrite (@apply_modes_up_product _ (map nrows factors) X); [|
      eapply Forall2_map_swap; [exact HF|]; intros A t (_ & HU & _);
      eexists; apply shape_transpose2; eassumption | assumption].
    rewrite apply_modes_up_scale
      by (unfold ndim; rewrite S1, !length_map; symmetry; apply (Forall2_length HF)).
    rewrite (@apply_modes_up_product _
               (map (fun A => Nat.min (nrows A) (ncols A)) factors));
      [reflexivity | | exact S2].
    eapply Forall2_map_swap; [exact HF|]. intros A t (_ & _ & _ & HVh).
    eexists. apply shape_transpose2. eassumption. }
  repeat split.
  - exact Hrun.
  - apply ascontiguousarray_dense. exact HdG.
  - apply ascontiguousarray_data.
  - exact S3.
  - intros Hne. apply ascontiguousarray_id. rewrite S3.
    destruct factors; [congruence | discriminate].
  - exact Hup.
  - apply Forall_forall. intros t _. split.
    + apply s_pinv_of_pinv.
    + apply boolean_index_ne_zero.
Qed.

Lemma estimate_core_tensor_by_modes_witness :
  let svds := svds_of [A_diag; A_diag; A_sing] in
  let G := core_by_modes svds X_cube in
  estimate_core_tensor svd_of_diagonal [A_diag; A_diag; A_sing] X_cube
  = Ok (ascontiguousarray G) /\
  dense (ascontiguousarray G) /\
  data (ascontiguousarray G) = data G /\
  shape G = map ncols [A_diag; A_diag; A_sing] /\
  ([A_diag; A_diag; A_sing] <> [] -> ascontiguousarray G = G) /\
  core_by_modes_up svds X_cube = G /\
  Forall (fun t => s_pinv_of (svd_s t) = pinv (svd_s t) /\
                   Forall (fun x => x <> 0%Qc)
                     (boolean_index (data (svd_s t)) (ne_zero_mask (svd_s t)))) svds.
Proof.
  apply (@estimate_core_tensor_by_modes svd_of_diagonal [A_diag; A_diag; A_sing]
           (svds_of [A_diag; A_diag; A_sing]) X_cube).
  - reflexivity.
  - reduced_svds.
  - reflexivity.
  - reflexivity.
Defined.

(** ** The diagonal [np.fill_diagonal] writes *)

Lemma geom_succ R n : geom R (S n) = geom R n + R ^ n.
Proof.
  induction n as [|n IH]; [simpl; lia|].
  change (geom R (S (S n))) with (1 + R * geom R (S n)).
  rewrite IH at 1. change (geom R (S n)) with (1 + R * geom R n) in *.
  rewrite Nat.pow_succ_r'. lia.
Qed.

Lemma geom_pow R n : (R - 1) * geom R n + 1 = R ^ n \/ R = 0.
Proof.
  destruct R as [|R]; [right; reflexivity | left].
  induction n as [|n IH]; [simpl; lia|].
  rewrite geom_succ, Nat.pow_succ_r'.
  replace (S R - 1) with R in * by lia. nia.
Qed.

Lemma size_of_repeat R n : size_of (repeat R n) = R ^ n.
Proof. induction n as [|n IH]; simpl; [reflexivity|]. rewrite IH. reflexivity. Qed.

Lemma list_sum_map_mul d l : list_sum (map (Nat.mul d) l) = d * list_sum l.
Proof. induction l as [|x l IH]; simpl; [lia|]. rewrite IH. lia. Qed.

Lemma cumprod_repeat R n : list_sum (cumprod (repeat R n)) = R * geom R n.
Proof.
  induction n as [|n IH]; simpl; [lia|].
  rewrite list_sum_map_mul, IH. lia.
Qed.

Lemma removelast_repeat {A : Type} (x : A) n : removelast (repeat x (S n)) = repeat x n.
Proof.
  induction n as [|n IH]; [reflexivity|].
  change (repeat x (S (S n))) with (x :: repeat x (S n)).
  change (removelast (x :: repeat x (S n))) with (x :: removelast (repeat x (S n))).
  rewrite IH. reflexivity.
Qed.

Lemma all_same_repeat d n : all_same (repeat d n) = true.
Proof.
  destruct n as [|n]; [reflexivity|]. simpl. apply forallb_forall.
  intros x Hx. apply repeat_spec in Hx. subst. apply Nat.eqb_refl.
Qed.

Lemma all_same_is_repeat l : all_same l = true -> l = repeat (hd 0 l) (length l).
Proof.
  destruct l as [|d l]; [reflexivity|]. simpl. intros H. f_equal.
  rewrite forallb_forall in H.
  induction l as [|x l IH]; [reflexivity|]. simpl.
  rewrite <- IH by (intros y Hy; apply H; right; assumption).
  f_equal. symmetry. apply Nat.eqb_eq, H. left; reflexivity.
Qed.

Lemma ravel_repeat R i n : ravel (repeat R n) (repeat i n) = i * geom R n.
Proof.
  induction n as [|n IH]; [simpl; lia|].
  change (ravel (repeat R (S n)) (repeat i (S n)))
    with (i * size_of (repeat R n) + ravel (repeat R n) (repeat i n)).
  rewrite IH, size_of_repeat, geom_succ. lia.
Qed.

Lemma in_bounds_repeat R i n : i < R -> in_bounds (repeat R n) (repeat i n).
Proof. intros H. induction n; simpl; constructor; assumption. Qed.

Lemma ravel_inj sh idx1 idx2 :
  in_bounds sh idx1 -> in_bounds sh idx2 -> ravel sh idx1 = ravel sh idx2 -> idx1 = idx2.
Proof.
  intros H1 H2 Heq.
  rewrite <- (nth_indices_ravel [] H1), <- (nth_indices_ravel [] H2), Heq.
  reflexivity.
Qed.

(** An offset is a multiple of the stride exactly at the indices whose
    entries are all equal. *)
Lemma diagonal_offsets R n idx :
  1 <= n -> in_bounds (repeat R n) idx ->
  (ravel (repeat R n) idx mod geom R n =? 0) = all_same idx.
Proof.
  intros Hn Hin.
  assert (Hlen : length idx = n)
    by (rewrite (in_bounds_length Hin); apply repeat_length).
  assert (HR : 0 < R).
  { destruct n as [|n]; [lia|]. inversion Hin; subst. lia. }
  assert (Hg : 0 < geom R n) by (destruct n; simpl; lia).
  destruct (all_same idx) eqn:Hsame.
  - apply all_same_is_repeat in Hsame. rewrite Hlen in Hsame. rewrite Hsame.
    rewrite ravel_repeat. apply Nat.eqb_eq. apply Nat.Div0.mod_mul.
  - apply Nat.eqb_neq. intros Hmod.
    apply Nat.Div0.mod_divides in Hmod as [q Hq].
    pose proof (ravel_lt Hin) as Hlt. rewrite size_of_repeat in Hlt.
    destruct (geom_pow R n) as [Hp|Hp]; [|lia].
    assert (Hq' : q < R) by nia.
    assert (Heq : idx = repeat q n).
    { apply (@ravel_inj (repeat R n)); try assumption.
      - apply in_bounds_repeat; assumption.
      - rewrite ravel_repeat. lia. }
    rewrite Heq, all_same_repeat in Hsame. discriminate.
Qed.

Lemma nth_flat_assign_stride l stop step v p :
  p < length l ->
  nth p (flat_assign_stride l stop step v) 0%Qc
  = if (p <? stop) && (p mod step =? 0) then v else nth p l 0%Qc.
Proof.
  intros Hp. unfold flat_assign_stride.
  rewrite nth_map_in_range with (da := (0, 0%Qc))
    by (rewrite length_combine, length_seq, Nat.min_id; assumption).
  rewrite combine_nth by (apply length_seq).
  rewrite seq_nth by assumption. reflexivity.
Qed.

Lemma length_flat_assign_stride l stop step v :
  length (flat_assign_stride l stop step v) = length l.
Proof.
  unfold flat_assign_stride.
  rewrite length_map, length_combine, length_seq. apply Nat.min_id.
Qed.

Lemma fill_diagonal_zeros R N :
  2 <= N ->
  fill_diagonal (np_zeros (repeat R N)) 1%Qc = Ok (superdiagonal R N).
Proof.
  intros HN.
  assert (Hgen : fill_diagonal (np_zeros (repeat R N)) 1%Qc
                 = Ok (mk_ndarray (repeat R N)
                         (flat_assign_stride (data (np_zeros (repeat R N)))
                            (R ^ N) (geom R N) 1%Qc))).
  { destruct N as [|[|[|N]]]; try lia.
    - unfold fill_diagonal. simpl shape. cbv iota. do 2 f_equal.
      simpl geom. simpl Nat.pow. f_equal; lia.
    - unfold fill_diagonal.
      change (shape (np_zeros (repeat R (S (S (S N))))))
        with (R :: R :: R :: repeat R N).
      cbv iota.
      change (R :: R :: R :: repeat R N) with (repeat R (S (S (S N)))).
      rewrite all_same_repeat, removelast_repeat, cumprod_repeat.
      pose proof (dense_tabulate (repeat R (S (S (S N)))) (fun _ => 0%Qc)) as Hd.
      unfold dense in Hd. unfold np_zeros. rewrite Hd.
      rewrite !shape_tabulate, size_of_repeat. reflexivity. }
  rewrite Hgen. f_equal.
  apply ndarray_ext.
  - unfold dense; simpl. rewrite length_flat_assign_stride, length_map.
    apply indices_length.
  - apply dense_tabulate.
  - reflexivity.
  - simpl shape. intros idx Hin. unfold superdiagonal.
    rewrite get_tabulate by assumption.
    unfold get. simpl shape. simpl data.
    pose proof (ravel_lt Hin) as Hlt.
    rewrite nth_flat_assign_stride
      by (rewrite length_map, indices_length; assumption).
    rewrite size_of_repeat in Hlt.
    apply Nat.ltb_lt in Hlt. rewrite Hlt. simpl andb.
    rewrite diagonal_offsets by (try assumption; lia).
    destruct (all_same idx); [reflexivity|].
    change (get (tabulate (repeat R N) (fun _ => 0%Qc)) idx = 0%Qc).
    rewrite get_tabulate by assumption. reflexivity.
Qed.

(** ** Broadcasting lemmas *)

Lemma broadcast_rev_same s : broadcast_rev s s = Some s.
Proof.
  induction s as [|d s IH]; simpl; [reflexivity|].
  rewrite IH, Nat.eqb_refl. reflexivity.
Qed.

Lemma broadcast_shapes_same s : broadcast_shapes s s = Some s.
Proof.
  unfold broadcast_shapes. rewrite broadcast_rev_same. simpl.
  rewrite rev_involutive. reflexivity.
Qed.

Lemma broadcast_index_same sh idx : in_bounds sh idx -> broadcast_index sh idx = idx.
Proof.
  intros H. unfold broadcast_index.
  rewrite (in_bounds_length H), Nat.sub_diag. simpl skipn.
  induction H as [|i d idx sh Hi _ IH]; simpl; [reflexivity|].
  rewrite IH. destruct (Nat.eqb_spec d 1); [f_equal; lia | reflexivity].
Qed.

Lemma list_eqb_refl l : list_eqb l l = true.
Proof. unfold list_eqb. destruct (list_eq_dec Nat.eq_dec l l); congruence. Qed.

Lemma np_binop_same_shape f a b :
  shape a = shape b ->
  np_binop f a b = Ok (tabulate (shape a) (fun idx => f (get a idx) (get b idx))).
Proof.
  intros H. unfold np_binop. rewrite <- H, broadcast_shapes_same. f_equal.
  apply tabulate_ext. intros idx Hin. unfold broadcast_get.
  rewrite <- H, broadcast_index_same by assumption. reflexivity.
Qed.

Lemma shape_scale_columns weights A : shape (scale_columns weights A) = shape A.
Proof. destruct weights; reflexivity. Qed.

Lemma imul_weights A w m R :
  shape A = [m; R] -> length (data w) = R ->
  np_inplace Qcmult A (reshape_row w) = Ok (scale_columns (Some w) A).
Proof.
  intros HA Hw. unfold np_inplace, reshape_row, scale_columns. simpl shape.
  rewrite HA, Hw.
  assert (Hb : broadcast_shapes [m; R] [1; R] = Some [m; R]).
  { unfold broadcast_shapes. simpl. rewrite Nat.eqb_refl.
    destruct (Nat.eqb_spec m 1) as [->|_]; reflexivity. }
  rewrite Hb, list_eqb_refl. f_equal. apply tabulate_ext.
  intros idx Hin. unfold broadcast_get. simpl shape. rewrite HA.
  rewrite (broadcast_index_same Hin).
  inversion Hin as [|i d0 idx1 sh1 Hi Hin1]; subst.
  inversion Hin1 as [|r d1 idx2 sh2 Hr Hin2]; subst.
  inversion Hin2; subst. f_equal.
  unfold broadcast_index, get. simpl.
  destruct (Nat.eqb_spec (length (data w)) 1) as [H1|_].
  - f_equal. lia.
  - f_equal. lia.
Qed.

(** ** The core consistency formula *)

Lemma np_sum_square a : np_sum (np_square a) = sum_sq a.
Proof.
  unfold np_sum, np_square, sum_sq. simpl. f_equal. apply map_ext.
  intros x. simpl. ring.
Qed.

(** The statements of [core_consistency] after the core is estimated. *)
Lemma core_consistency_run svd weights A0 rest X normalised m R G :
  shape A0 = [m; R] ->
  (forall w, weights = Some w -> length (data w) = R) ->
  estimate_core_tensor svd (scale_columns weights A0 :: rest) X = Ok G ->
  shape G = repeat R (ndim X) ->
  2 <= ndim X ->
  core_consistency svd (weights, A0 :: rest) X normalised
  = Ok (core_consistency_value G R (ndim X) normalised).
Proof.
  intros HA Hw HG HsG HN. unfold core_consistency. simpl bind.
  unfold shape_at. rewrite HA. simpl nth_error. simpl bind.
  assert (HA' : match weights with
                | Some w => np_inplace Qcmult A0 (reshape_row w)
                | None => Ok A0
                end = Ok (scale_columns weights A0)).
  { destruct weights as [w|]; [|reflexivity].
    apply imul_weights with (m := m) (R := R); auto. }
  rewrite HA'. simpl bind. simpl tl. rewrite HG. simpl bind.
  rewrite fill_diagonal_zeros by assumption. simpl bind.
  rewrite np_binop_same_shape by (rewrite HsG; reflexivity).
  simpl bind. unfold core_consistency_value. rewrite !np_sum_square.
  do 3 f_equal. unfold sum_sq, sum_sq_diff. simpl data.
  rewrite map_map. reflexivity.
Qed.

(** The estimated core of a well-formed call: every factor matrix has [R]
    columns, the weights (when present) are [R] numbers, [X] is dense with one
    axis per factor matrix, as long as that matrix's rows, and each matrix,
    the first with its columns scaled, has a reduced decomposition. *)
Lemma estimated_core svd weights A0 rest svds X R :
  Forall (fun A => ncols A = R) (A0 :: rest) ->
  dense X -> shape X = map nrows (A0 :: rest) ->
  map_result svd (scale_columns weights A0 :: rest) = Ok svds ->
  Forall2 reduced_svd (scale_columns weights A0 :: rest) svds ->
  exists G,
    estimate_core_tensor svd (scale_columns weights A0 :: rest) X = Ok G /\
    G = core_by_modes svds X /\
    shape G = repeat R (ndim X) /\
    dense G /\
    shape A0 = [nrows A0; R] /\
    ndim X = length (A0 :: rest).
Proof.
  intros Hcols HdX HsX Hsvd HF.
  assert (HsX' : shape X = map nrows (scale_columns weights A0 :: rest)).
  { rewrite HsX. simpl. unfold nrows. rewrite shape_scale_columns. reflexivity. }
  destruct (estimate_core_tensor_modes svd Hsvd HF HdX HsX')
    as (Hrun & Hdense & _ & _ & Hshape).
  rewrite ascontiguousarray_id in Hrun by (rewrite Hshape; discriminate).
  exists (core_by_modes svds X).
  assert (HN : ndim X = length (A0 :: rest))
    by (unfold ndim; rewrite HsX, length_map; reflexivity).
  repeat split; try assumption.
  - rewrite Hshape, HN. simpl map. unfold ncols at 1.
    rewrite shape_scale_columns. fold (ncols A0).
    inversion Hcols as [|A l HA0 Hrest]; subst. simpl. f_equal.
    clear - Hrest. induction Hrest as [|A l HA _ IH]; simpl; [reflexivity|].
    rewrite HA, IH. reflexivity.
  - inversion HF as [|A t l1 l2 (Hs & _) _]; subst.
    rewrite shape_scale_columns in Hs. unfold nrows, ncols in *.
    rewrite shape_scale_columns in Hs.
    inversion Hcols as [|A l HA0 _]; subst. exact Hs.
Qed.

(** With element types that the in-place product accepts, the typed call is
    the call on the arrays without their types. *)
Lemma core_consistency_typed_values svd weights factors X normalised :
  (forall w A0, weights = Some w -> hd_error factors = Some A0 ->
     can_cast_same_kind (result_type (dtype_of A0) (dtype_of w)) (dtype_of A0) = true) ->
  core_consistency_typed svd (weights, factors) X normalised
  = core_consistency svd (values_of (weights, factors)) X normalised.
Proof.
  intros Hc. unfold core_consistency_typed, core_consistency, values_of.
  simpl fst. simpl snd. destruct factors as [|A0 rest]; [reflexivity|].
  simpl map. simpl bind.
  destruct (shape_at (array_of A0) 1) as [rank|]; [|reflexivity]. simpl bind.
  destruct weights as [w|]; simpl option_map; [|reflexivity].
  unfold np_imul, typed_reshape_row. cbn [dtype_of array_of].
  rewrite (Hc w A0 eq_refl eq_refl).
  destruct (np_inplace Qcmult (array_of A0) (reshape_row (array_of w))) as [A|];
    reflexivity.
Qed.

(** With a floating-point product and an integer first factor matrix, the
    call raises where the product is to be written back. *)
Lemma core_consistency_typed_cast_error svd w A0 rest X normalised m R :
  shape (array_of A0) = [m; R] ->
  can_cast_same_kind (result_type (dtype_of A0) (dtype_of w)) (dtype_of A0) = false ->
  core_consistency_typed svd (Some w, A0 :: rest) X normalised
  = Raise (TypeError cannot_cast).
Proof.
  intros HA Hc. unfold core_consistency_typed. simpl bind.
  unfold shape_at. rewrite HA. simpl nth_error. simpl bind.
  unfold np_imul, typed_reshape_row. cbn [dtype_of array_of].
  rewrite Hc. reflexivity.
Qed.



(** C1 (as stated) also fails on integer factor matrices with weights that
    are floating-point numbers: the two-mode model and [X] match, the call on
    the values would return, and the call raises where the product is to be
    written into the integer copy of the first factor matrix. *)
Example core_consistency_integer_factor_raises :
  shape X_exact = map nrows [A_diag; A_diag] /\
  length (data w_half) = ncols A_diag /\
  is_ok (core_consistency svd_of_diagonal (Some w_half, [A_diag; A_diag]) X_exact false)
  = true /\
  forall normalised,
    core_consistency_typed svd_of_diagonal
      (Some (as_float w_half), [as_int A_diag; as_int A_diag]) X_exact normalised
    = Raise (TypeError cannot_cast).
Proof.
  split; [reflexivity|]. split; [reflexivity|]. split; [vm_compute; reflexivity|].
  intros normalised.
  apply core_consistency_typed_cast_error with (m := 2) (R := 2); reflexivity.
Qed.

(** On a tensor that is exactly a superdiagonal-core model of its factors the
    core consistency is 100, with either normalisation. *)
Example core_consistency_of_exact_model :
  core_consistency svd_of_diagonal (None, [A_diag; A_diag; A_diag]) X_cube false
  = Ok (Fin (qz 100)) /\
  core_consistency svd_of_diagonal (None, [A_diag; A_diag; A_diag]) X_cube true
  = Ok (Fin (qz 100)).
Proof.
  split; vm_compute; do 2 f_equal; apply Qc_is_canon; vm_compute; reflexivity.
Qed.

(** The strided write on a 3 by 3 by 3 array of zeros: ones at the offsets 0,
    13 and 26. *)
Example fill_diagonal_cube :
  fill_diagonal (np_zeros [3; 3; 3]) 1%Qc
  = Ok (mk_ndarray [3; 3; 3]
          (map (fun p => if (p =? 0) || (p =? 13) || (p =? 26) then 1%Qc else 0%Qc)
             (seq 0 27))).
Proof. reflexivity. Qed.


Ltac qc_eq := apply Qc_is_canon; vm_compute; reflexivity.

Lemma np_div_finite x y : y <> 0%Qc -> np_div x y = Fin (x / y)%Qc.
Proof.
  intros Hy. unfold np_div. apply Qc_eqb_neq in Hy. rewrite Hy. reflexivity.
Qed.

Lemma np_div_zero x : is_finite (np_div x 0%Qc) = false.
Proof.
  unfold np_div. rewrite Qc_eqb_refl.
  destruct (Qc_eqb x 0); [reflexivity|]. destruct (Qc_ltb 0 x); reflexivity.
Qed.

(** ** Core consistency on a vanishing core *)

Lemma is_finite_np_rsub c v : is_finite (np_rsub c v) = is_finite v.
Proof. destruct v; reflexivity. Qed.

Lemma sum_sq_zero G : Forall (fun x => x = 0%Qc) (data G) -> sum_sq G = 0%Qc.
Proof.
  intros H. unfold sum_sq. apply sumQc_zero.
  apply Forall_forall. intros y Hy. apply in_map_iff in Hy as (x & <- & Hx).
  rewrite Forall_forall in H. rewrite (H x Hx). reflexivity.
Qed.

Lemma Qc_ltb_lt x y : Qc_ltb x y = true <-> (x < y)%Qc.
Proof.
  unfold Qc_ltb, Qclt. rewrite negb_true_iff. split.
  - intros H. apply Qnot_le_lt. intros Hle. apply Qle_bool_iff in Hle. congruence.
  - intros H. destruct (Qle_bool y x) eqn:E; [|reflexivity].
    apply Qle_bool_iff in E. exfalso. apply (Qlt_not_le _ _ H E).
Qed.

Lemma sumQc_nonneg l : Forall (fun x => (0 <= x)%Qc) l -> (0 <= sumQc l)%Qc.
Proof.
  induction 1 as [|x l Hx _ IH]; simpl.
  - apply Qcle_refl.
  - replace 0%Qc with (0 + 0)%Qc by ring. apply Qcplus_le_compat; assumption.
Qed.

Lemma sumQc_member l x :
  Forall (fun y => (0 <= y)%Qc) l -> In x l -> (x <= sumQc l)%Qc.
Proof.
  intros H. induction H as [|y l Hy Hl IH]; intros Hin; [contradiction|].
  simpl. destruct Hin as [->|Hin].
  - replace x with (x + 0)%Qc at 1 by ring.
    apply Qcplus_le_compat; [apply Qcle_refl | apply sumQc_nonneg; assumption].
  - replace x with (0 + x)%Qc by ring.
    apply Qcplus_le_compat; [assumption | apply IH; assumption].
Qed.

Lemma get_zero G idx : Forall (fun x => x = 0%Qc) (data G) -> get G idx = 0%Qc.
Proof.
  intros H. unfold get.
  destruct (nth_in_or_default (ravel (shape G) idx) (data G) 0%Qc) as [Hin | Heq];
    [|rewrite Heq; reflexivity].
  rewrite Forall_forall in H. apply H. assumption.
Qed.

(** The distance of a zero core to the superdiagonal tensor: positive when
    there is a component, zero when there is none. *)
Lemma sum_sq_diff_zero_core G R N :
  shape G = repeat R N -> 1 <= N ->
  Forall (fun x => x = 0%Qc) (data G) ->
  if R =? 0 then sum_sq_diff G (superdiagonal R N) = 0%Qc
  else (0 < sum_sq_diff G (superdiagonal R N))%Qc.
Proof.
  intros HsG HN Hzero. unfold sum_sq_diff. rewrite HsG.
  destruct (Nat.eqb_spec R 0) as [->|HR].
  - destruct N as [|N]; [lia|]. reflexivity.
  - assert (Hterm : forall idx, in_bounds (repeat R N) idx ->
              ((get G idx - get (superdiagonal R N) idx) ^ 2)%Qc
              = if all_same idx then 1%Qc else 0%Qc).
    { intros idx Hin. rewrite (@get_zero G idx Hzero). unfold superdiagonal.
      rewrite get_tabulate by assumption. destruct (all_same idx); simpl; ring. }
    apply Qclt_le_trans with (y := 1%Qc); [reflexivity|].
    assert (Hin0 : in_bounds (repeat R N) (repeat 0 N))
      by (apply in_bounds_repeat; lia).
    replace 1%Qc
      with ((get G (repeat 0%nat N) - get (superdiagonal R N) (repeat 0%nat N)) ^ 2)%Qc
      by (rewrite Hterm by assumption; rewrite all_same_repeat; reflexivity).
    apply sumQc_member.
    + apply Forall_forall. intros y Hy. apply in_map_iff in Hy as (idx & <- & Hidx).
      apply indices_in_bounds in Hidx. rewrite Hterm by assumption.
      destruct (all_same idx); discriminate.
    + apply (in_map (fun idx => ((get G idx - get (superdiagonal R N) idx) ^ 2)%Qc)).
      apply indices_in_bounds. assumption.
Qed.

Lemma np_div_by_zero x :
  np_div x 0%Qc = if Qc_eqb x 0 then NaN else if Qc_ltb 0 x then PInf else NInf.
Proof. unfold np_div. rewrite Qc_eqb_refl. reflexivity. Qed.

(** The call on the values, when the estimated core is entirely zero. *)
Lemma zero_core_value
  (svd : ndarray -> result svd_triple) (weights : option ndarray)
  (A0 : ndarray) (rest : list ndarray) (svds : list svd_triple) (X : ndarray)
  (R : nat) (G : ndarray) :
  2 <= length (A0 :: rest) ->
  Forall (fun A => ncols A = R) (A0 :: rest) ->
  (forall w, weights = Some w -> length (data w) = R) ->
  dense X -> shape X = map nrows (A0 :: rest) ->
  map_result svd (scale_columns weights A0 :: rest) = Ok svds ->
  Forall2 reduced_svd (scale_columns weights A0 :: rest) svds ->
  estimate_core_tensor svd (scale_columns weights A0 :: rest) X = Ok G ->
  Forall (fun x => x = 0%Qc) (data G) ->
  exists v,
    core_consistency svd (weights, A0 :: rest) X true = Ok v /\
    is_finite v = false /\
    np_sum (np_square G) = 0%Qc /\
    v = if R =? 0 then NaN else NInf.
Proof.
  intros HN Hcols Hw HdX HsX Hsvd HF HG Hzero.
  destruct (@estimated_core svd weights A0 rest svds X R Hcols HdX HsX Hsvd HF)
    as (G' & Hrun & _ & HsG & _ & HA0 & Hnd).
  assert (G' = G) by congruence. subst G'.
  assert (Hcc : core_consistency svd (weights, A0 :: rest) X true
                = Ok (core_consistency_value G R (ndim X) true))
    by (eapply core_consistency_run; eauto; lia).
  unfold core_consistency_value in Hcc. rewrite (@sum_sq_zero G Hzero) in Hcc.
  assert (Hv : np_rsub (Q2Qc 100)
                 (np_div (Q2Qc 100 * sum_sq_diff G (superdiagonal R (ndim X)))%Qc 0%Qc)
               = if R =? 0 then NaN else NInf).
  { pose proof (@sum_sq_diff_zero_core G R (ndim X) HsG) as Hd.
    specialize (Hd ltac:(lia) Hzero). rewrite np_div_by_zero.
    destruct (R =? 0).
    - rewrite Hd. reflexivity.
    - assert (Hpos : (0 < Q2Qc 100 * sum_sq_diff G (superdiagonal R (ndim X)))%Qc).
      { replace 0%Qc with (0 * Q2Qc 100)%Qc by ring.
        rewrite (Qcmult_comm (Q2Qc 100)).
        apply Qcmult_lt_compat_r; [reflexivity | assumption]. }
      assert (Hne : Qc_eqb (Q2Qc 100 * sum_sq_diff G (superdiagonal R (ndim X))) 0
                    = false).
      { apply Qc_eqb_neq. intros Heq. rewrite Heq in Hpos.
        apply (Qclt_not_eq _ _ Hpos). reflexivity. }
      rewrite Hne. apply Qc_ltb_lt in Hpos. rewrite Hpos. reflexivity. }
  rewrite Hv in Hcc.
  eexists. split; [exact Hcc|]. split; [destruct (R =? 0); reflexivity|].
  split; [|reflexivity]. rewrite np_sum_square. apply sum_sq_zero. assumption.
Qed.

(** C9 (amended).  On a well-formed call of at least two modes with
    [normalised=True] whose estimated core is entirely zero, [core_consistency]
    raises nothing and returns a value that is not finite: the denominator is
    zero, and the call returns minus infinity, or NaN when the model has no
    component.  Well-formed: the factor matrices all have [R] columns, the
    weights are absent or [R] numbers of an element type that the in-place
    product with the first factor matrix accepts, [X] is dense with one axis
    per factor matrix, as long as that matrix's rows, and the factor matrices
    have reduced decompositions. *)
Theorem core_consistency_zero_core
  (svd : ndarray -> result svd_triple) (weights : option typed_array)
  (A0 : typed_array) (rest : list typed_array) (svds : list svd_triple)
  (X : ndarray) (R : nat) (G : ndarray) :
  2 <= length (A0 :: rest) ->
  Forall (fun A => ncols (array_of A) = R) (A0 :: rest) ->
  (forall w, weights = Some w ->
     length (data (array_of w)) = R /\
     can_cast_same_kind (result_type (dtype_of A0) (dtype_of w)) (dtype_of A0) = true) ->
  dense X -> shape X = map nrows (map array_of (A0 :: rest)) ->
  map_result svd
    (scale_columns (option_map array_of weights) (array_of A0) :: map array_of rest)
  = Ok svds ->
  Forall2 reduced_svd
    (scale_columns (option_map array_of weights) (array_of A0) :: map array_of rest)
    svds ->
  estimate_core_tensor svd
    (scale_columns (option_map array_of weights) (array_of A0) :: map array_of rest) X
  = Ok G ->
  Forall (fun x => x = 0%Qc) (data G) ->
  exists v,
    core_consistency_typed svd (weights, A0 :: rest) X true = Ok v /\
    is_finite v = false /\
    np_sum (np_square G) = 0%Qc /\
    v = if R =? 0 then NaN else NInf.
Proof.
  intros HN Hcols Hw HdX HsX Hsvd HF HG Hzero.
  assert (Hcols' : Forall (fun A => ncols A = R) (array_of A0 :: map array_of rest)).
  { change (array_of A0 :: map array_of rest) with (map array_of (A0 :: rest)).
    apply Forall_map. exact Hcols. }
  assert (Hw' : forall v, option_map array_of weights = Some v -> length (data v) = R).
  { intros v Hv. destruct weights as [w|]; [|discriminate].
    injection Hv as <-. apply (Hw w eq_refl). }
  assert (HN' : 2 <= length (array_of A0 :: map array_of rest))
    by (simpl; rewrite length_map; exact HN).
  rewrite core_consistency_typed_values.
  - unfold values_of. simpl fst. simpl snd. simpl map.
    exact (@zero_core_value svd (option_map array_of weights) (array_of A0)
             (map array_of rest) svds X R G HN' Hcols' Hw' HdX HsX Hsvd HF HG Hzero).
  - intros w A Hweights HA. injection HA as <-. apply (Hw w Hweights).
Qed.

Lemma core_consistency_zero_core_witness :
  exists v,
    core_consistency_typed svd_of_diagonal
      (None, as_float A_diag :: [as_float A_diag]) X_null true = Ok v /\
    is_finite v = false /\
    np_sum (np_square X_null) = 0%Qc /\
    v = if 2 =? 0 then NaN else NInf.
Proof.
  apply (@core_consistency_zero_core svd_of_diagonal None (as_float A_diag)
           [as_float A_diag]
           (svds_of (scale_columns None A_diag :: [A_diag])) X_null 2 X_null).
  - simpl. lia.
  - repeat constructor.
  - discriminate.
  - reflexivity.
  - reflexivity.
  - reflexivity.
  - reduced_svds.
  - vm_compute. reflexivity.
  - repeat constructor.
Defined.

(** C9 (as stated) fails on a CP tensor of one mode: the estimated core of
    the zero vector is entirely zero, and with [normalised=True] the call
    raises where [np.fill_diagonal] refuses an array of fewer than two axes,
    before any division. *)
Lemma one_mode_zero_core_raises :
  estimate_core_tensor svd_of_diagonal [A_diag] (vector [0; 0]%Z)
  = Ok (vector [0; 0]%Z) /\
  Forall (fun x => x = 0%Qc) (data (vector [0; 0]%Z)) /\
  np_sum (np_square (vector [0; 0]%Z)) = 0%Qc /\
  core_consistency_typed svd_of_diagonal (None, [as_float A_diag]) (vector [0; 0]%Z) true
  = Raise (ValueError "array must be at least 2-d") /\
  core_consistency svd_of_diagonal (None, [A_diag]) (vector [0; 0]%Z) true
  = Raise (ValueError "array must be at least 2-d").
Proof.
  split; [vm_compute; reflexivity|]. split; [repeat constructor|].
  split; [apply Qc_is_canon; vm_compute; reflexivity|].
  split; vm_compute; reflexivity.
Qed.

(** ** Reconstruction error *)

(** C3 (the code at the failing input).  [relative_sse] never reads its third
    argument: whatever the caller supplies, the denominator is the sum of the
    squares of [X], computed anew.  For the rank-one model above and [X_off],
    whose squares sum to 2, with 4 supplied as the precomputed sum the call
    returns [1/2], the error 1 divided by 2, and not [1/4]. *)
Theorem relative_sse_ignores_supplied_sum :
  (forall construct cp X s1 s2,
      relative_sse construct cp X s1 = relative_sse construct cp X s2) /\
  sse dense_from_cp cp_rank1 X_off = Ok (qz 1) /\
  np_sum (np_square X_off) = qz 2 /\
  relative_sse dense_from_cp cp_rank1 X_off (Some (qz 4)) = Ok (Fin (qz 1 / qz 2)%Qc) /\
  np_div (qz 1) (qz 4) <> Fin (qz 1 / qz 2)%Qc.
Proof.
  split; [reflexivity|].
  assert (Hsse : sse dense_from_cp cp_rank1 X_off = Ok (qz 1))
    by (vm_compute; f_equal; qc_eq).
  assert (Hss : np_sum (np_square X_off) = qz 2) by qc_eq.
  split; [assumption|]. split; [assumption|]. split.
  - unfold relative_sse. rewrite Hsse, Hss. reflexivity.
  - rewrite np_div_finite by (apply Qc_eqb_neq; vm_compute; reflexivity).
    intros H.
    apply (f_equal (fun v => match v with Fin q => Qden (this q) | _ => 1%positive end)) in H.
    vm_compute in H. discriminate.
Qed.

(** C7.  When the squares of [X] do not sum to zero and the error of the
    model is [e], [relative_sse] is [e] over that sum and [fit] is one minus
    it, whatever is passed as the precomputed sum; when the model
    reconstructs [X] exactly ([e = 0]), [relative_sse] is 0 and [fit] is 1. *)
Theorem fit_is_one_minus_relative_sse
  (construct : cp_tensor -> result ndarray) (cp : cp_tensor) (X : ndarray)
  (sum_squared_X : option Qc) (e : Qc) :
  np_sum (np_square X) <> 0%Qc ->
  sse construct cp X = Ok e ->
  relative_sse construct cp X sum_squared_X = Ok (Fin (e / np_sum (np_square X))%Qc) /\
  fit construct cp X sum_squared_X = Ok (Fin (1 - e / np_sum (np_square X))%Qc) /\
  (e = 0%Qc ->
   relative_sse construct cp X sum_squared_X = Ok (Fin 0%Qc) /\
   fit construct cp X sum_squared_X = Ok (Fin 1%Qc)).
Proof.
  intros Hss Hsse.
  assert (Hrel : relative_sse construct cp X sum_squared_X
                 = Ok (Fin (e / np_sum (np_square X))%Qc)).
  { unfold relative_sse. rewrite Hsse. simpl bind. f_equal.
    apply np_div_finite. assumption. }
  assert (Hfit : fit construct cp X sum_squared_X
                 = Ok (Fin (1 - e / np_sum (np_square X))%Qc)).
  { unfold fit. rewrite Hrel. reflexivity. }
  repeat split; try assumption.
  - rewrite Hrel. subst e. do 2 f_equal; try (field; assumption).
  - rewrite Hfit. subst e. do 2 f_equal; try (field; assumption).
Qed.

Lemma fit_is_one_minus_relative_sse_witness :
  relative_sse dense_from_cp cp_rank1 X_exact None
  = Ok (Fin (0 / np_sum (np_square X_exact))%Qc) /\
  fit dense_from_cp cp_rank1 X_exact None
  = Ok (Fin (1 - 0 / np_sum (np_square X_exact))%Qc) /\
  (0%Qc = 0%Qc ->
   relative_sse dense_from_cp cp_rank1 X_exact None = Ok (Fin 0%Qc) /\
   fit dense_from_cp cp_rank1 X_exact None = Ok (Fin 1%Qc)).
Proof.
  apply (@fit_is_one_minus_relative_sse dense_from_cp cp_rank1 X_exact None 0%Qc).
  - apply Qc_eqb_neq. vm_compute. reflexivity.
  - vm_compute. reflexivity.
Defined.

(** ** Classification accuracy *)

(** C8.  [classification_accuracy] first fits the classifier.  When the fit
    raises, so does the call.  When the fit leaves the classifier in state
    [fitted]: without a metric the call returns what the classifier's own
    [score] returns on the factor matrix and the labels in that state; with a
    metric it returns the metric of the labels and of what [predict] returns
    on the factor matrix in that state. *)
Theorem classification_accuracy_fits_then_scores
  (S L : Type) (C : Classifier S L) (factor_matrix : ndarray) (labels : L)
  (classifier : S) :
  (forall e metric,
      clf_fit classifier factor_matrix labels = Raise e ->
      classification_accuracy factor_matrix labels classifier metric = Raise e) /\
  (forall fitted,
      clf_fit classifier factor_matrix labels = Ok fitted ->
      classification_accuracy factor_matrix labels classifier None
      = clf_score fitted factor_matrix labels /\
      (forall metric predicted after,
          clf_predict fitted factor_matrix = Ok (predicted, after) ->
          classification_accuracy factor_matrix labels classifier (Some metric)
          = (v <- metric labels predicted ;; Ok (v, after))) /\
      (forall metric e,
          clf_predict fitted factor_matrix = Raise e ->
          classification_accuracy factor_matrix labels classifier (Some metric)
          = Raise e)).
Proof.
  split.
  - intros e metric Hfit. unfold classification_accuracy. rewrite Hfit. reflexivity.
  - intros fitted Hfit. unfold classification_accuracy. rewrite Hfit. simpl bind.
    repeat split.
    + intros metric predicted after Hp. rewrite Hp. reflexivity.
    + intros metric e Hp. rewrite Hp. reflexivity.
Qed.

Lemma classification_accuracy_fits_then_scores_witness :
  classification_accuracy (matrix 3 1 [1; 0; 2]%Z) [1; 1; 0] None None
  = clf_score (Some 1) (matrix 3 1 [1; 0; 2]%Z) [1; 1; 0] /\
  classification_accuracy (matrix 3 1 [1; 0; 2]%Z) [1; 1; 0] None (Some accuracy_metric)
  = (v <- accuracy_metric [1; 1; 0] [1; 1; 1] ;; Ok (v, Some 1)).
Proof.
  destruct (classification_accuracy_fits_then_scores majority_classifier
              (matrix 3 1 [1; 0; 2]%Z) [1; 1; 0] None) as [_ H].
  destruct (H (Some 1) eq_refl) as (Hscore & Hmetric & _).
  split.
  - exact Hscore.
  - exact (Hmetric accuracy_metric [1; 1; 1] (Some 1) eq_refl).
Defined.

(** ** Percentage variation *)

Lemma percentage_variation_raises cp X method :
  exists e, percentage_variation cp X method = Raise e /\ construction_error e.
Proof.
  destruct cp as [weights [|factor0 rest]]; simpl.
  - eexists; split; [reflexivity | constructor].
  - destruct (shape_at factor0 1) as [rank|e] eqn:Hrank; simpl.
    + destruct weights as [w|]; simpl.
      * destruct (data w) as [|x [|y l]] eqn:Hw; simpl.
        -- eexists; split; [reflexivity | constructor].
        -- destruct (negb (Qc_eqb x 0)); simpl.
           ++ destruct (np_reshape w [rank; 1]) as [column|e] eqn:Hr; simpl.
              ** eexists; split; [reflexivity | constructor].
              ** unfold np_reshape in Hr.
                 destruct (length (data w) =? size_of [rank; 1]); inversion Hr.
                 eexists; split; [reflexivity | constructor].
           ++ eexists; split; [reflexivity | constructor].
        -- eexists; split; [reflexivity | constructor].
      * eexists; split; [reflexivity | constructor].
    + unfold shape_at in Hrank. destruct (nth_error (shape factor0) 1); inversion Hrank.
      eexists; split; [reflexivity | constructor].
Qed.

(** C4 (the code on every input).  [percentage_variation] returns no value:
    whatever the CP tensor, the data tensor and the method, the call raises
    while it builds the initial cross-product matrix.  On the rank-one model
    above with [method="model"], where the fraction [[1]] is expected, it
    raises the TypeError of [np.ones]. *)
Theorem percentage_variation_never_returns :
  (forall cp X method v, percentage_variation cp X method <> Ok v) /\
  percentage_variation cp_rank1 (Some X_exact) "model" = Raise (TypeError not_a_dtype) /\
  percentage_variation (Some (vector [2]%Z), snd cp_rank1) (Some X_exact) "model"
  = Raise (NameError "name 'weight' is not defined").
Proof.
  split; [|split; reflexivity].
  intros cp X method v H.
  destruct (percentage_variation_raises cp X method) as (e & He & _).
  congruence.
Qed.

(** C5.  When the weights are [None] and the first factor is a matrix,
    [percentage_variation] raises the TypeError of [np.ones(rank, rank)],
    whatever the data tensor and the method: the call reaches neither the
    method dispatch, nor a return value, nor the missing-dataset error, nor the
    invalid-method error. *)
Theorem percentage_variation_without_weights
  (factor0 : ndarray) (rest : list ndarray) (m rank : nat)
  (X : option ndarray) (method : string) :
  shape factor0 = [m; rank] ->
  percentage_variation (None, factor0 :: rest) X method = Raise (TypeError not_a_dtype) /\
  np_ones [rank] (dtype_int rank) = Raise (TypeError not_a_dtype) /\
  TypeError not_a_dtype <> TypeError dataset_required /\
  TypeError not_a_dtype <> ValueError method_invalid.
Proof.
  intros Hs. repeat split.
  - unfold percentage_variation. simpl bind. unfold shape_at. rewrite Hs. reflexivity.
  - discriminate.
  - discriminate.
Qed.

Lemma percentage_variation_without_weights_witness :
  percentage_variation (None, matrix 2 1 [1; 0]%Z :: [matrix 2 1 [1; 0]%Z]) None "data"
  = Raise (TypeError not_a_dtype) /\
  np_ones [1] (dtype_int 1) = Raise (TypeError not_a_dtype) /\
  TypeError not_a_dtype <> TypeError dataset_required /\
  TypeError not_a_dtype <> ValueError method_invalid.
Proof.
  apply (@percentage_variation_without_weights
           (matrix 2 1 [1; 0]%Z) [matrix 2 1 [1; 0]%Z] 2 1 None "data").
  reflexivity.
Defined.

(** C6 (the code on every input).  The invalid-method error is never raised:
    no call of [percentage_variation] ends in the ValueError that names the
    allowed methods.  With [method="bogus"] the call on the rank-one model
    raises the TypeError of [np.ones]. *)
Theorem percentage_variation_invalid_method_unreached :
  (forall cp X method,
      percentage_variation cp X method <> Raise (ValueError method_invalid)) /\
  percentage_variation cp_rank1 (Some X_exact) "bogus" = Raise (TypeError not_a_dtype).
Proof.
  split; [|reflexivity].
  intros cp X method H.
  destruct (percentage_variation_raises cp X method) as (e & He & Hc).
  rewrite He in H. injection H as ->. inversion Hc.
Qed.

(** ** The store only grows, and the call computes what the value-level
    definitions compute *)

Module StoreFacts.

Import Store.

Lemma points_grows st l r v : points st r v -> points (st ++ l) r v.
Proof.
  unfold points. intros H. rewrite nth_error_app1; [assumption|].
  apply nth_error_Some. congruence.
Qed.

Lemma points_nth st r v : points st r v -> nth r st no_array = v.
Proof. unfold points. intros H. apply nth_error_nth. assumption. Qed.

Ltac new_points :=
  unfold points; cbn [fst snd]; rewrite ?length_app; simpl length;
  rewrite nth_error_app2 by lia;
  match goal with
  | |- nth_error _ ?n = _ =>
      first [ replace n with 0 by lia
            | replace n with 1 by lia
            | replace n with 2 by lia ]
  end;
  reflexivity.

Lemma points_new st v l : points (st ++ v :: l) (length st) v.
Proof.
  unfold points. rewrite nth_error_app2 by lia. rewrite Nat.sub_diag. reflexivity.
Qed.

Lemma sim_rebase {A B : Type} base l (out : result A * store) (p : result B) R :
  sim_from (base ++ l) out p R -> sim_from base out p R.
Proof.
  intros (locals & Hs & H). exists (l ++ locals). rewrite app_assoc. auto.
Qed.

Lemma sim_ret {A B : Type} st (a : A) (b : B) (R : A -> B -> store -> Prop) :
  R a b st -> sim_from st (Ok a, st) (Ok b) R.
Proof. intros H. exists []. rewrite app_nil_r. auto. Qed.

Lemma sim_raise {A B : Type} st e (R : A -> B -> store -> Prop) :
  sim_from st (@Raise A e, st) (@Raise B e) R.
Proof. exists []. rewrite app_nil_r. simpl. auto. Qed.

Lemma sim_bind {A B A' B' : Type} st (c : M A) (k : A -> M A')
  (p : result B) (k' : B -> result B') R R' :
  sim_from st (c st) p R ->
  (forall a b l, R a b (st ++ l) ->
                 sim_from (st ++ l) (k a (st ++ l)) (k' b) R') ->
  sim_from st (mbind c k st) (bind p k') R'.
Proof.
  intros (locals & Hs & H) Hk. unfold mbind.
  destruct (c st) as [[a|e] st'] eqn:Hc; simpl in *; subst st'.
  - destruct p as [b|e']; [|contradiction]. simpl.
    apply sim_rebase with (l := locals). apply Hk. assumption.
  - destruct p as [b|e']; [contradiction|]. subst e'. simpl.
    exists locals. simpl. auto.
Qed.

Lemma sim_lift {A A' B' : Type} st (c : result A) (k : A -> M A')
  (k' : A -> result B') (R' : A' -> B' -> store -> Prop) :
  (forall a, c = Ok a -> sim_from st (k a st) (k' a) R') ->
  sim_from st (mbind (lift c) k st) (bind c k') R'.
Proof.
  intros Hk. unfold mbind, lift. destruct c as [a|e]; simpl.
  - apply Hk. reflexivity.
  - apply sim_raise.
Qed.

Lemma sim_lift_at {A A' B' : Type} base l (c : result A) (k : A -> M A')
  (k' : A -> result B') (R' : A' -> B' -> store -> Prop) :
  (forall a, c = Ok a -> sim_from base (k a (base ++ l)) (k' a) R') ->
  sim_from base (mbind (lift c) k (base ++ l)) (bind c k') R'.
Proof.
  intros Hk. unfold mbind, lift. destruct c as [a|e]; simpl.
  - apply Hk. reflexivity.
  - exists l. simpl. auto.
Qed.

Lemma triple_points_grows t tv st l :
  triple_points t tv st -> triple_points t tv (st ++ l).
Proof. intros (H1 & H2 & H3). repeat split; apply points_grows; assumption. Qed.

Lemma sim_st_map {A A' B B' : Type} (f : A -> M B) (g : A' -> result B')
  (Q : A -> A' -> store -> Prop) (R : B -> B' -> store -> Prop) :
  (forall x x' st l, Q x x' st -> Q x x' (st ++ l)) ->
  (forall y y' st l, R y y' st -> R y y' (st ++ l)) ->
  (forall x x' st, Q x x' st -> sim_from st (f x st) (g x') R) ->
  forall xs xs' st,
    Forall2 (fun x x' => Q x x' st) xs xs' ->
    sim_from st (st_map f xs st) (map_result g xs')
      (fun ys ys' st' => Forall2 (fun y y' => R y y' st') ys ys').
Proof.
  intros HQ HR Hf. induction xs as [|x xs IH]; intros xs' st HF;
    inversion HF as [|x0 x' l1 xs0' Hx Hxs]; subst; simpl.
  - apply sim_ret. constructor.
  - apply sim_bind with (R := R); [apply Hf; assumption|].
    intros y y' l Hy.
    apply sim_bind
      with (R := fun ys ys' st' => Forall2 (fun y y' => R y y' st') ys ys').
    + apply IH. eapply Forall2_impl; [|exact Hxs]. intros a b. apply HQ.
    + intros ys ys' l' Hys. apply sim_ret.
      constructor; [apply HR; assumption | assumption].
Qed.

Lemma sim_st_for_each {A A' : Type} (body : ref -> A -> M ref)
  (body' : ndarray -> A' -> result ndarray) (Q : A -> A' -> store -> Prop) :
  (forall x x' st l, Q x x' st -> Q x x' (st ++ l)) ->
  (forall x x' acc accv st,
      Q x x' st -> points st acc accv ->
      sim_from st (body acc x st) (body' accv x') (fun r v st' => points st' r v)) ->
  forall xs xs' st acc accv,
    Forall2 (fun x x' => Q x x' st) xs xs' ->
    points st acc accv ->
    sim_from st (st_for_each xs body acc st) (for_each xs' body' accv)
      (fun r v st' => points st' r v).
Proof.
  intros HQ Hbody. induction xs as [|x xs IH]; intros xs' st acc accv HF Hacc;
    inversion HF as [|x0 x' l1 xs0' Hx Hxs]; subst; simpl.
  - apply sim_ret. assumption.
  - apply sim_bind with (R := fun r v st' => points st' r v);
      [apply Hbody; assumption|].
    intros r v l Hr. apply IH; [|assumption].
    eapply Forall2_impl; [|exact Hxs]. intros a b. apply HQ.
Qed.

Lemma Forall2_rev_both {A B : Type} (P : A -> B -> Prop) l1 l2 :
  Forall2 P l1 l2 -> Forall2 P (rev l1) (rev l2).
Proof.
  induction 1; simpl; [constructor|].
  apply Forall2_app; [assumption | repeat constructor; assumption].
Qed.

Section Simulation.

Variable svd : ndarray -> result svd_triple.

Lemma sim_svd_call st f a :
  points st f a ->
  sim_from st (svd_call svd f st) (svd a) triple_points.
Proof.
  intros Hf. unfold svd_call, mbind, read, lift, alloc, ret.
  rewrite (points_nth Hf).
  destruct (svd a) as [t|e]; [|apply sim_raise].
  exists [svd_U t; svd_s t; svd_Vh t]. simpl. rewrite <- !app_assoc. simpl.
  split; [reflexivity|].
  repeat split; new_points.
Qed.

Lemma run_read {A : Type} r (k : ndarray -> M A) st :
  mbind (read r) k st = k (nth r st no_array) st.
Proof. reflexivity. Qed.

Lemma run_alloc {A : Type} v (k : ref -> M A) st :
  mbind (alloc v) k st = k (length st) (st ++ [v]).
Proof. reflexivity. Qed.

Lemma run_write {A : Type} r v (k : unit -> M A) st :
  mbind (write r v) k st = k tt (replace_at r v st).
Proof. reflexivity. Qed.

Ltac step :=
  first [rewrite run_read | rewrite run_alloc | rewrite run_write]; cbv beta.

Lemma sim_tensordot_call st a X xv :
  points st X xv ->
  sim_from st (tensordot_call a X st) (tensordot_last a xv) points_rel.
Proof.
  intros HX. unfold tensordot_call, mbind, read, lift, alloc.
  rewrite (points_nth HX).
  destruct (tensordot_last a xv) as [r|e]; [|apply sim_raise].
  exists [r]. split; [reflexivity | apply points_new].
Qed.

Lemma sim_pinv_body st t tv X xv :
  triple_points t tv st -> points st X xv ->
  sim_from st
    ((s <~ read (snd (fst t)) ;;
      s_pinv <~ alloc s ;;
      v <~ read s_pinv ;;
      let mask := ne_zero_mask v in
      let selected := boolean_index (data v) mask in
      let inverted := reciprocal selected in
      v <~ read s_pinv ;;
      _ <~ write s_pinv
             (mk_ndarray (shape v) (masked_assign (data v) mask inverted)) ;;
      v <~ read s_pinv ;;
      d <~ lift (np_diag v) ;;
      D <~ alloc d ;;
      d <~ read D ;;
      tensordot_call d X) st)
    (D <- np_diag (s_pinv_of (svd_s tv)) ;; tensordot_last D xv)
    points_rel.
Proof.
  intros (_ & Hs & _) HX.
  step. rewrite (points_nth Hs).
  step. step. rewrite nth_middle. cbv zeta.
  step. rewrite nth_middle.
  step. rewrite replace_at_middle.
  step. rewrite nth_middle.
  change (mk_ndarray (shape (svd_s tv))
            (masked_assign (data (svd_s tv)) (ne_zero_mask (svd_s tv))
               (reciprocal (boolean_index (data (svd_s tv)) (ne_zero_mask (svd_s tv))))))
    with (s_pinv_of (svd_s tv)).
  apply sim_rebase with (l := [s_pinv_of (svd_s tv)]).
  apply sim_lift. intros d Hd.
  step. step. rewrite nth_middle.
  apply sim_rebase with (l := [d]).
  apply sim_tensordot_call. do 2 apply points_grows. assumption.
Qed.

Lemma sim_estimate st factors fvals X xv :
  Forall2 (points st) factors fvals ->
  points st X xv ->
  sim_from st (call_estimate_core_tensor svd factors X st)
    (estimate_core_tensor svd fvals xv) points_rel.
Proof.
  intros HF HX. unfold call_estimate_core_tensor, estimate_core_tensor.
  apply sim_bind
    with (R := fun ys ys' st' => Forall2 (fun y y' => triple_points y y' st') ys ys').
  { apply sim_st_map with (Q := fun f a st => points st f a).
    - intros; apply points_grows; assumption.
    - intros; apply triple_points_grows; assumption.
    - intros; apply sim_svd_call; assumption.
    - assumption. }
  intros svds svdsv l Hsv.
  apply sim_bind with (R := points_rel).
  { apply sim_st_for_each with (Q := triple_points).
    - intros; apply triple_points_grows; assumption.
    - intros t [[U s] Vh] acc accv st' (HU & _) Hacc.
      unfold mbind, read. rewrite (points_nth HU).
      apply sim_tensordot_call. assumption.
    - apply Forall2_rev_both. assumption.
    - apply points_grows. assumption. }
  intros X1 x1 l1 HX1.
  assert (Hsv1 : Forall2 (fun y y' => triple_points y y' ((st ++ l) ++ l1)) svds svdsv).
  { eapply Forall2_impl; [|exact Hsv]. intros a b. apply triple_points_grows. }
  apply sim_bind with (R := points_rel).
  { apply sim_st_for_each with (Q := triple_points).
    - intros; apply triple_points_grows; assumption.
    - intros t [[U s] Vh] acc accv st' Ht Hacc.
      apply (@sim_pinv_body st' t (U, s, Vh) acc accv Ht Hacc).
    - apply Forall2_rev_both. assumption.
    - assumption. }
  intros X2 x2 l2 HX2.
  assert (Hsv2 : Forall2 (fun y y' => triple_points y y' (((st ++ l) ++ l1) ++ l2))
                   svds svdsv).
  { eapply Forall2_impl; [|exact Hsv1]. intros a b. apply triple_points_grows. }
  apply sim_bind with (R := points_rel).
  { apply sim_st_for_each with (Q := triple_points).
    - intros; apply triple_points_grows; assumption.
    - intros t [[U s] Vh] acc accv st' (_ & _ & HVh) Hacc.
      unfold mbind, read. rewrite (points_nth HVh).
      apply sim_tensordot_call. assumption.
    - apply Forall2_rev_both. assumption.
    - assumption. }
  intros X3 x3 l3 HX3.
  unfold mbind, read. rewrite (points_nth HX3).
  unfold ascontiguousarray. destruct (shape x3) eqn:Hs.
  - exists [mk_ndarray [1] (data x3)]. unfold alloc. simpl. split; [reflexivity|].
    apply points_new.
  - apply sim_ret. assumption.
Qed.

Lemma sim_core_consistency_copy st weights wv factor0 rest a0 restv X xv
  normalised rank :
  weights_at st weights wv ->
  points st factor0 a0 ->
  Forall2 (points st) rest restv ->
  points st X xv ->
  shape_at a0 1 = Ok rank ->
  sim_from (st ++ [copy_value wv a0])
    (call_core_consistency svd (weights, factor0 :: rest) X normalised st)
    (core_consistency svd (wv, a0 :: restv) xv normalised) same_value.
Proof.
  intros Hw Hf0 Hrest HX Hrank.
  unfold call_core_consistency, core_consistency.
  unfold mbind at 1. unfold lift at 1. cbv beta iota. simpl bind.
  step. rewrite (points_nth Hf0).
  unfold mbind at 1. unfold lift at 1. rewrite Hrank. cbv beta iota. simpl bind.
  step.
  (* the copy of the first factor, scaled in place when there are weights *)
  assert (Hscale :
    forall (k : unit -> M npfloat) (k' : ndarray -> result npfloat),
      (forall A', sim_from (st ++ [A']) (k tt (st ++ [A'])) (k' A') same_value) ->
      sim_from (st ++ [copy_value wv a0])
        (mbind (match weights with
                | Some w =>
                    wv0 <~ read w ;;
                    a <~ read (length st) ;;
                    scaled <~ lift (np_inplace Qcmult a (reshape_row wv0)) ;;
                    write (length st) scaled
                | None => ret tt
                end) k (st ++ [a0]))
        (bind (match wv with
               | Some w => np_inplace Qcmult a0 (reshape_row w)
               | None => Ok a0
               end) k') same_value).
  { intros k k' Hk. unfold weights_at in Hw.
    destruct weights as [w|], wv as [v|]; try contradiction; unfold copy_value.
    - unfold mbind at 1 2 3. unfold read. cbv beta iota.
      rewrite (points_nth (points_grows [a0] Hw)), nth_middle.
      unfold mbind, lift, write.
      destruct (np_inplace Qcmult a0 (reshape_row v)) as [scaled|e]; simpl bind.
      + rewrite replace_at_middle. apply Hk.
      + apply sim_raise.
    - unfold mbind, ret. simpl bind. apply Hk. }
  apply Hscale. intros A'. simpl tl.
  apply sim_bind with (R := points_rel).
  { apply sim_estimate.
    - constructor; [apply points_new|].
      eapply Forall2_impl; [|exact Hrest]. intros a b. apply points_grows.
    - apply points_grows. assumption. }
  intros G g l HG.
  step. rewrite (points_nth (points_grows l (points_grows [A'] HX))).
  step. step. rewrite nth_middle.
  apply sim_lift_at. intros filled Hfilled.
  step. rewrite replace_at_middle.
  step. rewrite (points_nth (points_grows [filled] HG)).
  step. rewrite nth_middle.
  unfold mbind, lift, ret.
  destruct (np_binop Qcminus g filled) as [D|e]; simpl bind.
  - exists [filled]. simpl. split; reflexivity.
  - exists [filled]. simpl. split; reflexivity.
Qed.

Lemma sim_core_consistency st weights wv factors fvals X xv normalised :
  weights_at st weights wv ->
  Forall2 (points st) factors fvals ->
  points st X xv ->
  sim_from st (call_core_consistency svd (weights, factors) X normalised st)
    (core_consistency svd (wv, fvals) xv normalised) same_value.
Proof.
  intros Hw HF HX.
  inversion HF as [|factor0 a0 rest restv Hf0 Hrest]; subst.
  { apply sim_raise. }
  destruct (shape_at a0 1) as [rank|e] eqn:Hrank.
  - apply sim_rebase with (l := [copy_value wv a0]).
    eapply sim_core_consistency_copy; eassumption.
  - unfold call_core_consistency, core_consistency.
    unfold mbind at 1. unfold lift at 1. cbv beta iota. simpl bind.
    step. rewrite (points_nth Hf0).
    unfold mbind at 1. unfold lift at 1. rewrite Hrank. simpl bind.
    apply sim_raise.
Qed.

Lemma sim_same_value {A : Type} base (out : result A * store) (p : result A) :
  sim_from base out p same_value ->
  fst out = p /\ exists locals, snd out = base ++ locals.
Proof.
  intros (locals & Hs & H). split; [|exists locals; assumption].
  destruct (fst out), p; try contradiction; unfold same_value in *; congruence.
Qed.

End Simulation.

End StoreFacts.

Section Frame.

Import Store StoreFacts.

(** The call on a caller's store: every array object of the caller is left
    as it was, whether the call returns or raises; the value or exception is
    that of the value-level [core_consistency] on the contents of the
    arguments; and when the first factor is a matrix, the array that is
    scaled is a new object, the first one the call creates. *)
Lemma core_consistency_frame svd st weights wv factors fvals X xv normalised :
  weights_at st weights wv ->
  Forall2 (points st) factors fvals ->
  points st X xv ->
  let out := Store.call_core_consistency svd (weights, factors) X normalised st in
  (exists locals, snd out = st ++ locals) /\
  (forall r v, points st r v -> points (snd out) r v) /\
  fst out = core_consistency svd (wv, fvals) xv normalised /\
  (forall a0 rank, hd_error fvals = Some a0 -> shape_at a0 1 = Ok rank ->
                   points (snd out) (length st) (copy_value wv a0)).
Proof.
  intros Hw HF HX out.
  destruct (sim_same_value
              (@sim_core_consistency svd st weights wv factors fvals X xv normalised
                 Hw HF HX))
    as (Hfst & locals & Hsnd).
  fold out in Hfst, Hsnd.
  repeat split.
  - exists locals. assumption.
  - intros r v Hr. rewrite Hsnd. apply points_grows. assumption.
  - assumption.
  - intros a0 rank Hhd Hrank.
    inversion HF as [|factor0 a0' rest restv Hf0 Hrest]; subst; [discriminate|].
    injection Hhd as ->.
    destruct (sim_same_value
                (@sim_core_consistency_copy svd st weights wv factor0 rest a0 restv
                   X xv normalised rank Hw Hf0 Hrest HX Hrank))
      as (_ & locals' & Hsnd').
    fold out in Hsnd'. rewrite Hsnd', <- app_assoc. apply points_new.
Qed.

End Frame.

(** C10.  On any store, with the weights, the factor matrices and the data
    tensor among its array objects: after the call, returned or raised, every
    array object that existed before it holds the value it held, so the
    caller's factor matrices, weights and data tensor do; the store has only
    grown by the arrays the call created; the weight scaling went to the first
    of those, a copy of the first factor matrix; and the call produced what the
    value-level [core_consistency] produces on the contents of its arguments. *)
Theorem core_consistency_leaves_arguments
  (svd : ndarray -> result svd_triple) (st : Store.store)
  (weights : option Store.ref) (wv : option ndarray)
  (factors : list Store.ref) (fvals : list ndarray)
  (X : Store.ref) (xv : ndarray) (normalised : bool) :
  Store.weights_at st weights wv ->
  Forall2 (Store.points st) factors fvals ->
  Store.points st X xv ->
  let out := Store.call_core_consistency svd (weights, factors) X normalised st in
  (exists locals, snd out = st ++ locals) /\
  (forall r v, Store.points st r v -> Store.points (snd out) r v) /\
  Store.weights_at (snd out) weights wv /\
  Forall2 (Store.points (snd out)) factors fvals /\
  Store.points (snd out) X xv /\
  fst out = core_consistency svd (wv, fvals) xv normalised /\
  (forall a0 rank, hd_error fvals = Some a0 -> shape_at a0 1 = Ok rank ->
                   Store.points (snd out) (length st) (Store.copy_value wv a0)).
Proof.
  intros Hw HF HX out.
  destruct (@core_consistency_frame svd st weights wv factors fvals X xv normalised
              Hw HF HX) as (Hgrow & Hkeep & Hval & Hcopy).
  fold out in Hgrow, Hkeep, Hval, Hcopy.
  repeat split; try assumption.
  - unfold Store.weights_at in *. destruct weights, wv; auto.
  - eapply Forall2_impl; [|exact HF]. intros a b. apply Hkeep.
  - apply Hkeep. assumption.
Qed.

Lemma core_consistency_leaves_arguments_witness :
  let out := Store.call_core_consistency svd_of_diagonal (Some 0, [1; 2; 3]) 4 true
               caller_store in
  (exists locals, snd out = caller_store ++ locals) /\
  (forall r v, Store.points caller_store r v -> Store.points (snd out) r v) /\
  Store.weights_at (snd out) (Some 0) (Some w_ex) /\
  Forall2 (Store.points (snd out)) [1; 2; 3] [A_diag; A_diag; A_sing] /\
  Store.points (snd out) 4 X_cube /\
  fst out = core_consistency svd_of_diagonal
              (Some w_ex, [A_diag; A_diag; A_sing]) X_cube true /\
  (forall a0 rank, hd_error [A_diag; A_diag; A_sing] = Some a0 ->
                   shape_at a0 1 = Ok rank ->
                   Store.points (snd out) (length caller_store)
                     (Store.copy_value (Some w_ex) a0)).
Proof.
  apply (@core_consistency_leaves_arguments svd_of_diagonal caller_store
           (Some 0) (Some w_ex) [1; 2; 3] [A_diag; A_diag; A_sing] 4 X_cube true).
  - reflexivity.
  - repeat constructor.
  - reflexivity.
Defined.

(** ** Axis lengths that do not match *)

Lemma tensordot_last_inv a b c :
  tensordot_last a b = Ok c ->
  exists R K sh, shape a = [R; K] /\ shape b = sh ++ [K].
Proof.
  unfold tensordot_last. intros H.
  destruct (shape a) as [|R [|K [|]]] eqn:Ha;
    destruct (rev (shape b)) as [|K' rsh] eqn:Hb; try discriminate.
  destruct (Nat.eqb_spec K K') as [<-|]; [|discriminate].
  exists R, K, (rev rsh). split; [reflexivity|].
  rewrite <- (rev_involutive (shape b)), Hb. reflexivity.
Qed.

Lemma tensordot_last_mismatch a b R K sh d :
  shape a = [R; K] -> shape b = sh ++ [d] -> K <> d ->
  tensordot_last a b = Raise (ValueError "shape-mismatch for sum").
Proof.
  intros Ha Hb Hne. unfold tensordot_last.
  rewrite Ha, Hb, rev_app_distr. simpl.
  destruct (Nat.eqb_spec K d); [contradiction | reflexivity].
Qed.

Lemma contraction_loop_mismatch Ms : forall KRs Rs Is X,
  Forall2 matrix_of_dims Ms KRs ->
  shape X = Rs ++ Is -> length Is = length KRs -> Is <> map fst KRs ->
  for_each (rev Ms) (fun X M => tensordot_last M X) X
  = Raise (ValueError "shape-mismatch for sum").
Proof.
  induction Ms as [|M Ms IH] using rev_ind; intros KRs Rs Is X HF HsX Hlen Hne.
  - inversion HF; subst. destruct Is; [exfalso; apply Hne; reflexivity | discriminate].
  - apply Forall2_app_inv_l in HF as (KRs1 & KRs2 & HF1 & HF2 & ->).
    inversion HF2 as [|M' [K R] l1 l2 HM Hnil]; subst. inversion Hnil; subst.
    unfold matrix_of_dims in HM. simpl in HM.
    rewrite length_app in Hlen. simpl in Hlen.
    destruct (exists_last (l := Is)) as (Is1 & d & ->);
      [intros ->; simpl in Hlen; lia|].
    rewrite length_app in Hlen. simpl in Hlen.
    rewrite rev_app_distr. simpl.
    rewrite app_assoc in HsX.
    destruct (Nat.eq_dec K d) as [<-|Hd].
    + rewrite (@tensordot_last_ok _ _ _ _ _ HM HsX). simpl bind.
      apply IH with (KRs := KRs1) (Rs := R :: Rs) (Is := Is1).
      * assumption.
      * reflexivity.
      * lia.
      * intros ->. apply Hne. rewrite map_app. reflexivity.
    + rewrite (@tensordot_last_mismatch _ _ _ _ _ _ HM HsX Hd). reflexivity.
Qed.

(** X1.  A data tensor with one axis per factor matrix is refused as soon as
    one axis has not the length of the rows of its factor matrix: when the
    decompositions have the shapes of reduced ones, [estimate_core_tensor]
    raises the ValueError of [np.tensordot], "shape-mismatch for sum", in its
    first loop. *)
Theorem estimate_core_tensor_shape_mismatch
  (svd : ndarray -> result svd_triple) (factors : list ndarray)
  (svds : list svd_triple) (X : ndarray) :
  map_result svd factors = Ok svds ->
  Forall2 reduced_svd factors svds ->
  ndim X = length factors ->
  shape X <> map nrows factors ->
  estimate_core_tensor svd factors X = Raise (ValueError "shape-mismatch for sum").
Proof.
  intros Hsvd HF Hnd Hne.
  assert (HF1 : Forall2 matrix_of_dims (map (fun t => transpose (svd_U t)) svds)
                  (map (fun A => (nrows A, Nat.min (nrows A) (ncols A))) factors)).
  { eapply Forall2_map_swap; [exact HF|]. intros A t (_ & HU & _).
    unfold matrix_of_dims; simpl. apply shape_transpose2. assumption. }
  unfold estimate_core_tensor. rewrite Hsvd. simpl bind.
  rewrite for_each_ext_in
    with (g := fun X t => tensordot_last (transpose (svd_U t)) X)
    by (intros [[U s] Vh] acc _; reflexivity).
  rewrite <- (for_each_map (fun t => transpose (svd_U t))
                (fun X M => tensordot_last M X)), map_rev.
  rewrite (@contraction_loop_mismatch _ _ [] (shape X) X HF1); try reflexivity.
  - rewrite length_map. exact Hnd.
  - rewrite map_map. simpl. exact Hne.
Qed.

Lemma estimate_core_tensor_shape_mismatch_witness :
  estimate_core_tensor svd_of_diagonal [A_diag; A_diag] X_wide
  = Raise (ValueError "shape-mismatch for sum").
Proof.
  apply (@estimate_core_tensor_shape_mismatch svd_of_diagonal [A_diag; A_diag]
           (svds_of [A_diag; A_diag]) X_wide).
  - reflexivity.
  - reduced_svds.
  - reflexivity.
  - discriminate.
Defined.

(** ** The inversion of the singular values, twice *)

Lemma Qcinv_ne_zero x : x <> 0%Qc -> (/ x)%Qc <> 0%Qc.
Proof.
  intros Hx H. assert (H1 : (x * / x = 1)%Qc) by (apply Qcmult_inv_r; assumption).
  rewrite H, Qcmult_0_r in H1. discriminate.
Qed.

Lemma pinv_pinv s : pinv (pinv s) = s.
Proof.
  destruct s as [sh d]. unfold pinv. simpl. f_equal.
  rewrite map_map. rewrite <- (map_id d) at 2. apply map_ext. intros x.
  destruct (Qc_eqb x 0) eqn:E.
  - rewrite Qc_eqb_refl. apply Qc_eqb_eq in E. congruence.
  - apply Qc_eqb_neq in E. pose proof (Qcinv_ne_zero E) as E'.
    apply Qc_eqb_neq in E'. rewrite E'. field. split; [assumption | discriminate].
Qed.

(** X2.  Lines 35-37 invert the non-zero entries of a copy of [s].  Applied
    twice they give [s] back; the shape is kept; and entry by entry the result
    [y] for an entry [x] satisfies [x y x = x] and [y x y = y], the identities
    of a pseudo-inverse, and is zero exactly when [x] is. *)
Theorem s_pinv_of_round_trip (s : ndarray) :
  s_pinv_of (s_pinv_of s) = s /\
  shape (s_pinv_of s) = shape s /\
  Forall2 (fun x y => (x * y * x = x /\ y * x * y = y)%Qc /\ (y = 0%Qc <-> x = 0%Qc))
    (data s) (data (s_pinv_of s)).
Proof.
  rewrite !s_pinv_of_pinv. split; [apply pinv_pinv|]. split; [reflexivity|].
  unfold pinv. simpl. induction (data s) as [|x l IH]; simpl; constructor; [|exact IH].
  destruct (Qc_eqb x 0) eqn:E.
  - apply Qc_eqb_eq in E. subst x. repeat split; ring.
  - apply Qc_eqb_neq in E. repeat split; try (field; assumption).
    + intros H. exfalso. exact (Qcinv_ne_zero E H).
    + intros H. contradiction.
Qed.

(** ** Linearity in the data tensor *)

Lemma shape_lincomb a X b Y : shape (lincomb a X b Y) = shape X.
Proof. reflexivity. Qed.

Lemma sum_range_lincomb K (m x y : nat -> Qc) a b :
  sum_range K (fun k => (m k * (a * x k + b * y k))%Qc)
  = (a * sum_range K (fun k => (m k * x k)%Qc)
     + b * sum_range K (fun k => (m k * y k)%Qc))%Qc.
Proof.
  unfold sum_range. rewrite !sumQc_map_scale, <- sumQc_map_plus.
  f_equal. apply map_ext. intros k. ring.
Qed.

Lemma tensordot_last_lincomb M X Y X' Y' a b :
  shape X = shape Y ->
  tensordot_last M X = Ok X' -> tensordot_last M Y = Ok Y' ->
  tensordot_last M (lincomb a X b Y) = Ok (lincomb a X' b Y') /\ shape X' = shape Y'.
Proof.
  intros Hs HX HY.
  destruct (tensordot_last_inv _ _ HX) as (R & K & sh & HM & HsX).
  assert (HsY : shape Y = sh ++ [K]) by congruence.
  rewrite (@tensordot_last_ok _ _ _ _ _ HM HsX) in HX.
  rewrite (@tensordot_last_ok _ _ _ _ _ HM HsY) in HY.
  injection HX as <-. injection HY as <-.
  split; [|reflexivity].
  rewrite (@tensordot_last_ok M (lincomb a X b Y) R K sh HM HsX).
  f_equal. unfold lincomb at 2. simpl shape. apply tabulate_ext.
  intros idx Hin. rewrite !get_tabulate by assumption.
  inversion Hin as [|r d rest sh' Hr Hrest]; subst.
  rewrite <- sum_range_lincomb. apply sum_range_ext. intros k Hk.
  unfold lincomb. rewrite get_tabulate; [reflexivity|].
  rewrite HsX. apply in_bounds_app; [assumption|]. repeat constructor. assumption.
Qed.

Lemma for_each_lincomb {T : Type} (mk : T -> result ndarray) a b l : forall X Y X' Y',
  shape X = shape Y ->
  for_each l (fun X t => M <- mk t ;; tensordot_last M X) X = Ok X' ->
  for_each l (fun X t => M <- mk t ;; tensordot_last M X) Y = Ok Y' ->
  for_each l (fun X t => M <- mk t ;; tensordot_last M X) (lincomb a X b Y)
  = Ok (lincomb a X' b Y') /\ shape X' = shape Y'.
Proof.
  induction l as [|t l IH]; intros X Y X' Y' Hs HX HY; simpl in *.
  - injection HX as <-. injection HY as <-. auto.
  - destruct (mk t) as [M|e]; simpl in *; [|discriminate].
    destruct (tensordot_last M X) as [X1|] eqn:E1; simpl in HX; [|discriminate].
    destruct (tensordot_last M Y) as [Y1|] eqn:E2; simpl in HY; [|discriminate].
    destruct (@tensordot_last_lincomb M X Y X1 Y1 a b Hs E1 E2) as [E Hs1].
    rewrite E. simpl. apply IH; assumption.
Qed.

Lemma ascontiguousarray_lincomb a X b Y :
  shape X = shape Y ->
  ascontiguousarray (lincomb a X b Y)
  = lincomb a (ascontiguousarray X) b (ascontiguousarray Y).
Proof.
  intros Hs. unfold ascontiguousarray. rewrite shape_lincomb, <- Hs.
  destruct (shape X) eqn:E; [|reflexivity].
  unfold lincomb, tabulate, get. rewrite E, <- Hs. simpl. reflexivity.
Qed.

Lemma estimate_core_tensor_loops svd factors X :
  estimate_core_tensor svd factors X
  = (svds <- map_result svd factors ;;
     X <- for_each (rev svds)
            (fun X t => M <- Ok (transpose (svd_U t)) ;; tensordot_last M X) X ;;
     X <- for_each (rev svds)
            (fun X t => M <- np_diag (s_pinv_of (svd_s t)) ;; tensordot_last M X) X ;;
     X <- for_each (rev svds)
            (fun X t => M <- Ok (transpose (svd_Vh t)) ;; tensordot_last M X) X ;;
     Ok (ascontiguousarray X)).
Proof.
  unfold estimate_core_tensor.
  destruct (map_result svd factors) as [svds|]; [|reflexivity]. simpl bind.
  rewrite for_each_ext_in
    with (g := fun X t => M <- Ok (transpose (svd_U t)) ;; tensordot_last M X)
    by (intros [[U s] Vh] acc _; reflexivity).
  destruct (for_each (rev svds) _ X) as [X1|]; [|reflexivity]. simpl bind.
  rewrite for_each_ext_in
    with (g := fun X t => M <- np_diag (s_pinv_of (svd_s t)) ;; tensordot_last M X)
    by (intros [[U s] Vh] acc _; reflexivity).
  destruct (for_each (rev svds) _ X1) as [X2|]; [|reflexivity]. simpl bind.
  rewrite for_each_ext_in
    with (g := fun X t => M <- Ok (transpose (svd_Vh t)) ;; tensordot_last M X)
    by (intros [[U s] Vh] acc _; reflexivity).
  reflexivity.
Qed.

Lemma shape_ascontiguousarray_eq X Y :
  shape X = shape Y -> shape (ascontiguousarray X) = shape (ascontiguousarray Y).
Proof.
  intros Hs. unfold ascontiguousarray. rewrite <- Hs.
  destruct (shape X) eqn:E; [reflexivity | congruence].
Qed.

Lemma estimate_core_tensor_lincomb svd factors X Y GX GY a b :
  shape X = shape Y ->
  estimate_core_tensor svd factors X = Ok GX ->
  estimate_core_tensor svd factors Y = Ok GY ->
  estimate_core_tensor svd factors (lincomb a X b Y) = Ok (lincomb a GX b GY) /\
  shape GX = shape GY.
Proof.
  intros Hs. rewrite !estimate_core_tensor_loops.
  destruct (map_result svd factors) as [svds|]; simpl bind; [|discriminate].
  intros HX HY.
  destruct (for_each (rev svds) _ X) as [X1|] eqn:EX1; simpl bind in HX; [|discriminate].
  destruct (for_each (rev svds) _ Y) as [Y1|] eqn:EY1; simpl bind in HY; [|discriminate].
  destruct (@for_each_lincomb _ (fun t => Ok (transpose (svd_U t))) a b (rev svds)
              X Y X1 Y1 Hs EX1 EY1) as [E1 Hs1].
  simpl bind in E1. rewrite E1. simpl bind.
  destruct (for_each (rev svds) _ X1) as [X2|] eqn:EX2; simpl bind in HX; [|discriminate].
  destruct (for_each (rev svds) _ Y1) as [Y2|] eqn:EY2; simpl bind in HY; [|discriminate].
  destruct (@for_each_lincomb _ (fun t => np_diag (s_pinv_of (svd_s t))) a b (rev svds)
              X1 Y1 X2 Y2 Hs1 EX2 EY2) as [E2 Hs2].
  rewrite E2. simpl bind.
  destruct (for_each (rev svds) _ X2) as [X3|] eqn:EX3; simpl bind in HX; [|discriminate].
  destruct (for_each (rev svds) _ Y2) as [Y3|] eqn:EY3; simpl bind in HY; [|discriminate].
  destruct (@for_each_lincomb _ (fun t => Ok (transpose (svd_Vh t))) a b (rev svds)
              X2 Y2 X3 Y3 Hs2 EX3 EY3) as [E3 Hs3].
  simpl bind in E3. rewrite E3. simpl bind.
  injection HX as <-. injection HY as <-. split.
  - f_equal. apply ascontiguousarray_lincomb. assumption.
  - apply shape_ascontiguousarray_eq. assumption.
Qed.

(** X3.  [estimate_core_tensor] is linear in the data tensor: when it returns
    [GX] on [X] and [GY] on [Y], two arrays of one shape, it returns
    [a * GX + b * GY] on [a * X + b * Y] for all scalars [a] and [b],
    whatever the decomposition procedure returns; [GX] and [GY] have one
    shape. *)
Theorem estimate_core_tensor_linear
  (svd : ndarray -> result svd_triple) (factors : list ndarray)
  (X Y GX GY : ndarray) (a b : Qc) :
  shape X = shape Y ->
  estimate_core_tensor svd factors X = Ok GX ->
  estimate_core_tensor svd factors Y = Ok GY ->
  estimate_core_tensor svd factors (lincomb a X b Y) = Ok (lincomb a GX b GY) /\
  shape GX = shape GY.
Proof. apply estimate_core_tensor_lincomb. Qed.

Lemma estimate_core_tensor_linear_witness :
  exists GX GY,
    estimate_core_tensor svd_of_diagonal [A_diag; A_diag] X_exact = Ok GX /\
    estimate_core_tensor svd_of_diagonal [A_diag; A_diag] X_off = Ok GY /\
    estimate_core_tensor svd_of_diagonal [A_diag; A_diag]
      (lincomb (qz 2) X_exact (qz 3) X_off)
    = Ok (lincomb (qz 2) GX (qz 3) GY) /\
    shape GX = shape GY.
Proof.
  destruct (estimate_core_tensor svd_of_diagonal [A_diag; A_diag] X_exact)
    as [GX|] eqn:EX; [|vm_compute in EX; discriminate].
  destruct (estimate_core_tensor svd_of_diagonal [A_diag; A_diag] X_off)
    as [GY|] eqn:EY; [|vm_compute in EY; discriminate].
  exists GX, GY. split; [reflexivity|]. split; [reflexivity|].
  apply (@estimate_core_tensor_linear svd_of_diagonal [A_diag; A_diag]
           X_exact X_off GX GY (qz 2) (qz 3)).
  - reflexivity.
  - exact EX.
  - exact EY.
Defined.

(** ** Order facts on the scalars *)

Lemma Qc_of_nat_succ n : Qc_of_nat (S n) = (Qc_of_nat n + 1)%Qc.
Proof.
  unfold Qc_of_nat. apply Qc_is_canon. unfold Qcplus, Q2Qc. cbn [this].
  rewrite !Qred_correct. unfold Qeq, Qplus, inject_Z.
  cbn [Qnum Qden]. lia.
Qed.

Lemma Qc_of_nat_nonneg n : (0 <= Qc_of_nat n)%Qc.
Proof.
  unfold Qc_of_nat, Qcle, Q2Qc. cbn [this]. rewrite !Qred_correct.
  unfold Qle. simpl. lia.
Qed.

Lemma Qc_of_nat_ne_zero n : 1 <= n -> Qc_of_nat n <> 0%Qc.
Proof.
  intros Hn H.
  assert (H2 : (this (Qc_of_nat n) == 0)%Q) by (rewrite H; reflexivity).
  unfold Qc_of_nat, Q2Qc in H2. cbn [this] in H2. rewrite Qred_correct in H2.
  unfold Qeq in H2. simpl in H2. lia.
Qed.

Lemma Qcinv_pos d : (0 < d)%Qc -> (0 < / d)%Qc.
Proof.
  unfold Qclt, Qcinv, Q2Qc. cbn [this]. rewrite !Qred_correct.
  apply Qinv_lt_0_compat.
Qed.

Lemma Qc_sq_nonneg x : (0 <= x ^ 2)%Qc.
Proof.
  simpl. rewrite Qcmult_1_r.
  destruct (Qclt_le_dec x 0) as [Hneg | Hpos].
  - replace (x * x)%Qc with ((- x) * (- x))%Qc by ring.
    assert (H : (0 <= - x)%Qc).
    { replace 0%Qc with (- 0)%Qc by ring.
      apply Qcopp_le_compat. apply Qclt_le_weak. assumption. }
    replace 0%Qc with (0 * - x)%Qc by ring.
    apply Qcmult_le_compat_r; assumption.
  - replace 0%Qc with (0 * x)%Qc by ring.
    apply Qcmult_le_compat_r; assumption.
Qed.

Lemma Qc_sq_zero x : (x ^ 2 = 0)%Qc -> x = 0%Qc.
Proof.
  simpl. rewrite Qcmult_1_r. intros H.
  destruct (Qcmult_integral _ _ H); assumption.
Qed.

Lemma Qc_nonneg_ne_pos d : (0 <= d)%Qc -> d <> 0%Qc -> (0 < d)%Qc.
Proof.
  intros Hle Hne. destruct (Qcle_lt_or_eq _ _ Hle) as [H|H]; [assumption|].
  congruence.
Qed.

(** A sum of non-negative terms is zero only when every term is. *)
Lemma sumQc_zero_inv l :
  Forall (fun x => (0 <= x)%Qc) l -> sumQc l = 0%Qc -> Forall (fun x => x = 0%Qc) l.
Proof.
  intros Hl Hsum. apply Forall_forall. intros x Hx.
  apply Qcle_antisym.
  - rewrite <- Hsum. apply sumQc_member; assumption.
  - rewrite Forall_forall in Hl. apply Hl. assumption.
Qed.

Lemma sum_sq_nonneg G : (0 <= sum_sq G)%Qc.
Proof.
  unfold sum_sq. apply sumQc_nonneg. apply Forall_forall.
  intros y Hy. apply in_map_iff in Hy as (x & <- & _). apply Qc_sq_nonneg.
Qed.

Lemma sum_sq_diff_nonneg G I : (0 <= sum_sq_diff G I)%Qc.
Proof.
  unfold sum_sq_diff. apply sumQc_nonneg. apply Forall_forall.
  intros y Hy. apply in_map_iff in Hy as (x & <- & _). apply Qc_sq_nonneg.
Qed.

(** The distance is zero exactly when the arrays are equal. *)
Lemma sum_sq_diff_zero_iff G I :
  dense G -> dense I -> shape G = shape I ->
  sum_sq_diff G I = 0%Qc <-> G = I.
Proof.
  intros HdG HdI Hs. split.
  - intros H. apply ndarray_ext; try assumption.
    intros idx Hin. unfold sum_sq_diff in H.
    apply sumQc_zero_inv in H.
    + rewrite Forall_forall in H.
      assert (Hz : ((get G idx - get I idx) ^ 2 = 0)%Qc).
      { apply H. apply (in_map (fun idx => ((get G idx - get I idx) ^ 2)%Qc)).
        apply indices_in_bounds. assumption. }
      apply Qc_sq_zero in Hz.
      replace (get G idx) with (get G idx - get I idx + get I idx)%Qc by ring.
      rewrite Hz. ring.
    + apply Forall_forall. intros y Hy. apply in_map_iff in Hy as (x & <- & _).
      apply Qc_sq_nonneg.
  - intros <-. unfold sum_sq_diff. apply sumQc_zero. apply Forall_forall.
    intros y Hy. apply in_map_iff in Hy as (x & <- & _). simpl. ring.
Qed.

(** [100 - 100 * S / d] for a non-negative [S] and a positive [d]. *)
Lemma score_at_most_100 S d :
  (0 <= S)%Qc -> (0 < d)%Qc ->
  (Q2Qc 100 - Q2Qc 100 * S / d <= Q2Qc 100)%Qc /\
  ((Q2Qc 100 - Q2Qc 100 * S / d)%Qc = Q2Qc 100 <-> S = 0%Qc).
Proof.
  intros HS Hd.
  assert (Hne : d <> 0%Qc).
  { intros ->. apply (Qclt_not_eq _ _ Hd). reflexivity. }
  split.
  - apply Qcle_minus_iff.
    replace (Q2Qc 100 + - (Q2Qc 100 - Q2Qc 100 * S / d))%Qc
      with ((Q2Qc 100 * / d) * S)%Qc by (field; assumption).
    replace 0%Qc with ((Q2Qc 100 * / d) * 0)%Qc by ring.
    rewrite !(Qcmult_comm (Q2Qc 100 * / d)).
    apply Qcmult_le_compat_r; [assumption|].
    apply Qclt_le_weak.
    replace 0%Qc with (0 * / d)%Qc by ring.
    apply Qcmult_lt_compat_r; [apply Qcinv_pos; assumption | reflexivity].
  - split.
    + intros H.
      assert (H1 : (Q2Qc 100 * (S * / d) = 0)%Qc).
      { replace (Q2Qc 100 * (S * / d))%Qc
          with (Q2Qc 100 - (Q2Qc 100 - Q2Qc 100 * S / d))%Qc by (field; assumption).
        rewrite H. ring. }
      apply Qcmult_integral in H1 as [H1|H1]; [discriminate|].
      apply Qcmult_integral in H1 as [H1|H1]; [assumption|].
      exfalso. apply (Qcinv_ne_zero Hne). assumption.
    + intros ->. field. assumption.
Qed.

(** ** The number of superdiagonal entries *)

Lemma sumQc_flat_map {A B : Type} (g : A -> list B) (f : B -> Qc) l :
  sumQc (map f (flat_map g l)) = sumQc (map (fun x => sumQc (map f (g x))) l).
Proof.
  induction l as [|x l IH]; simpl; [reflexivity|].
  rewrite map_app, sumQc_app, IH. reflexivity.
Qed.

Lemma sumQc_map_ext_in {A : Type} (f g : A -> Qc) l :
  (forall x, In x l -> f x = g x) -> sumQc (map f l) = sumQc (map g l).
Proof. intros H. f_equal. apply map_ext_in. assumption. Qed.

Lemma sumQc_ones {A : Type} (l : list A) :
  sumQc (map (fun _ => 1%Qc) l) = Qc_of_nat (length l).
Proof.
  induction l as [|x l IH]; simpl length.
  - apply Qc_is_canon. reflexivity.
  - rewrite Qc_of_nat_succ. simpl. rewrite IH. ring.
Qed.

(** Among the indices of [R^n] exactly one has all its entries equal to [i]. *)
Lemma count_constant_index R i n :
  i < R ->
  sumQc (map (fun idx => if forallb (Nat.eqb i) idx then 1%Qc else 0%Qc)
           (indices (repeat R n))) = 1%Qc.
Proof.
  intros Hi. induction n as [|n IH]; simpl.
  - ring.
  - rewrite sumQc_flat_map.
    rewrite sumQc_map_ext_in
      with (g := fun j => if j =? i then 1%Qc else 0%Qc).
    + change (sum_range R (fun j => if j =? i then 1%Qc else 0%Qc) = 1%Qc).
      rewrite (@sum_range_single R i) by
        (try assumption; intros k _ Hk; destruct (Nat.eqb_spec k i); congruence).
      rewrite Nat.eqb_refl. reflexivity.
    + intros j _. rewrite map_map. simpl forallb.
      destruct (Nat.eqb_spec i j) as [<-|Hne].
      * rewrite Nat.eqb_refl. simpl andb. exact IH.
      * destruct (Nat.eqb_spec j i); [congruence|]. simpl andb.
        apply sumQc_map_zero.
Qed.

Lemma count_superdiagonal R n :
  sumQc (map (fun idx => if all_same idx then 1%Qc else 0%Qc)
           (indices (repeat R (S n)))) = Qc_of_nat R.
Proof.
  simpl. rewrite sumQc_flat_map.
  rewrite sumQc_map_ext_in with (g := fun _ => 1%Qc).
  - rewrite sumQc_ones, length_seq. reflexivity.
  - intros i Hi. apply in_seq in Hi. rewrite map_map. simpl all_same.
    apply count_constant_index. lia.
Qed.

(** The distance of a zero core to the superdiagonal tensor. *)
Lemma sum_sq_diff_zero_core_count G R N :
  shape G = repeat R N -> 1 <= N ->
  Forall (fun x => x = 0%Qc) (data G) ->
  sum_sq_diff G (superdiagonal R N) = Qc_of_nat R.
Proof.
  intros HsG HN Hzero. unfold sum_sq_diff. rewrite HsG.
  destruct N as [|N]; [lia|].
  rewrite <- (count_superdiagonal R N). apply sumQc_map_ext_in.
  intros idx Hin. apply indices_in_bounds in Hin.
  rewrite (@get_zero G idx Hzero). unfold superdiagonal.
  rewrite get_tabulate by assumption. destruct (all_same idx); simpl; ring.
Qed.

(** ** An all-zero data tensor *)

Lemma zeros_are_lincomb X :
  dense X -> Forall (fun x => x = 0%Qc) (data X) -> X = lincomb 0 X 0 X.
Proof.
  intros Hd Hz. apply ndarray_ext.
  - assumption.
  - apply dense_tabulate.
  - reflexivity.
  - intros idx Hin. unfold lincomb. rewrite get_tabulate by assumption.
    rewrite (@get_zero X idx Hz). ring.
Qed.

Lemma estimate_core_tensor_zero svd factors X G :
  dense X -> Forall (fun x => x = 0%Qc) (data X) ->
  estimate_core_tensor svd factors X = Ok G ->
  Forall (fun x => x = 0%Qc) (data G).
Proof.
  intros Hd Hz HG.
  destruct (@estimate_core_tensor_lincomb svd factors X X G G 0%Qc 0%Qc eq_refl HG HG)
    as [H _].
  rewrite <- (zeros_are_lincomb Hd Hz) in H.
  assert (E : G = lincomb 0 G 0 G) by congruence.
  rewrite E. unfold lincomb. simpl. apply Forall_forall.
  intros y Hy. apply in_map_iff in Hy as (x & <- & _). ring.
Qed.

(** X4.  On a data tensor that is entirely zero (a well-formed call, at least
    two modes and one component) the estimated core is entirely zero, and
    [core_consistency] returns exactly 0 with [normalised=False], the distance
    of the zero core to the superdiagonal tensor being the number of
    components, and minus infinity with [normalised=True]. *)
Theorem core_consistency_zero_data
  (svd : ndarray -> result svd_triple) (weights : option ndarray)
  (A0 : ndarray) (rest : list ndarray) (svds : list svd_triple) (X : ndarray)
  (R : nat) :
  2 <= length (A0 :: rest) ->
  1 <= R ->
  Forall (fun A => ncols A = R) (A0 :: rest) ->
  (forall w, weights = Some w -> length (data w) = R) ->
  dense X -> shape X = map nrows (A0 :: rest) ->
  map_result svd (scale_columns weights A0 :: rest) = Ok svds ->
  Forall2 reduced_svd (scale_columns weights A0 :: rest) svds ->
  Forall (fun x => x = 0%Qc) (data X) ->
  (exists G, estimate_core_tensor svd (scale_columns weights A0 :: rest) X = Ok G /\
             Forall (fun x => x = 0%Qc) (data G)) /\
  core_consistency svd (weights, A0 :: rest) X false = Ok (Fin 0%Qc) /\
  core_consistency svd (weights, A0 :: rest) X true = Ok NInf.
Proof.
  intros HN HR Hcols Hw HdX HsX Hsvd HF Hzero.
  destruct (@estimated_core svd weights A0 rest svds X R Hcols HdX HsX Hsvd HF)
    as (G & Hrun & _ & HsG & _ & HA0 & Hnd).
  pose proof (estimate_core_tensor_zero _ _ HdX Hzero Hrun) as HG0.
  assert (Hcc : forall normalised,
             core_consistency svd (weights, A0 :: rest) X normalised
             = Ok (core_consistency_value G R (ndim X) normalised))
    by (intros normalised; eapply core_consistency_run; eauto; lia).
  assert (Hcount : sum_sq_diff G (superdiagonal R (ndim X)) = Qc_of_nat R)
    by (apply sum_sq_diff_zero_core_count; [assumption | lia | assumption]).
  pose proof (Qc_of_nat_ne_zero HR) as HRne.
  split; [exists G; split; assumption|]. split.
  - rewrite Hcc. unfold core_consistency_value. rewrite Hcount.
    rewrite np_div_finite by assumption. simpl np_rsub. do 2 f_equal.
    field. assumption.
  - rewrite Hcc. unfold core_consistency_value.
    rewrite Hcount, (@sum_sq_zero G HG0), np_div_by_zero.
    assert (Hpos : (0 < Q2Qc 100 * Qc_of_nat R)%Qc).
    { replace 0%Qc with (0 * Qc_of_nat R)%Qc by ring.
      apply Qcmult_lt_compat_r; [|reflexivity].
      apply Qc_nonneg_ne_pos; [apply Qc_of_nat_nonneg | assumption]. }
    assert (Hne : Qc_eqb (Q2Qc 100 * Qc_of_nat R) 0 = false).
    { apply Qc_eqb_neq. intros Heq. rewrite Heq in Hpos.
      apply (Qclt_not_eq _ _ Hpos). reflexivity. }
    rewrite Hne. apply Qc_ltb_lt in Hpos. rewrite Hpos. reflexivity.
Qed.

Lemma core_consistency_zero_data_witness :
  (exists G, estimate_core_tensor svd_of_diagonal
               (scale_columns (Some w_ex) A_diag :: [A_diag]) X_null = Ok G /\
             Forall (fun x => x = 0%Qc) (data G)) /\
  core_consistency svd_of_diagonal (Some w_ex, A_diag :: [A_diag]) X_null false
  = Ok (Fin 0%Qc) /\
  core_consistency svd_of_diagonal (Some w_ex, A_diag :: [A_diag]) X_null true
  = Ok NInf.
Proof.
  apply (@core_consistency_zero_data svd_of_diagonal (Some w_ex) A_diag [A_diag]
           (svds_of (scale_columns (Some w_ex) A_diag :: [A_diag])) X_null 2).
  - simpl. lia.
  - lia.
  - repeat constructor.
  - intros w Hw. injection Hw as <-. reflexivity.
  - reflexivity.
  - reflexivity.
  - reflexivity.
  - reduced_svds.
  - repeat constructor.
Defined.

(** ** The upper bound of the core consistency *)

(** The value of the last statement of [core_consistency] is never above 100,
    whatever the core. *)
Lemma core_consistency_value_not_above G R N normalised :
  not_above (Q2Qc 100) (core_consistency_value G R N normalised).
Proof.
  unfold core_consistency_value.
  set (S := sum_sq_diff G (superdiagonal R N)).
  set (d := if normalised then sum_sq G else Qc_of_nat R).
  assert (HS : (0 <= S)%Qc) by apply sum_sq_diff_nonneg.
  assert (Hd : (0 <= d)%Qc)
    by (unfold d; destruct normalised; [apply sum_sq_nonneg | apply Qc_of_nat_nonneg]).
  unfold np_div. destruct (Qc_eqb d 0) eqn:Ed.
  - destruct (Qc_eqb (Q2Qc 100 * S) 0) eqn:Ex; [exact I|].
    assert (Hx : (0 < Q2Qc 100 * S)%Qc).
    { apply Qc_nonneg_ne_pos; [|apply Qc_eqb_neq; exact Ex].
      replace 0%Qc with (0 * Q2Qc 100)%Qc by ring.
      rewrite (Qcmult_comm (Q2Qc 100)).
      apply Qcmult_le_compat_r; [assumption | discriminate]. }
    apply Qc_ltb_lt in Hx. rewrite Hx. exact I.
  - simpl. apply Qc_eqb_neq in Ed.
    apply (@score_at_most_100 S d HS (Qc_nonneg_ne_pos Hd Ed)).
Qed.

(** X5.  The core consistency is never above 100: a well-formed call returns,
    and what it returns is a finite value at most 100, minus infinity or NaN,
    never plus infinity, with or without [normalised]. *)
Theorem core_consistency_at_most_100
  (svd : ndarray -> result svd_triple) (weights : option typed_array)
  (A0 : typed_array) (rest : list typed_array) (svds : list svd_triple)
  (X : ndarray) (R : nat) (normalised : bool) :
  2 <= length (A0 :: rest) ->
  Forall (fun A => ncols (array_of A) = R) (A0 :: rest) ->
  (forall w, weights = Some w ->
     length (data (array_of w)) = R /\
     can_cast_same_kind (result_type (dtype_of A0) (dtype_of w)) (dtype_of A0) = true) ->
  dense X -> shape X = map nrows (map array_of (A0 :: rest)) ->
  map_result svd
    (scale_columns (option_map array_of weights) (array_of A0) :: map array_of rest)
  = Ok svds ->
  Forall2 reduced_svd
    (scale_columns (option_map array_of weights) (array_of A0) :: map array_of rest)
    svds ->
  exists v,
    core_consistency_typed svd (weights, A0 :: rest) X normalised = Ok v /\
    not_above (Q2Qc 100) v.
Proof.
  intros HN Hcols Hw HdX HsX Hsvd HF.
  assert (Hcols' : Forall (fun A => ncols A = R) (array_of A0 :: map array_of rest)).
  { change (array_of A0 :: map array_of rest) with (map array_of (A0 :: rest)).
    apply Forall_map. exact Hcols. }
  assert (Hw' : forall v, option_map array_of weights = Some v -> length (data v) = R).
  { intros v Hv. destruct weights as [w|]; [|discriminate].
    injection Hv as <-. apply (Hw w eq_refl). }
  destruct (@estimated_core svd (option_map array_of weights) (array_of A0)
              (map array_of rest) svds X R Hcols' HdX HsX Hsvd HF)
    as (G & Hrun & _ & HsG & _ & HA0 & Hnd).
  assert (Hlen : ndim X = length (A0 :: rest))
    by (rewrite Hnd; simpl; rewrite length_map; reflexivity).
  exists (core_consistency_value G R (ndim X) normalised).
  split; [|apply core_consistency_value_not_above].
  rewrite core_consistency_typed_values.
  - unfold values_of. simpl fst. simpl snd. simpl map.
    eapply core_consistency_run; eauto. rewrite Hlen. exact HN.
  - intros w A Hweights HA. injection HA as <-. apply (Hw w Hweights).
Qed.

Lemma core_consistency_at_most_100_witness :
  exists v,
    core_consistency_typed svd_of_diagonal
      (Some (as_float w_half), as_float A_diag :: [as_int A_diag; as_float A_sing])
      X_cube true = Ok v /\
    not_above (Q2Qc 100) v.
Proof.
  apply (@core_consistency_at_most_100 svd_of_diagonal (Some (as_float w_half))
           (as_float A_diag) [as_int A_diag; as_float A_sing]
           (svds_of (scale_columns (Some w_half) A_diag :: [A_diag; A_sing]))
           X_cube 2 true).
  - simpl. lia.
  - repeat constructor.
  - intros w Hw. injection Hw as <-. split; reflexivity.
  - reflexivity.
  - reflexivity.
  - reflexivity.
  - reduced_svds.
Defined.

(** ** The weights *)





(** The typed call with weights whose product can be written back is the call
    on the values. *)
Lemma core_consistency_typed_weights svd w A0 rest X normalised :
  can_cast_same_kind (result_type (dtype_of A0) (dtype_of w)) (dtype_of A0) = true ->
  core_consistency_typed svd (Some w, A0 :: rest) X normalised
  = core_consistency svd (Some (array_of w), array_of A0 :: map array_of rest) X
      normalised.
Proof.
  intros Hc. rewrite core_consistency_typed_values; [reflexivity|].
  intros w' A Hw HA. injection Hw as <-. injection HA as <-. exact Hc.
Qed.



Lemma broadcast_column_row m R L :
  broadcast_shapes [m; R] [1; L]
  = if R =? L then Some [m; R]
    else if R =? 1 then Some [m; L]
    else if L =? 1 then Some [m; R]
    else None.
Proof.
  unfold broadcast_shapes. simpl.
  assert (Hm : (if m =? 1 then Some [m] else if m =? 1 then Some [1] else Some [m])
               = Some [m]) by (destruct (m =? 1); reflexivity).
  rewrite Hm.
  destruct (R =? L); [reflexivity|]. destruct (R =? 1); [reflexivity|].
  destruct (L =? 1); reflexivity.
Qed.

(** On the values: a weight vector of another length cannot be multiplied
    into the first factor matrix. *)
Lemma weights_length_mismatch_values
  (svd : ndarray -> result svd_triple) (w A0 : ndarray) (rest : list ndarray)
  (X : ndarray) (normalised : bool) (m R : nat) :
  shape A0 = [m; R] -> length (data w) <> R -> length (data w) <> 1 ->
  core_consistency svd (Some w, A0 :: rest) X normalised
  = Raise (ValueError (if R =? 1 then "non-broadcastable output operand"
                       else "operands could not be broadcast together")).
Proof.
  intros HA0 HL HL1. unfold core_consistency. simpl bind.
  unfold shape_at. rewrite HA0. simpl nth_error. simpl bind.
  unfold np_inplace, reshape_row. simpl shape. rewrite HA0, broadcast_column_row.
  destruct (Nat.eqb_spec R (length (data w))) as [E|_]; [congruence|].
  destruct (Nat.eqb_spec R 1) as [->|_].
  - unfold list_eqb.
    destruct (list_eq_dec Nat.eq_dec [m; length (data w)] [m; 1]) as [E|_];
      [congruence | reflexivity].
  - destruct (Nat.eqb_spec (length (data w)) 1); [contradiction | reflexivity].
Qed.

(** X7.  A weight vector whose length is neither the number of columns of the
    first factor matrix nor 1 is refused by [A *= weights.reshape(1, -1)],
    whatever the other factor matrices, the data tensor, the normalisation and
    the decomposition procedure.  The element types are looked at first: with
    floating-point weights and an integer first factor matrix the call raises
    a TypeError; otherwise it raises a ValueError, as the product cannot be
    broadcast, or (one column) cannot be written back into [A]. *)
Theorem core_consistency_weights_length_mismatch
  (svd : ndarray -> result svd_triple) (w A0 : typed_array) (rest : list typed_array)
  (X : ndarray) (normalised : bool) (m R : nat) :
  shape (array_of A0) = [m; R] ->
  length (data (array_of w)) <> R -> length (data (array_of w)) <> 1 ->
  core_consistency_typed svd (Some w, A0 :: rest) X normalised
  = Raise (if can_cast_same_kind (result_type (dtype_of A0) (dtype_of w)) (dtype_of A0)
           then ValueError (if R =? 1 then "non-broadcastable output operand"
                            else "operands could not be broadcast together")
           else TypeError cannot_cast).
Proof.
  intros HA0 HL HL1.
  destruct (can_cast_same_kind (result_type (dtype_of A0) (dtype_of w)) (dtype_of A0))
    eqn:Hc.
  - rewrite core_consistency_typed_weights by exact Hc.
    apply weights_length_mismatch_values with (m := m); assumption.
  - apply core_consistency_typed_cast_error with (m := m) (R := R); assumption.
Qed.

Lemma core_consistency_weights_length_mismatch_witness :
  core_consistency_typed svd_of_diagonal
    (Some (as_float (vector [2; 3; 5]%Z)), as_float A_diag :: [as_float A_diag]) X_null
    false
  = Raise (ValueError "operands could not be broadcast together") /\
  core_consistency_typed svd_of_diagonal
    (Some (as_float (vector [2; 3; 5]%Z)), as_int A_diag :: [as_float A_diag]) X_null
    false
  = Raise (TypeError cannot_cast).
Proof.
  split.
  - apply (@core_consistency_weights_length_mismatch svd_of_diagonal
             (as_float (vector [2; 3; 5]%Z)) (as_float A_diag) [as_float A_diag]
             X_null false 2 2).
    + reflexivity.
    + simpl. lia.
    + simpl. lia.
  - apply (@core_consistency_weights_length_mismatch svd_of_diagonal
             (as_float (vector [2; 3; 5]%Z)) (as_int A_diag) [as_float A_diag]
             X_null false 2 2).
    + reflexivity.
    + simpl. lia.
    + simpl. lia.
Defined.





(** ** The reconstruction error and the fit *)

Lemma sum_sq_tabulate sh f :
  sum_sq (tabulate sh f) = sumQc (map (fun idx => (f idx ^ 2)%Qc) (indices sh)).
Proof. unfold sum_sq, tabulate. simpl data. rewrite map_map. reflexivity. Qed.






Lemma sum_sq_zero_inv G : sum_sq G = 0%Qc -> Forall (fun x => x = 0%Qc) (data G).
Proof.
  unfold sum_sq. intros H. apply sumQc_zero_inv in H.
  - apply Forall_forall. intros x Hx. rewrite Forall_forall in H.
    apply Qc_sq_zero. apply H. apply (in_map (fun x => (x ^ 2)%Qc)). assumption.
  - apply Forall_forall. intros y Hy. apply in_map_iff in Hy as (x & <- & _).
    apply Qc_sq_nonneg.
Qed.




(** ** A reconstruction of another shape *)

Lemma sumQc_rows m n (f : list nat -> Qc) :
  sumQc (map f (indices [m; n]))
  = sum_range m (fun i => sum_range n (fun j => f [i; j])).
Proof.
  unfold sum_range. simpl indices. rewrite sumQc_flat_map.
  apply sumQc_map_ext_in. intros i _. rewrite map_map, sumQc_flat_map.
  apply sumQc_map_ext_in. intros j _. simpl. ring.
Qed.

(** X11.  [sse] does not compare the shape of the reconstruction with the
    shape of [X]: a reconstruction of shape [(1, n)] is broadcast against an
    [X] of shape [(m, n)], its only row being subtracted from every row of
    [X], and the call returns the sum of those squares. *)
Theorem sse_broadcasts_singleton_mode
  (construct : cp_tensor -> result ndarray) (cp : cp_tensor) (X X_hat : ndarray)
  (m n : nat) :
  construct cp = Ok X_hat ->
  shape X = [m; n] -> shape X_hat = [1; n] ->
  sse construct cp X
  = Ok (sum_range m (fun i =>
          sum_range n (fun j => ((get X [i; j] - get X_hat [0%nat; j]) ^ 2)%Qc))).
Proof.
  intros Hc HsX HsH. unfold sse. rewrite Hc. simpl bind.
  unfold np_binop. rewrite HsX, HsH, broadcast_column_row, Nat.eqb_refl.
  simpl bind. rewrite np_sum_square, sum_sq_tabulate, sumQc_rows. f_equal.
  apply sum_range_ext. intros i Hi. apply sum_range_ext. intros j Hj.
  unfold broadcast_get. rewrite HsX, HsH.
  rewrite (@broadcast_index_same [m; n] [i; j]) by (repeat constructor; assumption).
  unfold broadcast_index. simpl.
  destruct (Nat.eqb_spec n 1) as [->|_]; [|reflexivity].
  replace j with 0 by lia. reflexivity.
Qed.

Lemma sse_broadcasts_singleton_mode_witness :
  sse dense_from_cp cp_row X_off
  = Ok (sum_range 2 (fun i =>
          sum_range 2 (fun j => ((get X_off [i; j] - get X_hat_row [0%nat; j]) ^ 2)%Qc))).
Proof.
  apply (@sse_broadcasts_singleton_mode dense_from_cp cp_row X_off X_hat_row 2 2).
  - vm_compute. f_equal.
  - reflexivity.
  - reflexivity.
Defined.

(** ** Percentage variation with weights *)

(** X12.  With weights that are not empty and a matrix as first factor,
    [percentage_variation] raises, whatever the data tensor and the method:
    with two weights or more the ValueError of the ambiguous truth value of
    [if weights:]; with a single non-zero weight the NameError of the unbound
    name [weight] when the rank is 1 and the ValueError of [reshape]
    otherwise; with a single zero weight the TypeError of
    [np.ones(rank, rank)]. *)
Theorem percentage_variation_with_weights
  (w factor0 : ndarray) (rest : list ndarray) (m rank : nat)
  (X : option ndarray) (method : string) :
  shape factor0 = [m; rank] -> data w <> [] ->
  percentage_variation (Some w, factor0 :: rest) X method
  = Raise (match data w with
           | [x] =>
               if Qc_eqb x 0 then TypeError not_a_dtype
               else if rank =? 1 then NameError "name 'weight' is not defined"
               else ValueError "cannot reshape array"
           | _ =>
               ValueError
                 "The truth value of an array with more than one element is ambiguous. Use a.any() or a.all()"
           end).
Proof.
  intros Hs Hne. unfold percentage_variation. simpl bind.
  unfold shape_at. rewrite Hs. simpl nth_error. simpl bind.
  unfold truth_value.
  destruct (data w) as [|x [|y l]] eqn:Hw; simpl bind.
  - contradiction.
  - destruct (Qc_eqb x 0); simpl negb; cbv iota; [reflexivity|].
    unfold np_reshape. rewrite Hw. simpl length. unfold size_of. simpl fold_right.
    rewrite Nat.mul_1_r.
    destruct (Nat.eqb_spec rank 1) as [->|Hr].
    + reflexivity.
    + destruct (Nat.eqb_spec 1 rank); [congruence | reflexivity].
  - reflexivity.
Qed.

Lemma percentage_variation_with_weights_witness :
  percentage_variation (Some w_ex, A_diag :: [A_diag]) (Some X_exact) "model"
  = Raise (ValueError
             "The truth value of an array with more than one element is ambiguous. Use a.any() or a.all()") /\
  percentage_variation (Some (vector [3]%Z), A_diag :: [A_diag]) (Some X_exact) "model"
  = Raise (ValueError "cannot reshape array") /\
  percentage_variation (Some (vector [3]%Z), matrix 2 1 [1; 0]%Z :: [A_diag]) None "data"
  = Raise (NameError "name 'weight' is not defined") /\
  percentage_variation (Some (vector [0]%Z), A_diag :: [A_diag]) (Some X_exact) "model"
  = Raise (TypeError not_a_dtype).
Proof.
  split; [|split; [|split]].
  - apply (@percentage_variation_with_weights w_ex A_diag [A_diag] 2 2 (Some X_exact)
             "model"); [reflexivity | discriminate].
  - apply (@percentage_variation_with_weights (vector [3]%Z) A_diag [A_diag] 2 2
             (Some X_exact) "model"); [reflexivity | discriminate].
  - apply (@percentage_variation_with_weights (vector [3]%Z) (matrix 2 1 [1; 0]%Z)
             [A_diag] 2 1
             None "data"); [reflexivity | discriminate].
  - apply (@percentage_variation_with_weights (vector [0]%Z) A_diag [A_diag] 2 2
             (Some X_exact) "model"); [reflexivity | discriminate].
Defined.

(** ** Tensors that are sums of outer products *)

Lemma prod_modes_ext N Cs Cs' idx r :
  (forall n, n < N -> Cs n (nth n idx 0) r = Cs' n (nth n idx 0) r) ->
  prod_modes N Cs idx r = prod_modes N Cs' idx r.
Proof.
  intros H. unfold prod_modes. f_equal. apply map_ext_in.
  intros n Hn. apply in_seq in Hn. apply H. lia.
Qed.

Lemma cp_form_ext R Cs Cs' Y :
  (forall n i r, n < ndim Y -> Cs n i r = Cs' n i r) ->
  cp_form R Cs Y -> cp_form R Cs' Y.
Proof.
  intros H [Hd Hget]. split; [assumption|]. intros idx Hin.
  rewrite (Hget idx Hin). apply sum_range_ext. intros r _.
  apply prod_modes_ext. intros n Hn. apply H. assumption.
Qed.

Lemma nth_replace_at_same {A : Type} n (a d : A) l :
  n < length l -> nth n (replace_at n a l) d = a.
Proof.
  revert n. induction l as [|x l IH]; intros [|n] Hn; simpl in *; try lia.
  - reflexivity.
  - apply IH. lia.
Qed.

(** The factor of mode [n] taken out of the product. *)
Lemma prod_over_modes Cs n D k idx r l :
  NoDup l -> n < length idx ->
  fold_right Qcmult 1%Qc
    (map (fun n' => upd Cs n D n' (nth n' (replace_at n k idx) 0) r) l)
  = ((if in_dec Nat.eq_dec n l then D k r else 1)
     * fold_right Qcmult 1%Qc
         (map (fun n' => upd Cs n (fun _ _ => 1%Qc) n' (nth n' idx 0%nat) r) l))%Qc.
Proof.
  intros Hnd Hn. induction Hnd as [|a l Ha Hl IH]; simpl fold_right; simpl map.
  - destruct (in_dec Nat.eq_dec n []); [contradiction|]. ring.
  - simpl fold_right. rewrite IH. unfold upd at 1 3.
    destruct (Nat.eqb_spec a n) as [->|Hne].
    + rewrite nth_replace_at_same by assumption.
      destruct (in_dec Nat.eq_dec n l) as [Hin|_]; [contradiction|].
      destruct (in_dec Nat.eq_dec n (n :: l)) as [_|Hout];
        [ring | exfalso; apply Hout; left; reflexivity].
    + rewrite nth_replace_at_other by assumption.
      destruct (in_dec Nat.eq_dec n l) as [Hin|Hout];
        destruct (in_dec Nat.eq_dec n (a :: l)) as [Hin'|Hout'].
      * ring.
      * exfalso. apply Hout'. right. assumption.
      * exfalso. destruct Hin' as [E|Hin']; [congruence | contradiction].
      * ring.
Qed.

Lemma prod_modes_replace N Cs n D k idx r :
  n < N -> n < length idx ->
  prod_modes N (upd Cs n D) (replace_at n k idx) r
  = (D k r * prod_modes N (upd Cs n (fun _ _ => 1%Qc)) idx r)%Qc.
Proof.
  intros HnN Hn. unfold prod_modes.
  rewrite prod_over_modes by (try apply seq_NoDup; assumption).
  destruct (in_dec Nat.eq_dec n (seq 0 N)) as [_|Hout]; [reflexivity|].
  exfalso. apply Hout. apply in_seq. lia.
Qed.

Lemma upd_same Cs n : forall n' i r, upd Cs n (Cs n) n' i r = Cs n' i r.
Proof.
  intros n' i r. unfold upd. destruct (Nat.eqb_spec n' n) as [->|_]; reflexivity.
Qed.

(** Contracting mode [n] of a sum of outer products with [M] multiplies the
    matrix of that mode by [M]. *)
Lemma mode_product_cp_form R Cs Y n M R' :
  cp_form R Cs Y -> n < ndim Y -> shape M = [R'; nth n (shape Y) 0] ->
  cp_form R (upd Cs n (apply_matrix M (Cs n))) (mode_product n M Y).
Proof.
  intros [Hd Hget] Hn HM. split; [apply dense_tabulate|].
  intros idx Hin. rewrite (@mode_product_shape n M Y R' _ HM) in Hin.
  assert (Hlen : length idx = ndim Y).
  { rewrite (in_bounds_length Hin), replace_at_length. reflexivity. }
  assert (HN : ndim (mode_product n M Y) = ndim Y).
  { unfold ndim. rewrite (@mode_product_shape n M Y R' _ HM), replace_at_length. reflexivity. }
  rewrite (@get_mode_product n M Y R' _ idx HM Hin), HN.
  transitivity
    (sum_range (nth n (shape Y) 0)
       (fun k => (get M [nth n idx 0%nat; k]
                  * sum_range R (fun r =>
                      (Cs n k r * prod_modes (ndim Y) (upd Cs n (fun _ _ => 1)) idx r))))%Qc).
  - apply sum_range_ext. intros k Hk. f_equal.
    rewrite Hget.
    + apply sum_range_ext. intros r _.
      rewrite <- prod_modes_replace by lia.
      apply prod_modes_ext. intros n' _. symmetry. apply upd_same.
    + replace (shape Y) with (replace_at n (nth n (shape Y) 0)
                                (replace_at n R' (shape Y)))
        by (rewrite replace_at_twice; apply replace_at_nth).
      apply in_bounds_replace_at; assumption.
  - transitivity
      (sum_range R (fun r =>
         (apply_matrix M (Cs n) (nth n idx 0%nat) r
          * prod_modes (ndim Y) (upd Cs n (fun _ _ => 1)) idx r))%Qc).
    + unfold apply_matrix, ncols. rewrite HM. simpl nth.
      unfold sum_range at 1.
      rewrite (map_ext _ (fun k => sum_range R (fun r =>
                 (get M [nth n idx 0%nat; k]
                  * (Cs n k r * prod_modes (ndim Y) (upd Cs n (fun _ _ => 1)) idx r)))%Qc))
        by (intros k; unfold sum_range; apply sumQc_map_scale).
      fold (sum_range (nth n (shape Y) 0)
              (fun k => sum_range R (fun r =>
                 (get M [nth n idx 0%nat; k]
                  * (Cs n k r * prod_modes (ndim Y) (upd Cs n (fun _ _ => 1)) idx r)))%Qc)).
      rewrite sum_range_swap. apply sum_range_ext. intros r _.
      rewrite Qcmult_comm. unfold sum_range. rewrite sumQc_map_scale.
      f_equal. apply map_ext. intros k. ring.
    + apply sum_range_ext. intros r _.
      rewrite <- (replace_at_nth n idx 0) at 3.
      rewrite prod_modes_replace by lia. reflexivity.
Qed.

Lemma apply_modes_cp_form R Ms : forall Ks rest Cs Y,
  Forall2 contracts Ms Ks -> shape Y = Ks ++ rest -> cp_form R Cs Y ->
  cp_form R (swept Ms Cs) (apply_modes mode_product Ms Y) /\
  shape (apply_modes mode_product Ms Y) = map nrows Ms ++ rest.
Proof.
  induction Ms as [|M Ms IH] using rev_ind; intros Ks rest Cs Y HF HsY Hcp.
  - inversion HF; subst. split; [|exact HsY].
    apply cp_form_ext with (Cs := Cs); [|exact Hcp]. reflexivity.
  - apply Forall2_app_inv_l in HF as (Ks1 & Ks2 & HF1 & HF2 & ->).
    inversion HF2 as [|M' K l1 l2 [R' HM] Hnil]; subst. inversion Hnil; subst.
    pose proof (Forall2_length HF1) as Hlen.
    rewrite <- app_assoc in HsY. simpl in HsY.
    assert (HK : nth (length Ms) (shape Y) 0 = K)
      by (rewrite HsY, Hlen; apply nth_middle).
    assert (Hj : length Ms < ndim Y)
      by (unfold ndim; rewrite HsY, length_app; simpl; lia).
    rewrite <- HK in HM.
    pose proof (@mode_product_cp_form R Cs Y (length Ms) M R' Hcp Hj HM) as Hcp1.
    assert (HsY1 : shape (mode_product (length Ms) M Y) = Ks1 ++ R' :: rest).
    { rewrite (@mode_product_shape _ M Y R' _ HM), HsY, Hlen.
      apply replace_at_middle. }
    destruct (IH Ks1 (R' :: rest) _ _ HF1 HsY1 Hcp1) as [Hcp2 Hs2].
    rewrite apply_modes_snoc. split.
    + apply cp_form_ext with (2 := Hcp2). intros n i r _.
      unfold swept, upd. rewrite length_app. change (length [M]) with 1.
      destruct (Nat.ltb_spec n (length Ms)) as [Hlt|Hge].
      * destruct (Nat.ltb_spec n (length Ms + 1)); [|lia].
        destruct (Nat.eqb_spec n (length Ms)); [lia|].
        rewrite app_nth1 by assumption. reflexivity.
      * destruct (Nat.eqb_spec n (length Ms)) as [->|Hne].
        -- destruct (Nat.ltb_spec (length Ms) (length Ms + 1)); [|lia].
           rewrite nth_middle. reflexivity.
        -- destruct (Nat.ltb_spec n (length Ms + 1)); [lia|]. reflexivity.
    + rewrite Hs2, map_app, <- app_assoc. simpl. unfold nrows. rewrite HM. reflexivity.
Qed.

(** ** The pseudo-inverse of a matrix of full column rank *)

Lemma get_transpose2 a m n i j :
  shape a = [m; n] -> i < n -> j < m -> get (transpose a) [i; j] = get a [j; i].
Proof.
  intros Ha Hi Hj. unfold transpose. rewrite get_tabulate; [reflexivity|].
  rewrite Ha. simpl. repeat constructor; assumption.
Qed.

Lemma get_diag_matrix K v i j :
  i < K -> j < K ->
  get (diag_matrix K v) [i; j] = if i =? j then get v [i] else 0%Qc.
Proof.
  intros Hi Hj. unfold diag_matrix. rewrite get_tabulate; [reflexivity|].
  repeat constructor; assumption.
Qed.

Lemma get_vector v K k : shape v = [K] -> get v [k] = nth k (data v) 0%Qc.
Proof.
  intros Hv. unfold get. rewrite Hv. simpl. f_equal. lia.
Qed.

Lemma get_pinv s K k :
  shape s = [K] ->
  get (pinv s) [k] = if Qc_eqb (get s [k]) 0 then 0%Qc else (/ get s [k])%Qc.
Proof.
  intros Hs. rewrite (@get_vector (pinv s) K k Hs), (@get_vector s K k Hs).
  apply pinv_entry.
Qed.

Lemma sum_range_scale_l K c f :
  (c * sum_range K f)%Qc = sum_range K (fun k => (c * f k)%Qc).
Proof. unfold sum_range. apply sumQc_map_scale. Qed.

Lemma sum_range_delta K k f :
  k < K -> sum_range K (fun k' => (delta k k' * f k')%Qc) = f k.
Proof.
  intros Hk. rewrite (@sum_range_single K k).
  - unfold delta. rewrite Nat.eqb_refl. ring.
  - assumption.
  - intros k' _ Hne. unfold delta.
    destruct (Nat.eqb_spec k k'); [congruence | ring].
Qed.

Lemma pinv_left_inverse A t i r :
  full_rank_svd A t -> i < ncols A -> r < ncols A ->
  apply_matrix (transpose (svd_Vh t))
    (apply_matrix (diag_matrix (vector_length (pinv (svd_s t))) (pinv (svd_s t)))
       (apply_matrix (transpose (svd_U t)) (fun l c => get A [l; c]))) i r
  = delta i r.
Proof.
  intros ((HA & HU & Hs & HVh) & Hprod & HUo & HVo & Hnz) Hi Hr.
  set (m := nrows A) in *. set (R := ncols A) in *. set (K := Nat.min m R) in *.
  pose proof (@shape_transpose2 _ _ _ HU) as HUT.
  pose proof (@shape_transpose2 _ _ _ HVh) as HVT.
  assert (HK : vector_length (pinv (svd_s t)) = K)
    by (unfold vector_length; simpl; rewrite Hs; reflexivity).
  rewrite HK. unfold apply_matrix, ncols.
  rewrite HUT, HVT. unfold diag_matrix at 1. simpl shape. simpl nth.
  (* the columns of U against A *)
  assert (H1 : forall k', k' < K ->
             sum_range m (fun l => (get (transpose (svd_U t)) [k'; l] * get A [l; r])%Qc)
             = (get (svd_s t) [k'] * get (svd_Vh t) [k'; r])%Qc).
  { intros k' Hk'.
    transitivity
      (sum_range m (fun l =>
         sum_range K (fun k =>
           (get (svd_U t) [l; k'] * get (svd_U t) [l; k]
            * (get (svd_s t) [k] * get (svd_Vh t) [k; r]))%Qc))).
    - apply sum_range_ext. intros l Hl.
      rewrite (@get_transpose2 _ _ _ k' l HU Hk' Hl), (Hprod l r Hl Hr), sum_range_scale_l.
      apply sum_range_ext. intros k _. ring.
    - rewrite sum_range_swap.
      transitivity
        (sum_range K (fun k =>
           (delta k' k * (get (svd_s t) [k] * get (svd_Vh t) [k; r]))%Qc)).
      + apply sum_range_ext. intros k Hk. rewrite <- (HUo k' k Hk' Hk).
        rewrite (Qcmult_comm (sum_range m _)), sum_range_scale_l. apply sum_range_ext.
        intros l _. ring.
      + apply sum_range_delta. assumption. }
  (* the singular values against their inverses *)
  assert (H2 : forall k, k < K ->
             sum_range K (fun k' =>
               (get (diag_matrix K (pinv (svd_s t))) [k; k']
                * sum_range m (fun l =>
                    (get (transpose (svd_U t)) [k'; l] * get A [l; r])))%Qc)
             = get (svd_Vh t) [k; r]).
  { intros k Hk.
    transitivity
      (sum_range K (fun k' =>
         (delta k k' * (get (pinv (svd_s t)) [k]
                        * (get (svd_s t) [k'] * get (svd_Vh t) [k'; r])))%Qc)).
    - apply sum_range_ext. intros k' Hk'.
      rewrite (H1 k' Hk'), (@get_diag_matrix K _ k k' Hk Hk'). unfold delta.
      destruct (k =? k'); ring.
    - rewrite (@sum_range_delta K k _ Hk), (@get_pinv _ K k Hs).
      pose proof (Hnz k Hk) as Hne. apply Qc_eqb_neq in Hne. rewrite Hne.
      apply Qc_eqb_neq in Hne. field. assumption. }
  transitivity
    (sum_range K (fun k => (get (svd_Vh t) [k; i] * get (svd_Vh t) [k; r])%Qc)).
  - apply sum_range_ext. intros k Hk.
    rewrite (@get_transpose2 _ _ _ i k HVh Hi Hk). f_equal. apply H2. assumption.
  - apply HVo; assumption.
Qed.

(** ** The tensor a CP model describes *)

Lemma fold_right_mult_init c l :
  fold_right Qcmult c l = (c * fold_right Qcmult 1%Qc l)%Qc.
Proof. induction l as [|x l IH]; simpl; [ring|]. rewrite IH. ring. Qed.

Lemma prod_modes_cons N Cs i idx r :
  prod_modes (S N) Cs (i :: idx) r
  = (Cs 0%nat i r * prod_modes N (fun n => Cs (S n)) idx r)%Qc.
Proof.
  unfold prod_modes. simpl. f_equal. rewrite <- seq_shift, map_map. reflexivity.
Qed.

Lemma prod_modes_family Fs : forall idx r,
  length idx = length Fs ->
  fold_right Qcmult 1%Qc (map (fun Ai => get (fst Ai) [snd Ai; r]) (combine Fs idx))
  = prod_modes (length Fs) (family_of Fs) idx r.
Proof.
  induction Fs as [|F Fs IH]; intros [|i idx] r Hlen; simpl in Hlen; try lia.
  - reflexivity.
  - simpl length. rewrite prod_modes_cons. simpl. rewrite IH by lia. reflexivity.
Qed.

Lemma get_scale_columns weights A m R i r :
  shape A = [m; R] -> i < m -> r < R ->
  get (scale_columns weights A) [i; r]
  = (get A [i; r] * match weights with
                    | Some w => nth r (data w) 0%Qc
                    | None => 1%Qc
                    end)%Qc.
Proof.
  intros HA Hi Hr. destruct weights as [w|]; simpl; [|ring].
  rewrite get_tabulate; [reflexivity|].
  rewrite HA. repeat constructor; assumption.
Qed.

Lemma dense_from_cp_form weights A0 rest X R :
  shape A0 = [nrows A0; R] ->
  dense_from_cp (weights, A0 :: rest) = Ok X ->
  shape X = map nrows (A0 :: rest) /\
  cp_form R (family_of (scale_columns weights A0 :: rest)) X.
Proof.
  intros HA0 HX. unfold dense_from_cp in HX. injection HX as <-.
  split; [reflexivity|]. split; [apply dense_tabulate|].
  intros idx Hin. rewrite shape_tabulate in Hin. rewrite get_tabulate by assumption.
  unfold ncols. rewrite HA0. simpl nth.
  apply sum_range_ext. intros r Hr.
  pose proof (in_bounds_length Hin) as Hlen. simpl in Hlen.
  rewrite length_map in Hlen.
  unfold ndim. rewrite shape_tabulate. simpl length. rewrite length_map.
  destruct idx as [|i idx]; [discriminate|].
  inversion Hin as [|i' d idx' sh' Hi Hrest]; subst.
  rewrite prod_modes_cons. simpl map.
  simpl fold_right. rewrite fold_right_mult_init.
  rewrite prod_modes_family by (simpl in Hlen; lia).
  change (family_of (scale_columns weights A0 :: rest) 0 i r)
    with (get (scale_columns weights A0) [i; r]).
  rewrite (@get_scale_columns weights A0 _ _ i r HA0 Hi Hr).
  change (fun n => family_of (scale_columns weights A0 :: rest) (S n))
    with (family_of rest).
  unfold family_of. ring.
Qed.

(** ** The core of an exact model *)

Lemma forallb_delta i0 l :
  prod_modes (length l) (fun _ => delta) l i0
  = if forallb (Nat.eqb i0) l then 1%Qc else 0%Qc.
Proof.
  induction l as [|x l IH]; [reflexivity|].
  simpl length. rewrite prod_modes_cons, IH. simpl forallb. unfold delta.
  rewrite (Nat.eqb_sym i0 x).
  destruct (x =? i0); destruct (forallb (Nat.eqb i0) l); simpl; ring.
Qed.

Lemma sum_prod_delta R N idx :
  1 <= N -> in_bounds (repeat R N) idx ->
  sum_range R (fun r => prod_modes N (fun _ => delta) idx r)
  = if all_same idx then 1%Qc else 0%Qc.
Proof.
  intros HN Hin. pose proof (in_bounds_length Hin) as Hlen.
  rewrite repeat_length in Hlen. subst N.
  destruct idx as [|i0 idx]; [simpl in HN; lia|].
  inversion Hin as [|i' d idx' sh' Hi Hrest]; subst.
  rewrite (@sum_range_single R i0).
  - rewrite forallb_delta. simpl. rewrite Nat.eqb_refl. reflexivity.
  - assumption.
  - intros r _ Hne. simpl length. rewrite prod_modes_cons. unfold delta at 1.
    destruct (Nat.eqb_spec i0 r); [congruence | ring].
Qed.

Lemma Forall2_nth {A B : Type} (P : A -> B -> Prop) l1 l2 n d1 d2 :
  Forall2 P l1 l2 -> n < length l1 -> P (nth n l1 d1) (nth n l2 d2).
Proof.
  intros H. revert n. induction H as [|x y l1 l2 Hxy _ IH]; intros [|n] Hn;
    simpl in *; try lia; [assumption|]. apply IH. lia.
Qed.

Lemma full_rank_reduced factors svds :
  Forall2 full_rank_svd factors svds -> Forall2 reduced_svd factors svds.
Proof.
  intros H. eapply Forall2_impl; [|exact H]. intros A t (Hr & _). exact Hr.
Qed.

(** The estimated core of the tensor of a CP model whose factor matrices
    have full column rank. *)
Lemma exact_model_core svd weights A0 rest svds X R :
  1 <= R ->
  Forall (fun A => ncols A = R) (A0 :: rest) ->
  map_result svd (scale_columns weights A0 :: rest) = Ok svds ->
  Forall2 full_rank_svd (scale_columns weights A0 :: rest) svds ->
  dense_from_cp (weights, A0 :: rest) = Ok X ->
  shape A0 = [nrows A0; R] /\ dense X /\ shape X = map nrows (A0 :: rest) /\
  estimate_core_tensor svd (scale_columns weights A0 :: rest) X
  = Ok (superdiagonal R (length (A0 :: rest))).
Proof.
  intros HR Hcols Hsvd HF HX.
  pose proof (full_rank_reduced HF) as HFr.
  set (factors := scale_columns weights A0 :: rest) in *.
  assert (HA0 : shape A0 = [nrows A0; R]).
  { inversion HFr as [|A t l1 l2 (Hs & _) _]; subst.
    rewrite shape_scale_columns in Hs. unfold nrows, ncols in *.
    rewrite shape_scale_columns in Hs.
    inversion Hcols as [|A l HA0 _]; subst. exact Hs. }
  destruct (dense_from_cp_form HA0 HX) as [HsX Hcp0].
  pose proof (proj1 Hcp0) as HdX.
  fold factors in Hcp0.
  assert (HsX' : shape X = map nrows factors).
  { rewrite HsX. unfold factors. simpl. unfold nrows.
    rewrite shape_scale_columns. reflexivity. }
  destruct (@estimate_core_tensor_modes svd factors svds X Hsvd HFr HdX HsX')
    as (Hrun & HdG & S1 & S2 & S3).
  assert (Hcols' : Forall (fun A => ncols A = R) factors).
  { constructor; [|exact (Forall_inv_tail Hcols)].
    unfold ncols. rewrite shape_scale_columns. exact (Forall_inv Hcols). }
  assert (HsG : shape (core_by_modes svds X) = repeat R (length (A0 :: rest))).
  { rewrite S3. change (length (A0 :: rest)) with (length factors).
    clear - Hcols'. induction Hcols' as [|A l HA _ IH]; simpl; [reflexivity|].
    rewrite HA, IH. reflexivity. }
  repeat split; try assumption.
  rewrite Hrun, ascontiguousarray_id by (rewrite HsG; discriminate).
  f_equal.
  (* the three sweeps on the sum of outer products *)
  set (UT := map (fun t => transpose (svd_U t)) svds) in *.
  set (P := map (fun t => pinv (svd_s t)) svds) in *.
  set (VT := map (fun t => transpose (svd_Vh t)) svds) in *.
  set (Ks := map (fun A => Nat.min (nrows A) (ncols A)) factors) in *.
  assert (HF1 : Forall2 contracts UT (map nrows factors)).
  { eapply Forall2_map_swap; [exact HFr|]. intros A t (_ & HU & _).
    eexists. apply shape_transpose2. eassumption. }
  assert (Hlen : length svds = length factors)
    by (symmetry; apply (Forall2_length HFr)).
  destruct (@apply_modes_cp_form R UT (map nrows factors) [] (family_of factors) X HF1)
    as [Hcp1 _];
    [rewrite app_nil_r; assumption | exact Hcp0 |].
  set (X1 := apply_modes mode_product UT X) in *.
  assert (HP : shape X1 = map vector_length P ++ []).
  { rewrite app_nil_r, S1. unfold P, Ks. rewrite map_map. clear - HFr.
    induction HFr as [|A t fs ts (_ & _ & Hs & _) _ IH]; simpl; [reflexivity|].
    rewrite IH. unfold vector_length; simpl. rewrite Hs. reflexivity. }
  destruct (@apply_modes_diag P [] X1 HP) as [Hdiag _].
  set (DP := map (fun v => diag_matrix (vector_length v) v) P) in *.
  assert (HF2 : Forall2 contracts DP (map vector_length P)).
  { unfold DP. clear. induction P as [|v P IH]; simpl; constructor; [|exact IH].
    eexists. reflexivity. }
  destruct (@apply_modes_cp_form R DP (map vector_length P) [] _ X1 HF2 HP Hcp1)
    as [Hcp2 _].
  rewrite Hdiag in Hcp2.
  set (X2 := apply_modes mode_scale P X1) in *.
  assert (HF3 : Forall2 contracts VT Ks).
  { eapply Forall2_map_swap; [exact HFr|]. intros A t (_ & _ & _ & HVh).
    eexists. apply shape_transpose2. eassumption. }
  destruct (@apply_modes_cp_form R VT Ks []
              (swept DP (swept UT (family_of factors))) X2 HF3) as [Hcp3 _];
    [rewrite app_nil_r; assumption | exact Hcp2 |].
  change (apply_modes mode_product VT X2) with (core_by_modes svds X) in Hcp3.
  destruct Hcp3 as [_ Hget].
  (* entry by entry *)
  apply ndarray_ext; try assumption.
  - apply dense_tabulate.
  - intros idx Hin. rewrite (Hget idx Hin). rewrite HsG in Hin.
    unfold superdiagonal. rewrite get_tabulate by assumption.
    unfold ndim. rewrite HsG, repeat_length.
    rewrite <- (@sum_prod_delta R (length (A0 :: rest)) idx)
      by (simpl; try lia; assumption).
    apply sum_range_ext. intros r Hr. apply prod_modes_ext. intros n Hn.
    change (length (A0 :: rest)) with (length factors) in Hn.
    assert (Hi : nth n idx 0 < R).
    { replace R with (nth n (repeat R (length (A0 :: rest))) 0)
        by (apply nth_repeat_lt; exact Hn).
      apply in_bounds_nth; [assumption|]. rewrite repeat_length. exact Hn. }
    unfold swept. unfold VT, DP, P, UT. rewrite !length_map, Hlen.
    destruct (Nat.ltb_spec n (length factors)); [|lia].
    rewrite !map_map.
    rewrite !(@nth_map_in_range _ _ _ svds n
                (mk_ndarray [] [], mk_ndarray [] [], mk_ndarray [] []))
      by lia.
    pose proof (@Forall2_nth _ _ _ _ _ n (mk_ndarray [] [])
                  (mk_ndarray [] [], mk_ndarray [] [], mk_ndarray [] [])
                  HF ltac:(lia)) as Hfull.
    assert (HRn : ncols (nth n factors (mk_ndarray [] [])) = R).
    { rewrite Forall_forall in Hcols'. apply Hcols'. apply nth_In. lia. }
    apply pinv_left_inverse; [exact Hfull | rewrite HRn; assumption ..].
Qed.

Lemma sum_sq_superdiagonal_ne_zero R N :
  1 <= R -> sum_sq (superdiagonal R N) <> 0%Qc.
Proof.
  intros HR H0. apply sum_sq_zero_inv in H0.
  pose proof (@get_zero (superdiagonal R N) (repeat 0 N) H0) as Hz.
  unfold superdiagonal in Hz.
  rewrite get_tabulate in Hz by (apply in_bounds_repeat; lia).
  rewrite all_same_repeat in Hz. discriminate.
Qed.

(** X14.  On the tensor a CP model describes the core consistency is 100.  For
    a model of at least two modes and one component, when each factor matrix
    (the first with column [r] multiplied by weight [r]) has full column rank
    and the decomposition returned for it is a singular value decomposition,
    [estimate_core_tensor] returns the superdiagonal tensor on the tensor of
    the model and [core_consistency] returns 100, with either normalisation. *)
Theorem core_consistency_exact_model
  (svd : ndarray -> result svd_triple) (weights : option ndarray)
  (A0 : ndarray) (rest : list ndarray) (svds : list svd_triple) (X : ndarray)
  (R : nat) (normalised : bool) :
  2 <= length (A0 :: rest) ->
  1 <= R ->
  Forall (fun A => ncols A = R) (A0 :: rest) ->
  (forall w, weights = Some w -> length (data w) = R) ->
  map_result svd (scale_columns weights A0 :: rest) = Ok svds ->
  Forall2 full_rank_svd (scale_columns weights A0 :: rest) svds ->
  dense_from_cp (weights, A0 :: rest) = Ok X ->
  estimate_core_tensor svd (scale_columns weights A0 :: rest) X
  = Ok (superdiagonal R (length (A0 :: rest))) /\
  core_consistency svd (weights, A0 :: rest) X normalised = Ok (Fin (Q2Qc 100)).
Proof.
  intros HN HR Hcols Hw Hsvd HF HX.
  destruct (exact_model_core svd HR Hcols Hsvd HF HX) as (HA0 & HdX & HsX & Hest).
  split; [exact Hest|].
  assert (Hnd : ndim X = length (A0 :: rest))
    by (unfold ndim; rewrite HsX, length_map; reflexivity).
  rewrite <- Hnd in Hest.
  rewrite (@core_consistency_run svd weights A0 rest X normalised (nrows A0) R
             (superdiagonal R (ndim X)) HA0 Hw Hest eq_refl ltac:(lia)).
  unfold core_consistency_value.
  assert (Hd : (if normalised then sum_sq (superdiagonal R (ndim X)) else Qc_of_nat R)
               <> 0%Qc).
  { destruct normalised;
      [apply sum_sq_superdiagonal_ne_zero | apply Qc_of_nat_ne_zero]; assumption. }
  assert (H0 : sum_sq_diff (superdiagonal R (ndim X)) (superdiagonal R (ndim X)) = 0%Qc).
  { apply sum_sq_diff_zero_iff; try apply dense_tabulate; reflexivity. }
  rewrite H0, np_div_finite by assumption. simpl np_rsub.
  set (d := if normalised then sum_sq (superdiagonal R (ndim X)) else Qc_of_nat R) in *.
  assert (Hv : (Q2Qc 100 - Q2Qc 100 * 0 / d)%Qc = Q2Qc 100) by (field; assumption).
  rewrite Hv. reflexivity.
Qed.

Ltac small_index i H :=
  vm_compute in H; destruct i as [|[|i]]; [| |exfalso; lia].

Ltac full_rank_svd_2 :=
  unfold full_rank_svd; cbv zeta; split; [repeat split|];
  repeat split;
  [ intros i r Hi Hr; small_index i Hi; small_index r Hr;
    apply Qc_is_canon; vm_compute; reflexivity
  | intros k k' Hk Hk'; small_index k Hk; small_index k' Hk';
    apply Qc_is_canon; vm_compute; reflexivity
  | intros r r' Hr Hr'; small_index r Hr; small_index r' Hr';
    apply Qc_is_canon; vm_compute; reflexivity
  | intros k Hk; small_index k Hk; apply Qc_eqb_neq; vm_compute; reflexivity ].

Lemma core_consistency_exact_model_witness :
  estimate_core_tensor svd_of_diagonal
    (scale_columns (Some w_ex) A_diag :: [A_diag; A_diag]) X_weighted
  = Ok (superdiagonal 2 (length (A_diag :: [A_diag; A_diag]))) /\
  core_consistency svd_of_diagonal (Some w_ex, A_diag :: [A_diag; A_diag]) X_weighted true
  = Ok (Fin (Q2Qc 100)).
Proof.
  apply (@core_consistency_exact_model svd_of_diagonal (Some w_ex) A_diag
           [A_diag; A_diag]
           (svds_of (scale_columns (Some w_ex) A_diag :: [A_diag; A_diag]))
           X_weighted 2 true).
  - simpl. lia.
  - lia.
  - repeat constructor.
  - intros w Hw. injection Hw as <-. reflexivity.
  - reflexivity.
  - repeat (constructor; [full_rank_svd_2|]). constructor.
  - vm_compute. f_equal.
Defined.

(** ** One contraction per mode, with the pseudo-inverse *)

Lemma mode_product_compose n C B Y R K :
  n < ndim Y -> shape B = [K; nth n (shape Y) 0] -> shape C = [R; K] ->
  mode_product n C (mode_product n B Y) = mode_product n (mat_compose C B) Y.
Proof.
  intros Hn HB HC.
  assert (HCB : shape (mat_compose C B) = [R; nth n (shape Y) 0]).
  { unfold mat_compose, nrows, ncols. rewrite HB, HC. reflexivity. }
  unfold mode_product at 1 3.
  rewrite HC, HCB, (@mode_product_shape n B Y K _ HB), replace_at_twice. simpl nth.
  apply tabulate_ext. intros idx Hin.
  assert (Hi : nth n idx 0 < R).
  { replace R with (nth n (replace_at n R (shape Y)) 0)
      by (apply nth_replace_at_same; exact Hn).
    apply in_bounds_nth; [assumption|]. rewrite replace_at_length. exact Hn. }
  assert (Hlen : n < length idx).
  { rewrite (in_bounds_length Hin), replace_at_length. exact Hn. }
  transitivity
    (sum_range K (fun k =>
       sum_range (nth n (shape Y) 0) (fun i =>
         (get C [nth n idx 0%nat; k] * get B [k; i]
          * get Y (replace_at n i idx))%Qc))).
  - apply sum_range_ext. intros k Hk.
    rewrite (@get_mode_product n B Y K _ (replace_at n k idx) HB).
    + rewrite sum_range_scale_l. apply sum_range_ext. intros i _.
      rewrite nth_replace_at_same by assumption. rewrite replace_at_twice. ring.
    + replace (replace_at n K (shape Y))
        with (replace_at n K (replace_at n R (shape Y)))
        by apply replace_at_twice.
      apply in_bounds_replace_at; assumption.
  - rewrite sum_range_swap. apply sum_range_ext. intros i Hi'.
    unfold mat_compose. rewrite get_tabulate.
    + unfold ncols. rewrite HC. simpl nth.
      rewrite (Qcmult_comm (sum_range K _)), sum_range_scale_l.
      apply sum_range_ext. intros k _. ring.
    + unfold nrows, ncols. rewrite HB, HC. simpl.
      repeat constructor; assumption.
Qed.

(** A contraction along a mode that a sweep does not touch can be made
    before the sweep. *)
Lemma mode_product_past_modes j C R' Bs : forall Ks rest Y,
  Forall2 contracts Bs Ks -> shape Y = Ks ++ rest ->
  length Bs <= j -> j < ndim Y ->
  shape C = [R'; nth j (shape Y) 0] ->
  mode_product j C (apply_modes mode_product Bs Y)
  = apply_modes mode_product Bs (mode_product j C Y).
Proof.
  induction Bs as [|B Bs IH] using rev_ind; intros Ks rest Y HF HsY Hle Hj HC.
  - reflexivity.
  - apply Forall2_app_inv_l in HF as (Ks1 & Ks2 & HF1 & HF2 & ->).
    inversion HF2 as [|B' K l1 l2 [RB HB] Hnil]; subst. inversion Hnil; subst.
    pose proof (Forall2_length HF1) as Hlen.
    rewrite length_app in Hle. simpl in Hle.
    rewrite <- app_assoc in HsY. simpl in HsY.
    assert (HK : nth (length Bs) (shape Y) 0 = K)
      by (rewrite HsY, Hlen; apply nth_middle).
    rewrite <- HK in HB.
    assert (Hj' : length Bs < ndim Y) by lia.
    assert (HsY1 : shape (mode_product (length Bs) B Y) = Ks1 ++ RB :: rest).
    { rewrite (@mode_product_shape _ B Y RB _ HB), HsY, Hlen.
      apply replace_at_middle. }
    rewrite !apply_modes_snoc.
    rewrite (IH Ks1 (RB :: rest) _ HF1 HsY1).
    + f_equal.
      apply mode_product_comm with (R := R') (R' := RB); try assumption. lia.
    + lia.
    + unfold ndim. rewrite (@mode_product_shape _ B Y RB _ HB), replace_at_length.
      exact Hj.
    + rewrite (@mode_product_shape _ B Y RB _ HB).
      rewrite nth_replace_at_other by lia. exact HC.
Qed.

(** Two sweeps, one after the other, are one sweep with the products of the
    matrices. *)
Lemma apply_modes_compose CBs : forall dims rest Y,
  Forall2 composable CBs dims ->
  shape Y = map (fun d => fst (fst d)) dims ++ rest ->
  apply_modes mode_product (map fst CBs) (apply_modes mode_product (map snd CBs) Y)
  = apply_modes mode_product (map (fun CB => mat_compose (fst CB) (snd CB)) CBs) Y.
Proof.
  induction CBs as [|[C B] CBs IH] using rev_ind; intros dims rest Y HF HsY.
  - reflexivity.
  - apply Forall2_app_inv_l in HF as (dims1 & dims2 & HF1 & HF2 & ->).
    inversion HF2 as [|CB [[I K] R] l1 l2 [HB HC] Hnil]; subst.
    inversion Hnil; subst. simpl in HB, HC.
    pose proof (Forall2_length HF1) as Hlen.
    rewrite map_app, <- app_assoc in HsY. simpl in HsY.
    assert (HI : nth (length CBs) (shape Y) 0 = I).
    { rewrite HsY, Hlen, <- (length_map (fun d => fst (fst d)) dims1).
      apply nth_middle. }
    assert (Hj : length CBs < ndim Y).
    { unfold ndim. rewrite HsY, length_app, length_map. simpl. lia. }
    rewrite <- HI in HB.
    assert (HsY1 : shape (mode_product (length CBs) B Y)
                   = map (fun d => fst (fst d)) dims1 ++ K :: rest).
    { rewrite (@mode_product_shape _ B Y K _ HB), HsY, Hlen,
        <- (length_map (fun d => fst (fst d)) dims1).
      apply replace_at_middle. }
    rewrite !map_app. simpl map. rewrite !apply_modes_snoc, !length_map.
    rewrite (@mode_product_past_modes (length CBs) C R (map snd CBs)
               (map (fun d => fst (fst d)) dims1) (K :: rest)).
    + rewrite (@mode_product_compose (length CBs) C B Y R K Hj HB HC).
      apply IH with (dims := dims1) (rest := R :: rest); [assumption|].
      assert (HCB : shape (mat_compose C B) = [R; nth (length CBs) (shape Y) 0]).
      { unfold mat_compose, nrows, ncols. rewrite HB, HC. reflexivity. }
      rewrite (@mode_product_shape _ _ Y R _ HCB), HsY, Hlen,
        <- (length_map (fun d => fst (fst d)) dims1).
      apply replace_at_middle.
    + clear - HF1. induction HF1 as [|[C' B'] [[I' K'] R''] l1 l2 [HB' _] _ IH'];
        simpl; constructor; [|exact IH'].
      exists K'. exact HB'.
    + exact HsY1.
    + rewrite length_map. lia.
    + unfold ndim. rewrite HsY1, length_app, length_map. simpl. lia.
    + rewrite HsY1, Hlen, <- (length_map (fun d => fst (fst d)) dims1), nth_middle.
      exact HC.
Qed.

Lemma sum_range_diag K v k g :
  k < K ->
  sum_range K (fun k' => (get (diag_matrix K v) [k; k'] * g k')%Qc)
  = (get v [k] * g k)%Qc.
Proof.
  intros Hk. rewrite (@sum_range_single K k).
  - rewrite (@get_diag_matrix K v k k Hk Hk), Nat.eqb_refl. reflexivity.
  - assumption.
  - intros k' Hk' Hne. rewrite (@get_diag_matrix K v k k' Hk Hk').
    destruct (Nat.eqb_spec k k'); [congruence | ring].
Qed.

Lemma shape_diag_matrix K v : shape (diag_matrix K v) = [K; K].
Proof. reflexivity. Qed.

(** The three matrices of a mode, multiplied. *)
Lemma pinv_matrix_product A t :
  reduced_svd A t ->
  let K := Nat.min (nrows A) (ncols A) in
  mat_compose (transpose (svd_Vh t))
    (mat_compose (diag_matrix K (pinv (svd_s t))) (transpose (svd_U t)))
  = pinv_matrix t /\
  shape (pinv_matrix t) = [ncols A; nrows A].
Proof.
  intros (HA & HU & Hs & HVh) K. fold K in HU, Hs, HVh.
  pose proof (@shape_transpose2 _ _ _ HU) as HUT.
  pose proof (@shape_transpose2 _ _ _ HVh) as HVT.
  assert (HP : shape (pinv_matrix t) = [ncols A; nrows A]).
  { unfold pinv_matrix. simpl shape. unfold ncols at 1, nrows at 1.
    rewrite HVh, HU. reflexivity. }
  split; [|exact HP].
  unfold pinv_matrix, vector_length. rewrite Hs. simpl nth.
  unfold mat_compose at 1.
  assert (E1 : nrows (transpose (svd_Vh t)) = ncols (svd_Vh t))
    by (unfold nrows, ncols; rewrite HVT, HVh; reflexivity).
  assert (E2 : ncols (mat_compose (diag_matrix K (pinv (svd_s t)))
                        (transpose (svd_U t))) = nrows (svd_U t)).
  { unfold mat_compose. unfold ncols at 1. rewrite shape_tabulate. simpl nth.
    unfold ncols, nrows. rewrite HUT, HU. reflexivity. }
  rewrite E1, E2.
  apply tabulate_ext. intros idx Hin.
  unfold ncols at 1 in Hin. unfold nrows at 1 in Hin. rewrite HVh, HU in Hin.
  simpl nth in Hin.
  inversion Hin as [|r d0 idx1 sh1 Hr Hin1]; subst.
  inversion Hin1 as [|i d1 idx2 sh2 Hi Hin2]; subst.
  inversion Hin2; subst.
  unfold ncols at 1. rewrite HVT. simpl nth.
  apply sum_range_ext. intros k Hk.
  rewrite (@get_transpose2 _ _ _ r k HVh Hr Hk).
  unfold mat_compose. rewrite get_tabulate.
  - unfold ncols. rewrite shape_diag_matrix. simpl nth.
    rewrite (@sum_range_diag K (pinv (svd_s t)) k
               (fun k' => get (transpose (svd_U t)) [k'; i]) Hk).
    rewrite (@get_transpose2 _ _ _ k i HU Hk Hi). ring.
  - unfold nrows, ncols. rewrite shape_diag_matrix, HUT. simpl.
    repeat constructor; assumption.
Qed.

(** The pseudo-inverse against the matrix it was computed from. *)
Lemma pinv_matrix_times A t i r :
  reduced_svd A t -> i < ncols A ->
  sum_range (nrows A) (fun l => (get (pinv_matrix t) [i; l] * get A [l; r])%Qc)
  = apply_matrix (transpose (svd_Vh t))
      (apply_matrix (diag_matrix (vector_length (pinv (svd_s t))) (pinv (svd_s t)))
         (apply_matrix (transpose (svd_U t)) (fun l c => get A [l; c]))) i r.
Proof.
  intros (HA & HU & Hs & HVh) Hi.
  set (m := nrows A) in *. set (R := ncols A) in *. set (K := Nat.min m R) in *.
  pose proof (@shape_transpose2 _ _ _ HU) as HUT.
  pose proof (@shape_transpose2 _ _ _ HVh) as HVT.
  assert (HK : vector_length (pinv (svd_s t)) = K)
    by (unfold vector_length; simpl; rewrite Hs; reflexivity).
  rewrite HK. unfold apply_matrix, ncols.
  rewrite HUT, HVT, shape_diag_matrix. simpl nth.
  transitivity
    (sum_range m (fun l =>
       sum_range K (fun k =>
         (get (svd_Vh t) [k; i] * get (pinv (svd_s t)) [k]
          * get (svd_U t) [l; k] * get A [l; r])%Qc))).
  - apply sum_range_ext. intros l Hl. unfold pinv_matrix.
    rewrite get_tabulate.
    + unfold vector_length. rewrite Hs. simpl nth.
      rewrite (Qcmult_comm (sum_range K _)), sum_range_scale_l.
      apply sum_range_ext. intros k _. ring.
    + unfold ncols, nrows. rewrite HVh, HU. simpl.
      repeat constructor; assumption.
  - rewrite sum_range_swap. apply sum_range_ext. intros k Hk.
    rewrite (@get_transpose2 _ _ _ i k HVh Hi Hk).
    rewrite (@sum_range_diag K (pinv (svd_s t)) k
               (fun k' => sum_range m (fun l =>
                  (get (transpose (svd_U t)) [k'; l] * get A [l; r])%Qc)) Hk).
    rewrite !sum_range_scale_l. apply sum_range_ext. intros l Hl.
    rewrite (@get_transpose2 _ _ _ k l HU Hk Hl). ring.
Qed.

Lemma Forall2_in_right {A B : Type} (P : A -> B -> Prop) l1 l2 y :
  Forall2 P l1 l2 -> In y l2 -> exists x, In x l1 /\ P x y.
Proof.
  induction 1 as [|a b l1 l2 Hab _ IH]; intros Hin; [contradiction|].
  destruct Hin as [<-|Hin].
  - exists a. split; [left; reflexivity | assumption].
  - destruct (IH Hin) as (x & Hx & HP). exists x. split; [right|]; assumption.
Qed.

(** X15.  The three loops amount to one contraction per mode, with a
    pseudo-inverse: on a well-formed call [estimate_core_tensor] returns the
    data tensor contracted along every mode with the matrix
    [Vh^T diag(s^+) U^T] of that mode's factor matrix, where [s^+] inverts the
    non-zero singular values.  That matrix has as many rows as the factor
    matrix has columns and as many columns as it has rows, and when the
    decomposition is a singular value decomposition of a factor matrix of full
    column rank, its product with the factor matrix is the identity. *)
Theorem estimate_core_tensor_by_pseudo_inverses
  (svd : ndarray -> result svd_triple) (factors : list ndarray)
  (svds : list svd_triple) (X : ndarray) :
  map_result svd factors = Ok svds ->
  Forall2 reduced_svd factors svds ->
  dense X ->
  shape X = map nrows factors ->
  estimate_core_tensor svd factors X
  = Ok (ascontiguousarray (apply_modes mode_product (map pinv_matrix svds) X)) /\
  Forall2 (fun A t => shape (pinv_matrix t) = [ncols A; nrows A]) factors svds /\
  Forall2 (fun A t =>
             full_rank_svd A t ->
             forall i r, i < ncols A -> r < ncols A ->
               sum_range (nrows A)
                 (fun l => (get (pinv_matrix t) [i; l] * get A [l; r])%Qc)
               = delta i r) factors svds.
Proof.
  intros Hsvd HF HdX HsX.
  destruct (@estimate_core_tensor_modes svd factors svds X Hsvd HF HdX HsX)
    as (Hrun & _ & S1 & _ & _).
  split; [|split].
  - rewrite Hrun. do 2 f_equal. unfold core_by_modes.
    set (UT := map (fun t => transpose (svd_U t)) svds) in *.
    set (P := map (fun t => pinv (svd_s t)) svds).
    set (X1 := apply_modes mode_product UT X) in *.
    assert (HP : shape X1 = map vector_length P ++ []).
    { rewrite app_nil_r, S1. unfold P. rewrite map_map. clear - HF.
      induction HF as [|A t fs ts (_ & _ & Hs & _) _ IH]; simpl; [reflexivity|].
      rewrite IH. unfold vector_length; simpl. rewrite Hs. reflexivity. }
    destruct (@apply_modes_diag P [] X1 HP) as [Hdiag _].
    rewrite <- Hdiag. unfold X1, UT, P. rewrite map_map.
    (* the diagonal matrices after the transposes of U *)
    pose (CB1 := fun t : svd_triple =>
                   (diag_matrix (vector_length (pinv (svd_s t))) (pinv (svd_s t)),
                    transpose (svd_U t))).
    pose (dims1 := fun A : ndarray =>
                     (nrows A, Nat.min (nrows A) (ncols A),
                      Nat.min (nrows A) (ncols A))).
    assert (HF1 : Forall2 composable (map CB1 svds) (map dims1 factors)).
    { eapply Forall2_map_swap; [exact HF|]. intros A t (_ & HU & Hs & _).
      unfold composable, CB1, dims1. simpl. split.
      - apply shape_transpose2. assumption.
      - unfold vector_length. simpl. rewrite Hs. reflexivity. }
    pose proof (@apply_modes_compose (map CB1 svds) (map dims1 factors) [] X HF1) as E1.
    rewrite !map_map in E1. simpl in E1.
    rewrite E1 by (rewrite app_nil_r; exact HsX).
    (* the transposes of Vh after those products *)
    pose (CB2 := fun t : svd_triple =>
                   (transpose (svd_Vh t), mat_compose (fst (CB1 t)) (snd (CB1 t)))).
    pose (dims2 := fun A : ndarray =>
                     (nrows A, Nat.min (nrows A) (ncols A), ncols A)).
    assert (HF2 : Forall2 composable (map CB2 svds) (map dims2 factors)).
    { eapply Forall2_map_swap; [exact HF|]. intros A t (_ & HU & Hs & HVh).
      unfold composable, CB2, CB1, dims2. simpl. split.
      - unfold mat_compose. simpl shape. unfold nrows at 1, ncols at 1.
        rewrite (@shape_transpose2 _ _ _ HU). unfold vector_length. simpl.
        rewrite Hs. reflexivity.
      - apply shape_transpose2. assumption. }
    pose proof (@apply_modes_compose (map CB2 svds) (map dims2 factors) [] X HF2) as E2.
    rewrite !map_map in E2. simpl in E2.
    rewrite E2 by (rewrite app_nil_r; exact HsX).
    f_equal. apply map_ext_in. intros t Ht.
    destruct (@Forall2_in_right _ _ _ _ _ t HF Ht) as (A & _ & Hred).
    destruct (@pinv_matrix_product A t Hred) as [E _].
    rewrite <- E. destruct Hred as (_ & _ & Hs & _).
    unfold vector_length. simpl. rewrite Hs. reflexivity.
  - eapply Forall2_impl; [|exact HF]. intros A t Hred.
    apply (@pinv_matrix_product A t Hred).
  - eapply Forall2_impl; [|exact HF]. intros A t Hred Hfull i r Hi Hr.
    rewrite (@pinv_matrix_times A t i r Hred Hi).
    apply pinv_left_inverse; assumption.
Qed.

Lemma estimate_core_tensor_by_pseudo_inverses_witness :
  let svds := svds_of [A_diag; A_diag; A_sing] in
  estimate_core_tensor svd_of_diagonal [A_diag; A_diag; A_sing] X_cube
  = Ok (ascontiguousarray (apply_modes mode_product (map pinv_matrix svds) X_cube)) /\
  Forall2 (fun A t => shape (pinv_matrix t) = [ncols A; nrows A])
    [A_diag; A_diag; A_sing] svds /\
  (forall i r, i < ncols A_diag -> r < ncols A_diag ->
     sum_range (nrows A_diag)
       (fun l => (get (pinv_matrix (hd (A_diag, A_diag, A_diag) svds)) [i; l]
                  * get A_diag [l; r])%Qc)
     = delta i r).
Proof.
  destruct (@estimate_core_tensor_by_pseudo_inverses svd_of_diagonal
              [A_diag; A_diag; A_sing] (svds_of [A_diag; A_diag; A_sing]) X_cube)
    as (Hrun & Hshape & Hinv).
  - reflexivity.
  - reduced_svds.
  - reflexivity.
  - reflexivity.
  - split; [exact Hrun|]. split; [exact Hshape|].
    inversion Hinv as [|A t l1 l2 Hfirst _]; subst.
    apply Hfirst. full_rank_svd_2.
Defined.

(** ** Calls that [core_consistency] refuses after the core is estimated *)

Lemma core_consistency_after_core svd weights A0 rest X normalised m R G :
  shape A0 = [m; R] ->
  (forall w, weights = Some w -> length (data w) = R) ->
  estimate_core_tensor svd (scale_columns weights A0 :: rest) X = Ok G ->
  core_consistency svd (weights, A0 :: rest) X normalised
  = (T <- fill_diagonal (np_zeros (repeat R (ndim X))) 1%Qc ;;
     D <- np_binop Qcminus G T ;;
     Ok (np_rsub (Q2Qc 100)
           (np_div (Q2Qc 100 * np_sum (np_square D))%Qc
              (if normalised then np_sum (np_square G) else Qc_of_nat R)))).
Proof.
  intros HA Hw HG. unfold core_consistency. simpl bind.
  unfold shape_at. rewrite HA. simpl nth_error. simpl bind.
  assert (HA' : match weights with
                | Some w => np_inplace Qcmult A0 (reshape_row w)
                | None => Ok A0
                end = Ok (scale_columns weights A0)).
  { destruct weights as [w|]; [|reflexivity].
    apply imul_weights with (m := m) (R := R); auto. }
  rewrite HA'. simpl bind. simpl tl. rewrite HG. reflexivity.
Qed.

(** X16.  [core_consistency] needs a data tensor of at least two axes: when
    the first factor is a matrix, the weights fit it and the core is
    estimated, but [X] has fewer than two axes, the call raises the ValueError
    of [np.fill_diagonal], "array must be at least 2-d". *)
Theorem core_consistency_needs_two_modes
  (svd : ndarray -> result svd_triple) (weights : option ndarray)
  (A0 : ndarray) (rest : list ndarray) (X : ndarray) (normalised : bool)
  (m R : nat) (G : ndarray) :
  shape A0 = [m; R] ->
  (forall w, weights = Some w -> length (data w) = R) ->
  estimate_core_tensor svd (scale_columns weights A0 :: rest) X = Ok G ->
  ndim X < 2 ->
  core_consistency svd (weights, A0 :: rest) X normalised
  = Raise (ValueError "array must be at least 2-d").
Proof.
  intros HA Hw HG Hnd.
  rewrite (@core_consistency_after_core svd weights A0 rest X normalised m R G HA Hw HG).
  destruct (ndim X) as [|[|n]]; [reflexivity | reflexivity | lia].
Qed.

Lemma core_consistency_needs_two_modes_witness :
  core_consistency svd_of_diagonal (Some w_ex, A_diag :: []) (vector [4; 3]%Z) true
  = Raise (ValueError "array must be at least 2-d").
Proof.
  apply (@core_consistency_needs_two_modes svd_of_diagonal (Some w_ex) A_diag []
           (vector [4; 3]%Z) true 2 2
           (match estimate_core_tensor svd_of_diagonal
                    (scale_columns (Some w_ex) A_diag :: []) (vector [4; 3]%Z) with
            | Ok G => G
            | Raise _ => A_diag
            end)).
  - reflexivity.
  - intros w Hw. injection Hw as <-. reflexivity.
  - vm_compute. reflexivity.
  - unfold ndim. simpl. lia.
Defined.

Lemma broadcast_rev_incompatible s1 : forall s2,
  length s1 = length s2 ->
  Exists incompatible (combine s1 s2) ->
  broadcast_rev s1 s2 = None.
Proof.
  induction s1 as [|d1 s1 IH]; intros [|d2 s2] Hlen Hex; simpl in *;
    try discriminate; [inversion Hex|].
  inversion Hex as [p l (Hne & H1 & H2)|p l Hex']; subst.
  - simpl in *. destruct (broadcast_rev s1 s2); [|reflexivity].
    destruct (Nat.eqb_spec d1 d2); [contradiction|].
    destruct (Nat.eqb_spec d1 1); [contradiction|].
    destruct (Nat.eqb_spec d2 1); [contradiction|]. reflexivity.
  - rewrite IH; [reflexivity | lia | assumption].
Qed.

Lemma combine_rev {A B : Type} (l1 : list A) : forall (l2 : list B),
  length l1 = length l2 ->
  combine (rev l1) (rev l2) = rev (combine l1 l2).
Proof.
  induction l1 as [|x l1 IH]; intros [|y l2] Hlen; simpl in *; try discriminate;
    [reflexivity|].
  rewrite combine_app_same by (rewrite !length_rev; lia).
  rewrite IH by lia. reflexivity.
Qed.

Lemma broadcast_shapes_incompatible s1 s2 :
  length s1 = length s2 ->
  Exists incompatible (combine s1 s2) ->
  broadcast_shapes s1 s2 = None.
Proof.
  intros Hlen Hex. unfold broadcast_shapes.
  rewrite broadcast_rev_incompatible; [reflexivity | rewrite !length_rev; exact Hlen |].
  rewrite combine_rev by assumption.
  apply Exists_exists in Hex as (p & Hin & Hp).
  apply Exists_exists. exists p. split; [|exact Hp].
  apply in_rev. rewrite rev_involutive. exact Hin.
Qed.

(** X17.  Factor matrices with different numbers of columns are refused, but
    only by the subtraction [G - T] at the end: on an otherwise well-formed
    call of at least two modes whose first factor matrix has [R] columns,
    [R] not 1, and where a later factor matrix has a number of columns that is
    neither [R] nor 1, the core is estimated and the call then raises the
    ValueError of a failed broadcast. *)
Theorem core_consistency_unequal_ranks
  (svd : ndarray -> result svd_triple) (weights : option ndarray)
  (A0 : ndarray) (rest : list ndarray) (svds : list svd_triple) (X : ndarray)
  (normalised : bool) (R : nat) :
  1 <= length rest ->
  ncols A0 = R ->
  (forall w, weights = Some w -> length (data w) = R) ->
  dense X -> shape X = map nrows (A0 :: rest) ->
  map_result svd (scale_columns weights A0 :: rest) = Ok svds ->
  Forall2 reduced_svd (scale_columns weights A0 :: rest) svds ->
  R <> 1 ->
  Exists (fun A => ncols A <> R /\ ncols A <> 1) rest ->
  is_ok (estimate_core_tensor svd (scale_columns weights A0 :: rest) X) = true /\
  core_consistency svd (weights, A0 :: rest) X normalised
  = Raise (ValueError "operands could not be broadcast together").
Proof.
  intros HN HR Hw HdX HsX Hsvd HF HR1 Hex.
  assert (HsX' : shape X = map nrows (scale_columns weights A0 :: rest)).
  { rewrite HsX. simpl. unfold nrows. rewrite shape_scale_columns. reflexivity. }
  destruct (@estimate_core_tensor_modes svd _ svds X Hsvd HF HdX HsX')
    as (Hrun & _ & _ & _ & Hshape).
  rewrite ascontiguousarray_id in Hrun by (rewrite Hshape; discriminate).
  split; [rewrite Hrun; reflexivity|].
  assert (HA0 : shape A0 = [nrows A0; R]).
  { inversion HF as [|A t l1 l2 (Hs & _) _]; subst.
    rewrite shape_scale_columns in Hs. unfold nrows, ncols in *.
    rewrite shape_scale_columns in Hs. exact Hs. }
  rewrite (@core_consistency_after_core svd weights A0 rest X normalised (nrows A0) R
             _ HA0 Hw Hrun).
  assert (Hnd : ndim X = S (length rest))
    by (unfold ndim; rewrite HsX; simpl; rewrite length_map; reflexivity).
  rewrite fill_diagonal_zeros by lia. simpl bind.
  unfold np_binop. rewrite Hshape.
  rewrite broadcast_shapes_incompatible; [reflexivity | |].
  - unfold superdiagonal. rewrite shape_tabulate, repeat_length, Hnd.
    simpl. rewrite length_map. reflexivity.
  - unfold superdiagonal. rewrite shape_tabulate, Hnd. simpl.
    apply Exists_cons_tl. clear - Hex HR1.
    induction Hex as [A l [H1 H2]|A l _ IH]; simpl.
    + apply Exists_cons_hd. repeat split; simpl; assumption.
    + apply Exists_cons_tl. exact IH.
Qed.

Lemma core_consistency_unequal_ranks_witness :
  is_ok (estimate_core_tensor svd_of_diagonal
           (scale_columns None A_diag :: [A_three]) X_exact) = true /\
  core_consistency svd_of_diagonal (None, A_diag :: [A_three]) X_exact false
  = Raise (ValueError "operands could not be broadcast together").
Proof.
  apply (@core_consistency_unequal_ranks svd_of_diagonal None A_diag [A_three]
           (svds_of (scale_columns None A_diag :: [A_three])) X_exact false 2).
  - simpl. lia.
  - reflexivity.
  - discriminate.
  - reflexivity.
  - reflexivity.
  - reflexivity.
  - reduced_svds.
  - lia.
  - constructor. split; vm_compute; lia.
Defined.

(** ** The array that [estimate_core_tensor] returns is a new one *)

Section Fresh.

Import Store StoreFacts.

Variable svd : ndarray -> result svd_triple.

Ltac run :=
  first [rewrite run_read | rewrite run_alloc | rewrite run_write]; cbv beta.

Lemma mbind_ok {A B : Type} (c : M A) (k : A -> M B) st b st' :
  mbind c k st = (Ok b, st') ->
  exists a st1, c st = (Ok a, st1) /\ k a st1 = (Ok b, st').
Proof.
  unfold mbind. destruct (c st) as [[a|e] st1]; [|discriminate].
  intros H. exists a, st1. auto.
Qed.

Lemma st_map_length {A B : Type} (f : A -> M B) :
  (forall x st y st', f x st = (Ok y, st') -> length st <= length st') ->
  forall l st ys st',
    st_map f l st = (Ok ys, st') ->
    length ys = length l /\ length st <= length st'.
Proof.
  intros Hf. induction l as [|x l IH]; intros st ys st' H; simpl in H.
  - injection H as <- <-. auto.
  - apply mbind_ok in H as (y & st1 & Hy & H).
    apply mbind_ok in H as (ys' & st2 & Hys & H).
    injection H as <- <-. apply Hf in Hy. apply IH in Hys as [Hl Hs].
    simpl. split; lia.
Qed.

(** A loop whose body always returns an array it has just created. *)
Lemma st_for_each_fresh {A : Type} (body : ref -> A -> M ref) :
  (forall acc x st r st',
      body acc x st = (Ok r, st') -> length st <= r /\ r < length st') ->
  forall xs acc st r st',
    st_for_each xs body acc st = (Ok r, st') ->
    length st <= length st' /\ (xs <> [] -> length st <= r).
Proof.
  intros Hbody. induction xs as [|x xs IH]; intros acc st r st' H; simpl in H.
  - injection H as <- <-. split; [lia | congruence].
  - apply mbind_ok in H as (r1 & st1 & H1 & H).
    apply Hbody in H1 as [Hlo Hhi]. destruct xs as [|x' xs'].
    + simpl in H. injection H as <- <-. split; [lia|]. intros _. lia.
    + apply IH in H as [Hs Hr].
      assert (length st1 <= r) by (apply Hr; discriminate). split; lia.
Qed.

Lemma svd_call_length f st y st' :
  svd_call svd f st = (Ok y, st') -> length st <= length st'.
Proof.
  unfold svd_call. run. unfold mbind at 1, lift.
  destruct (svd (nth f st no_array)) as [t|]; [|discriminate].
  repeat run. unfold ret. intros H. injection H as _ <-.
  rewrite !length_app. lia.
Qed.

Lemma tensordot_call_fresh a X st r st' :
  tensordot_call a X st = (Ok r, st') -> length st <= r /\ r < length st'.
Proof.
  unfold tensordot_call. run. unfold mbind, lift, alloc.
  destruct (tensordot_last a (nth X st no_array)) as [v|]; [|discriminate].
  intros H. injection H as <- <-. rewrite length_app. simpl. lia.
Qed.

Lemma call_estimate_core_tensor_fresh factors X st r st' :
  call_estimate_core_tensor svd factors X st = (Ok r, st') ->
  factors <> [] -> length st <= r.
Proof.
  unfold call_estimate_core_tensor. intros H Hne.
  apply mbind_ok in H as (svds & st1 & Hsvds & H).
  apply st_map_length in Hsvds as [Hlen Hs1]; [|apply svd_call_length].
  apply mbind_ok in H as (X1 & st2 & H1 & H).
  apply st_for_each_fresh in H1 as [Hs2 _].
  2:{ intros acc t st0 r0 st0'. run. apply tensordot_call_fresh. }
  apply mbind_ok in H as (X2 & st3 & H2 & H).
  apply st_for_each_fresh in H2 as [Hs3 _].
  2:{ intros acc t st0 r0 st0'. repeat run. cbv zeta. repeat run.
      unfold mbind at 1, lift.
      destruct (np_diag _) as [d|]; [|discriminate].
      repeat run. intros H0. apply tensordot_call_fresh in H0.
      rewrite ?length_app, ?replace_at_length, ?length_app in H0. simpl in H0.
      lia. }
  apply mbind_ok in H as (X3 & st4 & H3 & H).
  apply st_for_each_fresh in H3 as [Hs4 Hr3].
  2:{ intros acc t st0 r0 st0'. run. apply tensordot_call_fresh. }
  assert (Hrev : rev svds <> []).
  { intros E. apply (f_equal (@length _)) in E. rewrite length_rev, Hlen in E.
    destruct factors; [congruence | discriminate]. }
  specialize (Hr3 Hrev).
  revert H. run. destruct (shape (nth X3 st4 no_array)).
  - unfold alloc. intros H. injection H as <- _. lia.
  - unfold ret. intros H. injection H as <- _. lia.
Qed.

End Fresh.

(** X13.  [estimate_core_tensor] on a store that holds the factor matrices and
    the data tensor: after the call, returned or raised, every array object
    that existed before holds the value it held, the in-place inversion having
    gone to a copy of [s]; the call raises exactly when the value-level
    function raises, with the same exception; and the array it returns holds
    the value-level result and, when there is a factor matrix, is a new
    object, none of those that existed before the call. *)
Theorem estimate_core_tensor_leaves_arguments
  (svd : ndarray -> result svd_triple) (st : Store.store)
  (factors : list Store.ref) (fvals : list ndarray)
  (X : Store.ref) (xv : ndarray) :
  Forall2 (Store.points st) factors fvals ->
  Store.points st X xv ->
  let out := Store.call_estimate_core_tensor svd factors X st in
  (exists locals, snd out = st ++ locals) /\
  (forall r v, Store.points st r v -> Store.points (snd out) r v) /\
  match fst out, estimate_core_tensor svd fvals xv with
  | Ok r, Ok G => Store.points (snd out) r G /\ (factors <> [] -> length st <= r)
  | Raise e, Raise e' => e = e'
  | _, _ => False
  end.
Proof.
  intros HF HX out.
  destruct (@StoreFacts.sim_estimate svd st factors fvals X xv HF HX)
    as (locals & Hs & Hsim).
  fold out in Hs, Hsim.
  split; [exists locals; exact Hs|]. split.
  - intros r v Hr. rewrite Hs. apply StoreFacts.points_grows. assumption.
  - destruct (fst out) as [r|e] eqn:Eout;
      destruct (estimate_core_tensor svd fvals xv) as [G|e'];
      try assumption.
    split; [exact Hsim|]. intros Hne.
    apply (@call_estimate_core_tensor_fresh svd factors X st r (snd out)); [|assumption].
    rewrite <- Eout. unfold out. apply surjective_pairing.
Qed.

Lemma estimate_core_tensor_leaves_arguments_witness :
  let out := Store.call_estimate_core_tensor svd_of_diagonal [1; 2; 3] 4 caller_store in
  (exists locals, snd out = caller_store ++ locals) /\
  (forall r v, Store.points caller_store r v -> Store.points (snd out) r v) /\
  match fst out, estimate_core_tensor svd_of_diagonal [A_diag; A_diag; A_sing] X_cube with
  | Ok r, Ok G =>
      Store.points (snd out) r G /\ ([1; 2; 3] <> [] -> length caller_store <= r)
  | Raise e, Raise e' => e = e'
  | _, _ => False
  end.
Proof.
  apply (@estimate_core_tensor_leaves_arguments svd_of_diagonal caller_store
           [1; 2; 3] [A_diag; A_diag; A_sing] 4 X_cube).
  - repeat constructor.
  - reflexivity.
Defined.
